(** * Resin CSS core: the template interpolator and the nested-CSS flattener

    A shallow embedding of [src/resin_css_core.ts], in its documented
    version with keyframes and container queries (extractCssTemplate,
    concatPathSegment, concatPathSegmentEx, combineSelectorPaths,
    combineMediaQueries, prepareCssSlot, stringifyCssSlots,
    collectKeyframeNames, extractNestedCss) and of the helpers it imports
    from [helpers.ts] (arrayDiallel, groupArrayItems, uniqueArrayItems),
    together with the part of the JavaScript runtime these functions rely on:
    strings as sequences of UTF-16 code units, the String.prototype methods
    used, a backtracking matcher for the regular expressions of the source,
    and plain objects used as string-keyed records. *)

From Stdlib Require Import Strings.String Strings.Ascii Numbers.DecimalString.
From Stdlib Require Import NArith ZArith Bool Lia Arith List.
Import ListNotations.

Set Implicit Arguments.

(* ================================================================== *)
(** ** JavaScript strings *)
(* ================================================================== *)

Module Js.

(** A JavaScript string is a sequence of UTF-16 code units. *)
Definition code_unit := N.
Definition jsstring := list code_unit.

(** Code units of an ASCII literal of the source. *)
Definition js (s : string) : jsstring :=
  map N_of_ascii (list_ascii_of_string s).
Arguments js s%_string.

Local Open Scope N_scope.

(** [\s] of a regular expression, which is also what [trim] removes:
    WhiteSpace and LineTerminator of ECMAScript. *)
Definition is_space (c : code_unit) : bool :=
  (c =? 9) || (c =? 10) || (c =? 11) || (c =? 12) || (c =? 13) || (c =? 32)
  || (c =? 160) || (c =? 5760) || ((8192 <=? c) && (c <=? 8202))
  || (c =? 8232) || (c =? 8233) || (c =? 8239) || (c =? 8287)
  || (c =? 12288) || (c =? 65279).

(** The characters that [.] does not match. *)
Definition is_line_terminator (c : code_unit) : bool :=
  (c =? 10) || (c =? 13) || (c =? 8232) || (c =? 8233).

Definition is_digit (c : code_unit) : bool := (48 <=? c) && (c <=? 57).
Definition is_upper (c : code_unit) : bool := (65 <=? c) && (c <=? 90).
Definition is_lower (c : code_unit) : bool := (97 <=? c) && (c <=? 122).

(** [\w] is [A-Za-z0-9_]. *)
Definition is_word (c : code_unit) : bool :=
  is_upper c || is_lower c || is_digit c || (c =? 95).

Fixpoint jsstring_eqb (a b : jsstring) : bool :=
  match a, b with
  | [], [] => true
  | x :: a', y :: b' => (x =? y) && jsstring_eqb a' b'
  | _, _ => false
  end.

(** [s.startsWith(p)], written with the prefix first. *)
Fixpoint starts_with (p s : jsstring) : bool :=
  match p, s with
  | [], _ => true
  | x :: p', y :: s' => (x =? y) && starts_with p' s'
  | _ :: _, [] => false
  end.

(** [s.endsWith(p)]. *)
Definition ends_with (p s : jsstring) : bool :=
  starts_with (rev p) (rev s).

(** [s.includes(p)]. *)
Fixpoint includes (p s : jsstring) : bool :=
  starts_with p s ||
  match s with
  | [] => false
  | _ :: s' => includes p s'
  end.

Fixpoint drop_space (s : jsstring) : jsstring :=
  match s with
  | c :: s' => if is_space c then drop_space s' else s
  | [] => []
  end.

(** [s.trim()]. *)
Definition trim (s : jsstring) : jsstring :=
  rev (drop_space (rev (drop_space s))).

(** [s.slice(1)]. *)
Definition slice_from_1 (s : jsstring) : jsstring := tl s.

(** [s.slice(0, s.length - 1)]. *)
Definition slice_drop_last (s : jsstring) : jsstring := removelast s.

(** [l.join(sep)]. *)
Fixpoint join (sep : jsstring) (l : list jsstring) : jsstring :=
  match l with
  | [] => []
  | [x] => x
  | x :: l' => x ++ sep ++ join sep l'
  end.

(** [s.split(sep)] for a separator that is not empty (the source splits on
    [","], ["and"], [" "] and a newline).  [skip] counts the code units of a
    separator occurrence that are still to be passed over; the result always
    has at least one piece. *)
Fixpoint split_go (sep : jsstring) (skip : nat) (s : jsstring) : list jsstring :=
  match s with
  | [] => [[]]
  | c :: s' =>
      match skip with
      | S k => split_go sep k s'
      | O =>
          if starts_with sep s then [] :: split_go sep (pred (length sep)) s'
          else
            match split_go sep O s' with
            | piece :: pieces => (c :: piece) :: pieces
            | [] => [[c]]
            end
      end
  end.

Definition split (sep s : jsstring) : list jsstring := split_go sep O s.

(** GetSubstitution of ECMAScript for a replacement given as a string, when
    the pattern has no capture group: [$$] is a dollar sign, [$&] the matched
    text, [$`] the text before the match, [$'] the text after it; any other
    use of [$] (also [$1] and [$<], there being no group) stands for itself. *)
Fixpoint get_substitution (matched before after templ : jsstring) : jsstring :=
  match templ with
  | [] => []
  | c :: t =>
      if c =? 36 then
        match t with
        | d :: t' =>
            if d =? 36 then 36 :: get_substitution matched before after t'
            else if d =? 38 then matched ++ get_substitution matched before after t'
            else if d =? 96 then before ++ get_substitution matched before after t'
            else if d =? 39 then after ++ get_substitution matched before after t'
            else 36 :: get_substitution matched before after t
        | [] => [36]
        end
      else c :: get_substitution matched before after t
  end.

(** [s.replaceAll(pat, repl)] with both arguments strings.  Occurrences are
    found from left to right without overlap; [before_rev] is the text
    already passed, reversed.  An empty pattern matches before every code
    unit and at the end. *)
Fixpoint replaceAll_go (pat repl : jsstring) (skip : nat)
    (before_rev s : jsstring) : jsstring :=
  match s with
  | [] =>
      match pat with
      | [] => get_substitution pat (rev before_rev) [] repl
      | _ :: _ => []
      end
  | c :: s' =>
      match skip with
      | S k => replaceAll_go pat repl k (c :: before_rev) s'
      | O =>
          if starts_with pat s then
            match pat with
            | [] =>
                get_substitution pat (rev before_rev) s repl
                  ++ c :: replaceAll_go pat repl O (c :: before_rev) s'
            | _ :: pat' =>
                get_substitution pat (rev before_rev)
                  (skipn (length pat) s) repl
                  ++ replaceAll_go pat repl (length pat') (c :: before_rev) s'
            end
          else c :: replaceAll_go pat repl O (c :: before_rev) s'
      end
  end.

Definition replaceAll (s pat repl : jsstring) : jsstring :=
  replaceAll_go pat repl O [] s.

(** The value [undefined] where the source has [string | undefined]. *)
Inductive maybe_string : Type :=
| Undefined
| Str (s : jsstring).

(** A value inside a template literal: [`${v}`]. *)
Definition template_text (v : maybe_string) : jsstring :=
  match v with
  | Undefined => js "undefined"
  | Str s => s
  end.

(** What a call can end in: a value, or a thrown TypeError. *)
Inductive result (A : Type) : Type :=
| Ok (a : A)
| TypeError.
Arguments TypeError {A}.

Definition bind {A B : Type} (r : result A) (f : A -> result B) : result B :=
  match r with
  | Ok a => f a
  | TypeError => TypeError
  end.

End Js.

(* ================================================================== *)
(** ** Regular expressions *)
(* ================================================================== *)

(** The regular expressions of the source are matched as ECMAScript
    specifies them: a backtracking matcher written with continuations, tried
    at successive positions from the left. *)
Module Regex.
Import Js.

Inductive regex : Type :=
| Eps
| Class (p : code_unit -> bool)   (* one code unit of a class, or an escape *)
| Seq (r1 r2 : regex)
| Alt (r1 r2 : regex)             (* r1|r2 *)
| Star (r : regex)                (* r*, greedy *)
| LazyStar (r : regex)            (* r*? *)
| Group (r : regex)               (* (r), the capture group 1 *)
| EndOfInput.                     (* $ *)

Definition Chr (c : code_unit) : regex := Class (N.eqb c).
Definition Plus (r : regex) : regex := Seq r (Star r).
Definition Opt (r : regex) : regex := Alt r Eps.
(** [.] *)
Definition Dot : regex := Class (fun c => negb (is_line_terminator c)).
(** [\s] *)
Definition Space : regex := Class is_space.

Fixpoint Lit (s : jsstring) : regex :=
  match s with
  | [] => Eps
  | c :: s' => Seq (Chr c) (Lit s')
  end.

(** One code unit out of those of a string: [[...]]. *)
Definition one_of (cs : jsstring) (c : code_unit) : bool :=
  existsb (N.eqb c) cs.

(** What a match ends in: the number of code units it has read and the
    capture of group 1. *)
Definition mstate : Type := (nat * option jsstring)%type.

(** A continuation takes the position reached, what is left to read and the
    capture; a matcher takes the position, the input, the capture and a
    continuation, and answers [None] to make the caller backtrack. *)
Definition continuation : Type :=
  nat -> jsstring -> option jsstring -> option mstate.

Definition matcher : Type :=
  nat -> jsstring -> option jsstring -> continuation -> option mstate.

(** [m*] for a matcher [m], greedy: one more iteration is tried before the
    continuation.  An iteration that reads nothing is refused, as in
    ECMAScript, so that [n] iterations are enough on an input of [n] code
    units. *)
Fixpoint star_greedy (m : matcher) (k : continuation) (n : nat) (pos : nat)
    (s : jsstring) (cap : option jsstring) : option mstate :=
  match n with
  | O => k pos s cap
  | S n' =>
      match
        m pos s cap
          (fun pos' s' cap' =>
             if (pos <? pos')%nat then star_greedy m k n' pos' s' cap'
             else None)
      with
      | Some st => Some st
      | None => k pos s cap
      end
  end.

(** [m*?], lazy: the continuation is tried before one more iteration. *)
Fixpoint star_lazy (m : matcher) (k : continuation) (n : nat) (pos : nat)
    (s : jsstring) (cap : option jsstring) : option mstate :=
  match k pos s cap with
  | Some st => Some st
  | None =>
      match n with
      | O => None
      | S n' =>
          m pos s cap
            (fun pos' s' cap' =>
               if (pos <? pos')%nat then star_lazy m k n' pos' s' cap'
               else None)
      end
  end.

(** [rmatch r pos s cap k] matches [r] at the head of [s], which stands at
    position [pos] of the input, and hands the position reached, what is
    left to read and the capture to the continuation [k]. *)
Fixpoint rmatch (r : regex) (pos : nat) (s : jsstring) (cap : option jsstring)
    (k : continuation) {struct r} : option mstate :=
  match r with
  | Eps => k pos s cap
  | Class p =>
      match s with
      | c :: s' => if p c then k (S pos) s' cap else None
      | [] => None
      end
  | Seq r1 r2 =>
      rmatch r1 pos s cap (fun pos' s' cap' => rmatch r2 pos' s' cap' k)
  | Alt r1 r2 =>
      match rmatch r1 pos s cap k with
      | Some st => Some st
      | None => rmatch r2 pos s cap k
      end
  | Star r1 => star_greedy (rmatch r1) k (length s) pos s cap
  | LazyStar r1 => star_lazy (rmatch r1) k (length s) pos s cap
  | Group r1 =>
      rmatch r1 pos s cap
        (fun pos' s' _ => k pos' s' (Some (firstn (pos' - pos) s)))
  | EndOfInput =>
      match s with
      | [] => k pos s cap
      | _ :: _ => None
      end
  end.

(** The match of [r] that starts at the head of [s], if there is one: its
    length and the text captured by group 1. *)
Definition exec (r : regex) (s : jsstring) : option (nat * option jsstring) :=
  rmatch r O s None (fun pos' _ cap => Some (pos', cap)).

(** [s.replace(/r/g, f)] with a function [f] of the matched text and of the
    capture.  [skip] counts the code units of the current match still to be
    passed over; after an empty match the scan moves on by one code unit. *)
Fixpoint replace_go (r : regex) (f : jsstring -> option jsstring -> jsstring)
    (skip : nat) (s : jsstring) : jsstring :=
  match s with
  | [] =>
      match skip, exec r [] with
      | O, Some (_, cap) => f [] cap
      | _, _ => []
      end
  | c :: s' =>
      match skip with
      | S k => replace_go r f k s'
      | O =>
          match exec r s with
          | Some (O, cap) => f [] cap ++ c :: replace_go r f O s'
          | Some (S k, cap) => f (firstn (S k) s) cap ++ replace_go r f k s'
          | None => c :: replace_go r f O s'
          end
      end
  end.

Definition replace_fn (r : regex) (f : jsstring -> option jsstring -> jsstring)
    (s : jsstring) : jsstring :=
  replace_go r f O s.

(** [s.replace(/r/g, repl)] with a replacement string, for [r] without a
    capture group: every match is replaced by GetSubstitution of [repl],
    computed on the original string. *)
Fixpoint replace_str_go (r : regex) (repl : jsstring) (skip : nat)
    (before_rev s : jsstring) : jsstring :=
  match s with
  | [] =>
      match skip, exec r [] with
      | O, Some _ => get_substitution [] (rev before_rev) [] repl
      | _, _ => []
      end
  | c :: s' =>
      match skip with
      | S k => replace_str_go r repl k (c :: before_rev) s'
      | O =>
          match exec r s with
          | Some (O, _) =>
              get_substitution [] (rev before_rev) s repl
                ++ c :: replace_str_go r repl O (c :: before_rev) s'
          | Some (S k, _) =>
              get_substitution (firstn (S k) s) (rev before_rev)
                (skipn (S k) s) repl
                ++ replace_str_go r repl k (c :: before_rev) s'
          | None => c :: replace_str_go r repl O (c :: before_rev) s'
          end
      end
  end.

Definition replace_str (r : regex) (repl s : jsstring) : jsstring :=
  replace_str_go r repl O [] s.

(** [s.match(/^r/)] as a truth value: a regular expression that starts with
    [^] is tried at the start of the string only. *)
Definition test_at_start (r : regex) (s : jsstring) : bool :=
  match exec r s with
  | Some _ => true
  | None => false
  end.

(** [s.match(/^r/)?.[1]]. *)
Definition capture_at_start (r : regex) (s : jsstring) : option jsstring :=
  match exec r s with
  | Some (_, cap) => cap
  | None => None
  end.

(** [s.replace(/^r/, "")]. *)
Definition remove_at_start (r : regex) (s : jsstring) : jsstring :=
  match exec r s with
  | Some (n, _) => skipn n s
  | None => s
  end.

(** [s.match(/r/)] as a truth value: the first position with a match. *)
Fixpoint test (r : regex) (s : jsstring) : bool :=
  match exec r s with
  | Some _ => true
  | None =>
      match s with
      | [] => false
      | _ :: s' => test r s'
      end
  end.

End Regex.

(* ================================================================== *)
(** ** Plain objects used as records *)
(* ================================================================== *)

(** [Record<string, V>] built from [{}]: the own properties in the order of
    their creation, over the properties every object inherits from
    Object.prototype. *)
Module JsObject.
Import Js.

Local Open Scope N_scope.

(** The names an object literal inherits (ECMAScript, with its annex B);
    each is bound to a function or an object, so each is truthy. *)
Definition object_prototype_keys : list jsstring :=
  [ js "constructor"; js "hasOwnProperty"; js "isPrototypeOf";
    js "propertyIsEnumerable"; js "toLocaleString"; js "toString";
    js "valueOf"; js "__proto__"; js "__defineGetter__";
    js "__defineSetter__"; js "__lookupGetter__"; js "__lookupSetter__" ].

Definition is_inherited (k : jsstring) : bool :=
  existsb (jsstring_eqb k) object_prototype_keys.

Section Obj.
Variable V : Type.

Definition obj : Type := list (jsstring * V).

(** What [o[k]] finds. *)
Inductive property : Type :=
| Own (v : V)
| Inherited
| Absent.

Fixpoint get_own (o : obj) (k : jsstring) : option V :=
  match o with
  | [] => None
  | (k', v) :: o' => if jsstring_eqb k' k then Some v else get_own o' k
  end.

Definition get (o : obj) (k : jsstring) : property :=
  match get_own o k with
  | Some v => Own v
  | None => if is_inherited k then Inherited else Absent
  end.

(** [o[k] = v], for a key that [get] finds [Own] or [Absent]: an own
    property keeps its place, a new one comes last. *)
Fixpoint set (o : obj) (k : jsstring) (v : V) : obj :=
  match o with
  | [] => [(k, v)]
  | (k', v') :: o' =>
      if jsstring_eqb k' k then (k', v) :: o' else (k', v') :: set o' k v
  end.

(** An array index is the canonical decimal text of an integer below
    2^32 - 1. *)
Definition array_index (k : jsstring) : option N :=
  match k with
  | [] => None
  | c :: k' =>
      if forallb is_digit k
         && (negb (c =? 48) || match k' with [] => true | _ :: _ => false end)
      then
        let v := fold_left (fun a d => 10 * a + (d - 48)) k 0 in
        if v <? 4294967295 then Some v else None
      else None
  end.

Fixpoint insert_by_index (n : N) (kv : jsstring * V)
    (l : list (N * (jsstring * V))) : list (N * (jsstring * V)) :=
  match l with
  | [] => [(n, kv)]
  | (m, kv') :: l' =>
      if n <? m then (n, kv) :: l else (m, kv') :: insert_by_index n kv l'
  end.

Fixpoint index_entries (o : obj) : list (N * (jsstring * V)) :=
  match o with
  | [] => []
  | kv :: o' =>
      match array_index (fst kv) with
      | Some n => insert_by_index n kv (index_entries o')
      | None => index_entries o'
      end
  end.

(** The own properties in the order [Object.values] and [for ... in] visit
    them: array indices in ascending order, then the other keys in the order
    of their creation. *)
Definition entries (o : obj) : list (jsstring * V) :=
  map snd (index_entries o)
  ++ filter (fun kv => match array_index (fst kv) with
                       | Some _ => false
                       | None => true
                       end) o.

(** [Object.values(o)]. *)
Definition values (o : obj) : list V := map snd (entries o).

End Obj.

Arguments Inherited {V}.
Arguments Absent {V}.

End JsObject.

(* ================================================================== *)
(** ** helpers.ts *)
(* ================================================================== *)

Module Helpers.
Import Js JsObject.

(** [arrayDiallel]: the two nested loops, each pair pushed at the end. *)
Definition arrayDiallel {A B : Type} (ar : list A) (br : list B)
    : list (A * B) :=
  fold_left
    (fun res a => fold_left (fun res b => res ++ [(a, b)]) br res)
    ar [].

(** [groupArrayItems]: [res[key].push(item)] throws when [res[key]] is an
    inherited member, which is truthy and has no [push]. *)
Definition groupArrayItems {T : Type} (items : list T) (keyFn : T -> jsstring)
    : result (obj (list T)) :=
  fold_left
    (fun (acc : result (obj (list T))) item =>
       bind acc (fun res =>
         let key := keyFn item in
         match get res key with
         | Own group => Ok (set res key (group ++ [item]))
         | Absent => Ok (set res key [item])
         | Inherited => TypeError
         end))
    items (Ok []).

(** [items.indexOf(it)], [None] standing for -1. *)
Fixpoint indexOf {T : Type} (eqb : T -> T -> bool) (items : list T) (it : T)
    : option nat :=
  match items with
  | [] => None
  | x :: items' =>
      if eqb x it then Some O
      else match indexOf eqb items' it with
           | Some i => Some (S i)
           | None => None
           end
  end.

(** [items.filter((it, index) => f(it, index))], from index [i] on. *)
Fixpoint filter_indexed {T : Type} (f : T -> nat -> bool) (i : nat)
    (items : list T) : list T :=
  match items with
  | [] => []
  | x :: items' =>
      if f x i then x :: filter_indexed f (S i) items'
      else filter_indexed f (S i) items'
  end.

(** [uniqueArrayItems]. *)
Definition uniqueArrayItems {T : Type} (eqb : T -> T -> bool) (items : list T)
    : list T :=
  filter_indexed
    (fun it index =>
       match indexOf eqb items it with
       | Some i => Nat.eqb i index
       | None => false
       end)
    O items.

(** *** crc32 *)

(** The bit operations of JavaScript work on 32-bit integers: [ToUint32]
    and [ToInt32] of a number, which is an integer here. *)
Definition to_uint32 (z : Z) : Z := (z mod 4294967296)%Z.

Definition to_int32 (z : Z) : Z :=
  let u := to_uint32 z in
  if (u <? 2147483648)%Z then u else (u - 4294967296)%Z.

(** [a ^ b], [a & b] and [a >>> n]. *)
Definition js_xor (a b : Z) : Z :=
  to_int32 (Z.lxor (to_int32 a) (to_int32 b)).

Definition js_and (a b : Z) : Z :=
  to_int32 (Z.land (to_int32 a) (to_int32 b)).

Definition js_ushr (a : Z) (n : Z) : Z :=
  Z.shiftr (to_uint32 a) (n mod 32)%Z.

(** One round of the inner loop of [makeCRCTable]. *)
Definition crc_round (c : Z) : Z :=
  if (js_and c 1 =? 0)%Z then js_ushr c 1
  else js_xor 3988292384 (js_ushr c 1).

(** [makeCRCTable()]: for every [n] below 256, eight rounds from [n]. *)
Definition makeCRCTable : list Z :=
  map (fun n => Nat.iter 8 crc_round (Z.of_nat n)) (seq 0 256).

Definition crcTable : list Z := Eval vm_compute in makeCRCTable.

(** The loop of [crc32] over the code units of the string. *)
Definition crc_step (crc : Z) (code : code_unit) : Z :=
  js_xor (js_ushr crc 8)
    (nth (Z.to_nat (js_and (js_xor crc (Z.of_N code)) 255)) crcTable 0%Z).

Definition crc_value (str : jsstring) : Z :=
  js_ushr (js_xor (fold_left crc_step str (js_xor 0 (-1))) (-1)) 0.

(** One hexadecimal digit, in lower case. *)
Definition hex_digit (d : N) : code_unit :=
  (if d <? 10 then 48 + d else 87 + d)%N.

(** The digits of [n] in base 16 put before [acc], most significant first;
    [fuel] bounds their number. *)
Fixpoint to_hex_go (fuel : nat) (n : N) (acc : jsstring) : jsstring :=
  match fuel with
  | O => acc
  | S fuel' =>
      if (n =? 0)%N then acc
      else to_hex_go fuel' (n / 16)%N (hex_digit (n mod 16)%N :: acc)
  end.

(** [n.toString(16)] for a number that is a natural integer; it has no
    more digits than [n] has bits. *)
Definition toString16 (n : N) : jsstring :=
  if (n =? 0)%N then js "0" else to_hex_go (N.to_nat (N.size n)) n [].

(** [s.padStart(8, "0")]. *)
Definition padStart8 (s : jsstring) : jsstring :=
  repeat 48%N (8 - length s) ++ s.

Definition crc32 (str : jsstring) : jsstring :=
  padStart8 (toString16 (Z.to_N (crc_value str))).

End Helpers.

(* ================================================================== *)
(** ** resin_css_core.ts *)
(* ================================================================== *)

Module Core.
Import Js Regex JsObject Helpers.

Local Open Scope N_scope.

(** *** The template interpolator *)

(** A number.  An integer below 2^53 in absolute value is a double, and
    Number::toString of ECMAScript writes it with all its decimal digits.
    Any other number (a fraction, a larger number such as 1e21, [NaN], an
    infinity) is given by the text that Number::toString returns for it
    ([0.5], [1e+21], [NaN], [Infinity]): the only thing the code does with
    a number is to call [toString] on it, and the digits that Number::toString
    finds for a double are not modelled. *)
Inductive number : Type :=
| Integer (z : Z) (safe : (Z.abs z <? 9007199254740992)%Z = true)
| OtherNumber (text : jsstring).
Arguments Integer z safe : clear implicits.

(** The values a template receives.  The code tests a value with
    [typeof value === "string"] and with [===] against [false], [null],
    [undefined] and the empty string, and otherwise evaluates
    [text += value.toString()]; no member of an object is read.  An object
    is therefore given by what [text += value.toString()] does with it: the
    text that is appended ([[object Object]] for a plain object such as a
    CssBall, whatever an own [toString] returns otherwise), or the exception
    of the call, when the object has no [toString] to call
    ([Object.create(null)]) or its [toString] throws. *)
Inductive value : Type :=
| VString (s : jsstring)
| VNumber (n : number)
| VBoolean (b : bool)
| VNull
| VUndefined
| VObject (toString : result jsstring).

(** A plain object, which inherits [Object.prototype.toString]. *)
Definition plain_object : value := VObject (Ok (js "[object Object]")).

(** The decimal digits of an integer, with [-] before those of a negative
    one. *)
Definition decimal (z : Z) : jsstring :=
  js (NilZero.string_of_int (Z.to_int z)).

(** Number::toString, radix 10. *)
Definition number_toString (n : number) : jsstring :=
  match n with
  | Integer z _ => decimal z
  | OtherNumber text => text
  end.

(** [value.toString()], as [text += value.toString()] sees it; [null] and
    [undefined] have no method to call. *)
Definition value_toString (v : value) : result jsstring :=
  match v with
  | VString s => Ok s
  | VNumber n => Ok (number_toString n)
  | VBoolean true => Ok (js "true")
  | VBoolean false => Ok (js "false")
  | VObject toString => toString
  | VNull => TypeError
  | VUndefined => TypeError
  end.

(** [/\s*\r?\n\s*/g] *)
Definition re_newline_run : regex :=
  Seq (Star Space) (Seq (Opt (Chr 13)) (Seq (Chr 10) (Star Space))).

(** [/\s*([:{;~,])\s*/g] *)
Definition re_around_special : regex :=
  Seq (Star Space) (Seq (Group (Class (one_of (js ":{;~,")))) (Star Space)).

(** [/;;/g] *)
Definition re_double_semicolon : regex := Lit (js ";;").

(** The callback [(_, p1) => p1]. *)
Definition first_capture (_ : jsstring) (p1 : option jsstring) : jsstring :=
  match p1 with
  | Some p => p
  | None => js "undefined"
  end.

(** [template[i]] appended to a string: a missing chunk reads [undefined]. *)
Definition template_at (template : list jsstring) (i : nat) : jsstring :=
  match nth_error template i with
  | Some chunk => chunk
  | None => js "undefined"
  end.

Section Interpolator.

(** The text the engine gives to the member of Object.prototype of that
    name, when it is appended to a string (left to the implementation by
    ECMAScript). *)
Variable inherited_text : jsstring -> jsstring.

(** [classNameToSourceCssTextMap?.[value]], where it is truthy: the text
    that is appended. *)
Definition prior_source (map : option (obj jsstring)) (s : jsstring)
    : option jsstring :=
  match map with
  | None => None
  | Some m =>
      match get m s with
      | Own t => match t with [] => None | _ :: _ => Some t end
      | Inherited => Some (inherited_text s)
      | Absent => None
      end
  end.

(** The three branches on [values[i]]: what is appended to [text]. *)
Definition contribution (map : option (obj jsstring)) (v : value)
    : result jsstring :=
  match match v with
        | VString s => prior_source map s
        | _ => None
        end
  with
  | Some source => Ok source
  | None =>
      match v with
      | VBoolean false => Ok []
      | VNull => Ok []
      | VUndefined => Ok []
      | VString [] => Ok []
      | _ => value_toString v
      end
  end.

(** The loop of [extractCssTemplate], from index [i] on. *)
Fixpoint interpolate_loop (template : list jsstring)
    (map : option (obj jsstring)) (i : nat) (values : list value)
    (text : jsstring) : result jsstring :=
  match values with
  | [] => Ok (text ++ template_at template i)
  | v :: values' =>
      bind (contribution map v) (fun added =>
        interpolate_loop template map (S i) values'
          ((text ++ template_at template i) ++ added))
  end.

Definition extractCssTemplate (template : list jsstring)
    (values : list value) (classNameToSourceCssTextMap : option (obj jsstring))
    : result jsstring :=
  bind (interpolate_loop template classNameToSourceCssTextMap O values [])
    (fun text =>
       Ok (replace_str re_double_semicolon (js ";")
             (replace_fn re_around_special first_capture
                (replace_str re_newline_run [] text)))).

End Interpolator.

(** *** Normalized lines *)

(** [/\/\*.*?\*\//g] *)
Definition re_block_comment : regex :=
  Seq (Lit (js "/*")) (Seq (LazyStar Dot) (Lit (js "*/"))).

(** [/\/\/.*\r?\n/g] *)
Definition re_line_comment : regex :=
  Seq (Lit (js "//")) (Seq (Star Dot) (Seq (Opt (Chr 13)) (Chr 10))).

(** [/&\s+\./g] *)
Definition re_amp_space_dot : regex :=
  Seq (Chr 38) (Seq (Plus Space) (Chr 46)).

(** [/\r?\n/g] *)
Definition re_newline : regex := Seq (Opt (Chr 13)) (Chr 10).

(** [/[;{}]/g] *)
Definition re_terminator : regex := Class (one_of (js ";{}")).

Definition is_nonempty (s : jsstring) : bool :=
  match s with
  | [] => false
  | _ :: _ => true
  end.

Definition transformCssBodyTextToNormalizedLines (cssBodyText : jsstring)
    : list jsstring :=
  filter is_nonempty
    (map trim
       (split [10]
          (replace_fn re_terminator (fun m _ => m ++ [10])
             (replace_str re_newline []
                (replace_str re_amp_space_dot (js "&.")
                   (replace_fn re_around_special first_capture
                      (replace_str re_line_comment []
                         (replace_str re_block_comment []
                            cssBodyText)))))))).

(** *** Selector composition *)

(** [/&/g] *)
Definition re_amp : regex := Chr 38.

(** [/\w$/] *)
Definition re_word_at_end : regex := Seq (Class is_word) EndOfInput.

(** [/^[a-zA-Z.#*\[:]/], without its [^] *)
Definition re_selector_start : regex :=
  Class (fun c => is_lower c || is_upper c || one_of (js ".#*[:") c).

Definition concatPathSegment (path seg : jsstring) : jsstring :=
  if includes (js "&") seg then trim (replace_str re_amp path seg)
  else if test re_word_at_end path && test_at_start re_selector_start seg
       then path ++ js " " ++ seg
       else path ++ seg.

Definition concatPathSegmentEx (srcPath inputSeg : jsstring) : jsstring :=
  let srcPaths := split (js ",") srcPath in
  let inputSegs := split (js ",") inputSeg in
  join (js ",")
    (map (fun z => concatPathSegment (fst z) (snd z))
       (arrayDiallel srcPaths inputSegs)).

Definition combineSelectorPaths (selectorPaths : list jsstring)
    : maybe_string :=
  match selectorPaths with
  | head :: (_ :: _) as tails => Str (fold_left concatPathSegmentEx tails head)
  | [head] => Str head
  | [] => Undefined
  end.

(** *** Group rules *)

(** [/^(@media|@container)\s/], without its [^] *)
Definition re_group_rule_space : regex :=
  Seq (Group (Alt (Lit (js "@media")) (Lit (js "@container")))) Space.

(** [/^(@media|@container)/], without its [^] *)
Definition re_group_rule : regex :=
  Group (Alt (Lit (js "@media")) (Lit (js "@container"))).

Definition combineMediaQueries (mediaQuerySpecs : list jsstring) : jsstring :=
  match mediaQuerySpecs with
  | [] => []
  | first :: _ =>
      let srcParts :=
        flat_map
          (fun mq =>
             map trim (split (js "and") (remove_at_start re_group_rule_space mq)))
          mediaQuerySpecs in
      let parts := uniqueArrayItems jsstring_eqb srcParts in
      let head := hd [] (split (js " ") first) in
      head ++ js " " ++ join (js " and ") parts
  end.

(** *** Rule slots *)

Record CssSlot : Type := mkCssSlot {
  selectorPath : maybe_string;
  groupRuleSpec : jsstring;
  cssLines : list jsstring
}.

(** [l.findIndex(p)], [None] standing for -1. *)
Fixpoint findIndex {T : Type} (p : T -> bool) (l : list T) : option nat :=
  match l with
  | [] => None
  | x :: l' =>
      if p x then Some O
      else match findIndex p l' with
           | Some i => Some (S i)
           | None => None
           end
  end.

(** The selector path and the group rule spec of a stack of narrowers. *)
Definition resolve (narrowers : list jsstring) : maybe_string * jsstring :=
  match findIndex (starts_with (js "@keyframes")) narrowers with
  | Some pathPartsKeyframeIndex =>
      let groupRuleSpec := nth pathPartsKeyframeIndex narrowers [] in
      let pathParts := skipn (pathPartsKeyframeIndex + 1) narrowers in
      (combineSelectorPaths pathParts, groupRuleSpec)
  | None =>
      let pathParts :=
        filter (fun it => negb (test_at_start re_group_rule it)) narrowers in
      let mediaQueryParts :=
        filter (fun it => test_at_start re_group_rule it) narrowers in
      (combineSelectorPaths pathParts, combineMediaQueries mediaQueryParts)
  end.

(** [prepareCssSlot]: the key, and the slots with the slot of that key
    created when [cssSlots[slotKey]] is falsy. *)
Definition prepareCssSlot (narrowers : list jsstring) (cssSlots : obj CssSlot)
    : jsstring * obj CssSlot :=
  let '(selectorPath, groupRuleSpec) := resolve narrowers in
  let slotKey := groupRuleSpec ++ template_text selectorPath in
  match get cssSlots slotKey with
  | Absent =>
      (slotKey, set cssSlots slotKey (mkCssSlot selectorPath groupRuleSpec []))
  | _ => (slotKey, cssSlots)
  end.

(** [stringifyCssSlots]; reading [slots[0]] of an empty array throws. *)
Definition stringifyCssSlots (slots : list CssSlot) : result jsstring :=
  match slots with
  | [] => TypeError
  | slot0 :: _ =>
      let cssContentLines :=
        map (fun slot =>
               template_text (selectorPath slot) ++ js "{"
                 ++ join (js " ") (cssLines slot) ++ js "}")
            slots in
      match groupRuleSpec slot0 with
      | _ :: _ =>
          let cssContents :=
            join [10] (map (fun line => js "  " ++ line) cssContentLines) in
          Ok (groupRuleSpec slot0 ++ js "{" ++ [10] ++ cssContents
                ++ [10] ++ js "}")
      | [] => Ok (join [10] cssContentLines)
      end
  end.

(** [/^@keyframes ([\w-]+)/], without its [^] *)
Definition re_keyframes_name : regex :=
  Seq (Lit (js "@keyframes "))
      (Group (Plus (Class (fun c => is_word c || (c =? 45))))).

Definition collectKeyframeNames (slots : list CssSlot) : list jsstring :=
  uniqueArrayItems jsstring_eqb
    (flat_map
       (fun slot =>
          match capture_at_start re_keyframes_name (groupRuleSpec slot) with
          | Some name => if is_nonempty name then [name] else []
          | None => []
          end)
       (filter (fun slot => starts_with (js "@keyframes") (groupRuleSpec slot))
          slots)).

(** *** The scan *)

Record scan_state : Type := mkState {
  narrowers : list jsstring;
  slotKey : jsstring;
  cssSlots : obj CssSlot
}.

(** One line of the loop over [srcLines]. *)
Definition scan_line (st : scan_state) (line : jsstring) : result scan_state :=
  if ends_with (js "{") line then
    let selector := slice_drop_last line in
    let narrowers' := narrowers st ++ [selector] in
    let '(key, slots) := prepareCssSlot narrowers' (cssSlots st) in
    Ok (mkState narrowers' key slots)
  else if ends_with (js "}") line then
    let narrowers' := removelast (narrowers st) in
    let '(key, slots) := prepareCssSlot narrowers' (cssSlots st) in
    Ok (mkState narrowers' key slots)
  else
    match get (cssSlots st) (slotKey st) with
    | Own slot =>
        Ok (mkState (narrowers st) (slotKey st)
              (set (cssSlots st) (slotKey st)
                 (mkCssSlot (selectorPath slot) (groupRuleSpec slot)
                    (cssLines slot ++ [line]))))
    | _ => TypeError
    end.

Fixpoint scan (st : scan_state) (srcLines : list jsstring)
    : result scan_state :=
  match srcLines with
  | [] => Ok st
  | line :: srcLines' => bind (scan_line st line) (fun st' => scan st' srcLines')
  end.

(** The loop over the keys of [cssSlots] that deletes the slots without
    lines: the other slots stay, in their order. *)
Definition prune (cssSlots : obj CssSlot) : obj CssSlot :=
  filter (fun kv => negb (Nat.eqb (length (cssLines (snd kv))) 0)) cssSlots.

(** [l.map(f)] for an [f] that can throw. *)
Fixpoint map_result {A B : Type} (f : A -> result B) (l : list A)
    : result (list B) :=
  match l with
  | [] => Ok []
  | x :: l' =>
      bind (f x) (fun y => bind (map_result f l') (fun ys => Ok (y :: ys)))
  end.

(** The keyframe names prefixed, one name after the other. *)
Definition rename_keyframes (topClassName : jsstring)
    (keyframeNames : list jsstring) (cssText : jsstring) : jsstring :=
  fold_left
    (fun cssText keyframeName =>
       replaceAll cssText keyframeName
         (topClassName ++ js "_" ++ keyframeName))
    keyframeNames cssText.

(** The slots that reach the rendering: the scan from the stack that holds
    the top selector alone, the empty slots deleted, [Object.values]. *)
Definition scan_slots (srcLines : list jsstring) (topSelector : jsstring)
    : result (list CssSlot) :=
  let '(key0, slots0) := prepareCssSlot [topSelector] [] in
  bind (scan (mkState [topSelector] key0 slots0) srcLines) (fun st =>
    Ok (values (prune (cssSlots st)))).

(** [cssText] before the keyframe names are prefixed. *)
Definition render_text (listSlots : list CssSlot) : result jsstring :=
  bind (groupArrayItems listSlots groupRuleSpec)
    (fun slotsGroupedByConditionalGroupRule =>
  bind (map_result stringifyCssSlots
          (values slotsGroupedByConditionalGroupRule))
    (fun blocks => Ok (join [10] blocks))).

(** [extractNestedCss] on the normalized lines. *)
Definition flatten_lines (srcLines : list jsstring) (topSelector : jsstring)
    : result jsstring :=
  bind (scan_slots srcLines topSelector) (fun listSlots =>
  bind (render_text listSlots) (fun cssText =>
    let keyframeNames := collectKeyframeNames listSlots in
    let topClassName := slice_from_1 topSelector in
    Ok (rename_keyframes topClassName keyframeNames cssText))).

Definition extractNestedCss (cssBodyText topSelector : jsstring)
    : result jsstring :=
  flatten_lines (transformCssBodyTextToNormalizedLines cssBodyText) topSelector.

End Core.

(* ================================================================== *)
(** ** resin_css.ts *)
(* ================================================================== *)

(** The module as it runs on the server, where [document] is undefined and
    [IS_BROWSER] is false: its state is the list of the balls created, the
    record of the source of every class name and the record of the texts
    emitted for the page.  Of [emitCssBallToDom] this is the branch
    [pushCssTextToEmitterForSsr]; the branch of the browser
    ([pushCssTextToEmitterForBrowser], which writes to an element of the
    document and throws when [getReginCssPageTagNode] does not find it) and
    the functions that build elements are not part of this model, and
    nothing below speaks of a run in a browser. *)
Module ResinCss.
Import Js Regex JsObject Helpers Core.

Local Open Scope N_scope.

Record CssBall : Type := mkCssBall {
  className : jsstring;
  sourceCssText : jsstring;
  cssText : jsstring
}.

(** [moduleLocalStateCommon] and [moduleLocalStateForSsr]. *)
Record module_state : Type := mkModuleState {
  cssBalls : list CssBall;
  classNameToSourceCssTextMap : obj jsstring;
  pageCssTexts : obj jsstring
}.

Definition initial_state : module_state := mkModuleState [] [] [].

(** [/,\r?\n/g] *)
Definition re_comma_newline : regex :=
  Seq (Chr 44) (Seq (Opt (Chr 13)) (Chr 10)).

(** [pushCssTextToEmitterForSsr]: the text is stored unless
    [pageCssTexts[className]] is truthy. *)
Definition pushCssTextToEmitterForSsr (className cssText : jsstring)
    (pageCssTexts : obj jsstring) : obj jsstring :=
  match get pageCssTexts className with
  | Own (_ :: _) => pageCssTexts
  | Inherited => pageCssTexts
  | _ => set pageCssTexts className cssText
  end.

(** [createCssBallCached] on the server: [emitCssBallToDom] is
    [pushCssTextToEmitterForSsr] there.  When [extractNestedCss] throws,
    nothing has been changed yet. *)
Definition createCssBallCached (st : module_state) (sourceCssText0 : jsstring)
    : result (jsstring * module_state) :=
  match
    find (fun ball => jsstring_eqb (sourceCssText ball) sourceCssText0)
      (cssBalls st)
  with
  | Some cssBall => Ok (className cssBall, st)
  | None =>
      let inputCssTextMod :=
        replace_str re_comma_newline (js ",") sourceCssText0 in
      let className0 := js "cs_" ++ crc32 inputCssTextMod in
      bind (extractNestedCss inputCssTextMod (js "." ++ className0))
        (fun cssText0 =>
           let cssBall := mkCssBall className0 sourceCssText0 cssText0 in
           Ok (className0,
               mkModuleState
                 (cssBalls st ++ [cssBall])
                 (set (classNameToSourceCssTextMap st) className0
                    sourceCssText0)
                 (pushCssTextToEmitterForSsr className0 cssText0
                    (pageCssTexts st))))
  end.

(** [getPageCssFullTextForSsr]. *)
Definition getPageCssFullTextForSsr (st : module_state) : jsstring :=
  join [10] (values (pageCssTexts st)) ++ [10].

Section Css.

Variable inherited_text : jsstring -> jsstring.

(** [css]: the template is interpolated with the record of the sources,
    and the ball of the text is created or found. *)
Definition css (st : module_state) (template : list jsstring)
    (templateParameters : list value) : result (jsstring * module_state) :=
  bind (extractCssTemplate inherited_text template templateParameters
          (Some (classNameToSourceCssTextMap st)))
    (fun inputCssText => createCssBallCached st inputCssText).

End Css.


(** The arguments of [cx]: [string | null | undefined | false]. *)
Inductive cx_arg : Type :=
| CxString (s : jsstring)
| CxNull
| CxUndefined
| CxFalse.

(** [!!a] *)
Definition cx_truthy (a : cx_arg) : bool :=
  match a with
  | CxString (_ :: _) => true
  | _ => false
  end.

(** The text of an argument inside [join]: what is left after the filter
    is strings. *)
Definition cx_text (a : cx_arg) : jsstring :=
  match a with
  | CxString s => s
  | CxNull => []
  | CxUndefined => []
  | CxFalse => js "false"
  end.

(** [cx]. *)
Definition cx (args : list cx_arg) : jsstring :=
  join (js " ") (map cx_text (filter cx_truthy args)).

End ResinCss.

(* ================================================================== *)
(** ** The specification's wording, for comparison with the code *)
(* ================================================================== *)

Module Spec.
Import Js Core.

Local Open Scope N_scope.

(** "Replace every [&] with [path]": exact replacement, the path copied as
    it stands. *)
Definition replace_amp_exact (path seg : jsstring) : jsstring :=
  flat_map (fun c => if c =? 38 then path else [c]) seg.

(** A string without a dollar sign. *)
Definition no_dollar (s : jsstring) : bool :=
  forallb (fun c => negb (c =? 36)) s.

(** The at-rule keywords of conditional group rules. *)
Definition group_keyword (kw : jsstring) : Prop :=
  kw = js "@media" \/ kw = js "@container".

(** A group-rule spec: the keyword, a space, the condition text. *)
Definition spec_text (p : jsstring * jsstring) : jsstring :=
  fst p ++ js " " ++ snd p.

(** "Split remaining condition text on the literal token [and], trim each
    condition", over all the specs. *)
Definition conditions (specs : list (jsstring * jsstring)) : list jsstring :=
  flat_map (fun p => map trim (split (js "and") (snd p))) specs.

(** A narrower that opens a keyframe group. *)
Definition is_keyframe (it : jsstring) : bool :=
  starts_with (js "@keyframes") it.

(** "Duplicates removed (stable order of first occurrence)": an element is
    kept when it has not been seen before. *)
Fixpoint first_occurrences_from (seen l : list jsstring) : list jsstring :=
  match l with
  | [] => []
  | x :: l' =>
      if existsb (jsstring_eqb x) seen then first_occurrences_from seen l'
      else x :: first_occurrences_from (x :: seen) l'
  end.

Definition first_occurrences (l : list jsstring) : list jsstring :=
  first_occurrences_from [] l.

(** "[false], [null], [undefined], or an empty string": substitute nothing. *)
Definition omitted (v : value) : bool :=
  match v with
  | VBoolean false => true
  | VNull => true
  | VUndefined => true
  | VString [] => true
  | _ => false
  end.

(** An object whose [toString] cannot be called or throws: it has no
    textual form. *)
Definition toString_throws (v : value) : bool :=
  match v with
  | VObject TypeError => true
  | _ => false
  end.

(** "Numbers rendered as decimal text": the digits of an integer below
    2^53; the text of any other number is what Number::toString returns. *)
Definition number_text (n : number) : jsstring :=
  match n with
  | Integer z _ => decimal z
  | OtherNumber text => text
  end.

(** "The value's textual form (numbers rendered as decimal text)"; that of
    an object is what its [toString] returns. *)
Definition textual_form (v : value) : jsstring :=
  match v with
  | VString s => s
  | VNumber n => number_text n
  | VBoolean true => js "true"
  | VBoolean false => js "false"
  | VNull => js "null"
  | VUndefined => js "undefined"
  | VObject (Ok text) => text
  | VObject TypeError => []
  end.

(** What the specification says of a value the first rule does not take. *)
Definition piece (v : value) : jsstring :=
  if omitted v then [] else textual_form v.

(** "Walk chunks and values in lockstep, concatenating [literalChunks[i]]
    then a textual rendering of [values[i]]; append the final literal
    chunk." *)
Fixpoint interleave (chunks pieces : list jsstring) : jsstring :=
  match chunks, pieces with
  | chunk :: chunks', piece :: pieces' =>
      chunk ++ piece ++ interleave chunks' pieces'
  | chunk :: _, [] => chunk
  | [], _ => []
  end.


(** A line that opens or closes a block. *)
Definition is_brace_line (line : jsstring) : bool :=
  ends_with (js "{") line || ends_with (js "}") line.


(** A code unit that is not a comma. *)
Definition not_comma (c : code_unit) : Prop := c <> 44.



(** A group rule spec is empty or begins with [@]. *)
Definition group_spec_shape (g : jsstring) : Prop :=
  g = [] \/ exists x, g = 64 :: x.

(** A slot stored under the key made of its own spec and path. *)
Definition slot_keyed (kv : jsstring * CssSlot) : Prop :=
  fst kv = groupRuleSpec (snd kv) ++ template_text (selectorPath (snd kv))
  /\ group_spec_shape (groupRuleSpec (snd kv)).

(** A slot without declaration lines. *)
Definition slot_empty (kv : jsstring * CssSlot) : Prop :=
  cssLines (snd kv) = [].

(** The slot [slot] with the lines [lines] pushed. *)
Definition with_lines (slot : CssSlot) (lines : list jsstring) : CssSlot :=
  mkCssSlot (selectorPath slot) (groupRuleSpec slot) (cssLines slot ++ lines).

(** The slots that are rendered for a block with the keyframes [fade] and
    [fade-in] and a reference to [fade-in], under [.s]. *)
Definition fade_slots : list CssSlot :=
  match
    scan_slots
      (transformCssBodyTextToNormalizedLines
         (js "@keyframes fade{from{opacity:0;}} @keyframes fade-in{from{opacity:1;}} animation-name:fade-in;"))
      (js ".s")
  with
  | Ok listSlots => listSlots
  | TypeError => []
  end.

(** What the flattening of a block with the keyframes [fade] and [fade-in]
    and a reference to [fade-in] returns under [.s]. *)
Definition fade_output : jsstring :=
  js ".s{animation-name:s_s_fade-in;}" ++ [10]
  ++ js "@keyframes s_fade{" ++ [10]
  ++ js "  from{opacity:0;}" ++ [10]
  ++ js "}" ++ [10]
  ++ js "@keyframes s_s_fade-in{" ++ [10]
  ++ js "  from{opacity:1;}" ++ [10]
  ++ js "}".

(** A hexadecimal digit in lower case: [[0-9a-f]]. *)
Definition is_hex (c : code_unit) : bool :=
  is_digit c || ((97 <=? c) && (c <=? 102)).

(** The value of a hexadecimal digit. *)
Definition hex_digit_value (c : code_unit) : N :=
  if is_digit c then c - 48 else c - 87.

(** The number that a text of hexadecimal digits writes. *)
Definition hex_value (s : jsstring) : N :=
  fold_left (fun a c => 16 * a + hex_digit_value c) s 0.

(** The code unit with only its low eight bits. *)
Definition low_byte (c : code_unit) : code_unit := N.land c 255.

(** The lines never close more blocks than they have opened, [depth]
    blocks being open at the start. *)
Fixpoint balanced_from (depth : nat) (srcLines : list jsstring) : bool :=
  match srcLines with
  | [] => true
  | line :: srcLines' =>
      if ends_with (js "{") line then balanced_from (S depth) srcLines'
      else if ends_with (js "}") line then
        match depth with
        | O => false
        | S depth' => balanced_from depth' srcLines'
        end
      else balanced_from depth srcLines'
  end.

(** Every alternative of a comma-separated selector list has a dot. *)
Definition dotted (path : jsstring) : Prop :=
  Forall (fun piece => In 46 piece) (split [44] path).

(** The items of a key, in their order. *)
Definition items_of_key {T : Type} (keyFn : T -> jsstring) (k : jsstring)
    (items : list T) : list T :=
  filter (fun item => jsstring_eqb (keyFn item) k) items.

(** A list as the value of a property: no property for the empty list. *)
Definition group_of {T : Type} (group : list T) : option (list T) :=
  match group with
  | [] => None
  | _ :: _ => Some group
  end.

(** The groups built from the items read so far. *)
Definition grouped {T : Type} (keyFn : T -> jsstring)
    (res : JsObject.obj (list T)) (done : list T) : Prop :=
  forall k, JsObject.get_own res k = group_of (items_of_key keyFn k done).

(** One round of the loop of [groupArrayItems]. *)
Definition group_step {T : Type} (keyFn : T -> jsstring)
    (acc : result (JsObject.obj (list T))) (item : T)
    : result (JsObject.obj (list T)) :=
  bind acc (fun res =>
    let key := keyFn item in
    match JsObject.get res key with
    | JsObject.Own group => Ok (JsObject.set res key (group ++ [item]))
    | JsObject.Absent => Ok (JsObject.set res key [item])
    | JsObject.Inherited => TypeError
    end).

(** The source text as [createCssBallCached] hashes and flattens it. *)
Definition source_mod (sourceCssText : jsstring) : jsstring :=
  Regex.replace_str ResinCss.re_comma_newline (js ",") sourceCssText.

(** A ball holds the class name and the flattened text of its source, and
    the page has a text under its class name. *)
Definition ball_ok (pages : JsObject.obj jsstring) (ball : ResinCss.CssBall)
    : Prop :=
  ResinCss.className ball
  = js "cs_" ++ Helpers.crc32 (source_mod (ResinCss.sourceCssText ball))
  /\ extractNestedCss (source_mod (ResinCss.sourceCssText ball))
       (js "." ++ ResinCss.className ball)
     = Ok (ResinCss.cssText ball)
  /\ exists text,
       JsObject.get_own pages (ResinCss.className ball) = Some text.

Definition consistent (st : ResinCss.module_state) : Prop :=
  Forall (ball_ok (ResinCss.pageCssTexts st)) (ResinCss.cssBalls st).

(** The states of the module: nothing but [createCssBallCached] writes to
    them, and a call that throws has written nothing. *)
Inductive reachable : ResinCss.module_state -> Prop :=
| reachable_initial : reachable ResinCss.initial_state
| reachable_call (st st' : ResinCss.module_state)
    (sourceCssText className : jsstring) :
    reachable st ->
    ResinCss.createCssBallCached st sourceCssText = Ok (className, st') ->
    reachable st'.

(** The arguments of [cx] that are class names: the strings that are not
    empty. *)
Definition given_classes (args : list ResinCss.cx_arg) : list jsstring :=
  flat_map
    (fun a =>
       match a with
       | ResinCss.CxString (c :: s) => [c :: s]
       | _ => []
       end)
    args.

(** An argument of [cx] that holds no space. *)
Definition one_class (a : ResinCss.cx_arg) : Prop :=
  match a with
  | ResinCss.CxString s => Forall (fun c => c <> 32) s
  | _ => True
  end.

(** One of [;], [{] and [}], the code units after which
    [transformCssBodyTextToNormalizedLines] breaks the line. *)
Definition is_terminator (c : code_unit) : bool := Regex.one_of (js ";{}") c.

(** No terminator stands before the last code unit. *)
Fixpoint terminator_last (line : jsstring) : Prop :=
  match line with
  | [] => True
  | c :: rest => (is_terminator c = true -> rest = []) /\ terminator_last rest
  end.

(** A normalized line: not empty, without a newline, without white space
    at either end, and with no terminator before its last code unit. *)
Definition normalized_line (line : jsstring) : Prop :=
  line <> []
  /\ ~ In 10 line
  /\ (forall c rest, line = c :: rest -> is_space c = false)
  /\ (forall front c, line = front ++ [c] -> is_space c = false)
  /\ (forall front c rest,
        line = front ++ c :: rest -> is_terminator c = true -> rest = []).

(** [[\w-]] *)
Definition is_name_unit (c : code_unit) : bool := is_word c || (c =? 45).

(** The longest prefix made of code units of a class. *)
Fixpoint take_while (p : code_unit -> bool) (s : jsstring) : jsstring :=
  match s with
  | c :: s' => if p c then c :: take_while p s' else []
  | [] => []
  end.

(** The name that a group rule spec declares: what follows [@keyframes]
    and one space, as far as letters, digits, [_] and [-] go. *)
Definition declares (spec name : jsstring) : Prop :=
  name <> []
  /\ exists rest,
       spec = js "@keyframes " ++ name ++ rest
       /\ take_while is_name_unit (name ++ rest) = name.

(** [top] stands somewhere in [s]. *)
Definition infix (top s : jsstring) : Prop :=
  exists front rest, s = front ++ top ++ rest.

(** Every alternative of a comma-separated selector list holds the scope
    selector. *)
Definition scoped (top path : jsstring) : Prop :=
  Forall (infix top) (split [44] path).

(** A slot of a keyframes rule, or a slot whose selector path is scoped. *)
Definition slot_scoped (top : jsstring) (slot : CssSlot) : Prop :=
  starts_with (js "@keyframes") (groupRuleSpec slot) = true
  \/ exists path, selectorPath slot = Str path /\ scoped top path.

(** The record of the sources has, under the class name of every ball,
    the source of a ball of that class name. *)
Definition map_ok (st : ResinCss.module_state) : Prop :=
  forall ball,
    In ball (ResinCss.cssBalls st) ->
    exists source,
      JsObject.get_own (ResinCss.classNameToSourceCssTextMap st)
        (ResinCss.className ball) = Some source
      /\ exists ball',
           In ball' (ResinCss.cssBalls st)
           /\ ResinCss.className ball' = ResinCss.className ball
           /\ ResinCss.sourceCssText ball' = source.

End Spec.

(* ================================================================== *)
(** ** Properties *)
(* ================================================================== *)

Import Js Regex JsObject Helpers Core Spec.

Unset Implicit Arguments.
Local Open Scope N_scope.

(** *** Strings *)

Lemma jsstring_eqb_eq (a b : jsstring) : jsstring_eqb a b = true <-> a = b.
Proof.
  revert b. induction a as [|x a IH]; intros [|y b]; simpl; split;
    try congruence; try reflexivity.
  - intros H. apply andb_prop in H as [Hx Hab].
    apply N.eqb_eq in Hx. apply IH in Hab. congruence.
  - intros H. injection H as -> ->.
    rewrite N.eqb_refl. simpl. now apply IH.
Qed.

Lemma jsstring_eqb_refl (a : jsstring) : jsstring_eqb a a = true.
Proof. now apply jsstring_eqb_eq. Qed.

Lemma jsstring_eqb_neq (a b : jsstring) : jsstring_eqb a b = false <-> a <> b.
Proof.
  split.
  - intros H E. apply jsstring_eqb_eq in E. congruence.
  - intros H. destruct (jsstring_eqb a b) eqn:E; [|reflexivity].
    apply jsstring_eqb_eq in E. contradiction.
Qed.

Lemma starts_with_app (p rest : jsstring) : starts_with p (p ++ rest) = true.
Proof.
  induction p as [|x p IH]; simpl; [reflexivity|].
  now rewrite N.eqb_refl, IH.
Qed.

Lemma starts_with_split (p s : jsstring) :
  starts_with p s = true -> exists rest, s = p ++ rest.
Proof.
  revert s. induction p as [|x p IH]; intros s H.
  - now exists s.
  - destruct s as [|y s]; simpl in H; [discriminate|].
    apply andb_prop in H as [Hx Hp]. apply N.eqb_eq in Hx. subst y.
    destruct (IH _ Hp) as [rest ->]. now exists rest.
Qed.

(** *** The bound on the iterations of a star *)

(** A matcher calls its continuation on a suffix of its input, at the
    position of that suffix: two continuations that agree there give the
    same match. *)
Lemma rmatch_ext (r : regex) :
  forall pos s cap (k k' : continuation),
    (forall pos' s' cap',
        (pos' + length s' = pos + length s)%nat ->
        k pos' s' cap' = k' pos' s' cap') ->
    rmatch r pos s cap k = rmatch r pos s cap k'.
Proof.
  induction r as [|p|r1 IH1 r2 IH2|r1 IH1 r2 IH2|r1 IH1|r1 IH1|r1 IH1|];
    intros pos s cap k k' Hk; cbn [rmatch].
  - now apply Hk.
  - destruct s as [|c s']; [reflexivity|].
    destruct (p c); [|reflexivity]. apply Hk. simpl. lia.
  - apply IH1. intros pos1 s1 cap1 H1. apply IH2.
    intros pos2 s2 cap2 H2. apply Hk. lia.
  - now rewrite (IH1 pos s cap k k' Hk), (IH2 pos s cap k k' Hk).
  - generalize (length s) as n. intros n. revert pos s cap Hk.
    induction n as [|n IHn]; intros pos s cap Hk; cbn [star_greedy].
    + now apply Hk.
    + rewrite (Hk pos s cap eq_refl).
      erewrite IH1; [reflexivity|].
      intros pos1 s1 cap1 H1. simpl.
      destruct (pos <? pos1)%nat; [|reflexivity].
      apply IHn. intros pos2 s2 cap2 H2. apply Hk. lia.
  - generalize (length s) as n. intros n. revert pos s cap Hk.
    induction n as [|n IHn]; intros pos s cap Hk; cbn [star_lazy];
      rewrite (Hk pos s cap eq_refl); [reflexivity|].
    destruct (k' pos s cap); [reflexivity|].
    apply IH1. intros pos1 s1 cap1 H1. simpl.
    destruct (pos <? pos1)%nat; [|reflexivity].
    apply IHn. intros pos2 s2 cap2 H2. apply Hk. lia.
  - apply IH1. intros pos1 s1 cap1 H1. now apply Hk.
  - destruct s; [now apply Hk | reflexivity].
Qed.

Lemma rmatch_fails (r : regex) :
  forall pos s cap, rmatch r pos s cap (fun _ _ _ => None) = None.
Proof.
  induction r as [|p|r1 IH1 r2 IH2|r1 IH1 r2 IH2|r1 IH1|r1 IH1|r1 IH1|];
    intros pos s cap; cbn [rmatch].
  - reflexivity.
  - destruct s as [|c s']; [reflexivity|]. now destruct (p c).
  - rewrite (rmatch_ext r1 pos s cap _ (fun _ _ _ => None)); [apply IH1|].
    intros pos1 s1 cap1 _. apply IH2.
  - now rewrite IH1, IH2.
  - generalize (length s) as n. intros n. revert pos s cap.
    induction n as [|n IHn]; intros pos s cap; cbn [star_greedy];
      [reflexivity|].
    rewrite (rmatch_ext r1 pos s cap _ (fun _ _ _ => None));
      [now rewrite IH1|].
    intros pos1 s1 cap1 _. simpl.
    destruct (pos <? pos1)%nat; [apply IHn | reflexivity].
  - generalize (length s) as n. intros n. revert pos s cap.
    induction n as [|n IHn]; intros pos s cap; cbn [star_lazy];
      [reflexivity|].
    rewrite (rmatch_ext r1 pos s cap _ (fun _ _ _ => None)); [apply IH1|].
    intros pos1 s1 cap1 _. simpl.
    destruct (pos <? pos1)%nat; [apply IHn | reflexivity].
  - apply IH1.
  - now destruct s.
Qed.

(** On an input of at most [n] code units, one more iteration allowed
    changes nothing: the bound [length s] that [rmatch] gives to a star
    never cuts a match short. *)
Lemma star_greedy_bound (r : regex) (k : continuation) :
  forall n pos s cap,
    (length s <= n)%nat ->
    star_greedy (rmatch r) k (S n) pos s cap
    = star_greedy (rmatch r) k n pos s cap.
Proof.
  induction n as [|n IHn]; intros pos s cap Hlen.
  - cbn [star_greedy].
    rewrite (rmatch_ext r pos s cap _ (fun _ _ _ => None));
      [now rewrite rmatch_fails|].
    intros pos1 s1 cap1 H1. simpl.
    destruct (Nat.ltb_spec pos pos1); [lia | reflexivity].
  - change (star_greedy (rmatch r) k (S (S n)) pos s cap)
      with (match
              rmatch r pos s cap
                (fun pos' s' cap' =>
                   if (pos <? pos')%nat
                   then star_greedy (rmatch r) k (S n) pos' s' cap'
                   else None)
            with
            | Some st => Some st
            | None => k pos s cap
            end).
    change (star_greedy (rmatch r) k (S n) pos s cap)
      with (match
              rmatch r pos s cap
                (fun pos' s' cap' =>
                   if (pos <? pos')%nat
                   then star_greedy (rmatch r) k n pos' s' cap'
                   else None)
            with
            | Some st => Some st
            | None => k pos s cap
            end).
    erewrite rmatch_ext; [reflexivity|].
    intros pos1 s1 cap1 H1. simpl.
    destruct (Nat.ltb_spec pos pos1); [|reflexivity].
    apply IHn. lia.
Qed.

Lemma star_lazy_bound (r : regex) (k : continuation) :
  forall n pos s cap,
    (length s <= n)%nat ->
    star_lazy (rmatch r) k (S n) pos s cap
    = star_lazy (rmatch r) k n pos s cap.
Proof.
  induction n as [|n IHn]; intros pos s cap Hlen.
  - cbn [star_lazy]. destruct (k pos s cap); [reflexivity|].
    rewrite (rmatch_ext r pos s cap _ (fun _ _ _ => None));
      [apply rmatch_fails|].
    intros pos1 s1 cap1 H1. simpl.
    destruct (Nat.ltb_spec pos pos1); [lia|].
    reflexivity.
  - change (star_lazy (rmatch r) k (S (S n)) pos s cap)
      with (match k pos s cap with
            | Some st => Some st
            | None =>
                rmatch r pos s cap
                  (fun pos' s' cap' =>
                     if (pos <? pos')%nat
                     then star_lazy (rmatch r) k (S n) pos' s' cap'
                     else None)
            end).
    change (star_lazy (rmatch r) k (S n) pos s cap)
      with (match k pos s cap with
            | Some st => Some st
            | None =>
                rmatch r pos s cap
                  (fun pos' s' cap' =>
                     if (pos <? pos')%nat
                     then star_lazy (rmatch r) k n pos' s' cap'
                     else None)
            end).
    destruct (k pos s cap); [reflexivity|].
    apply rmatch_ext.
    intros pos1 s1 cap1 H1. simpl.
    destruct (Nat.ltb_spec pos pos1); [|reflexivity].
    apply IHn. lia.
Qed.

(** Any bound from [length s] on gives the match of [rmatch]. *)
Lemma star_bound_is_enough (r : regex) (k : continuation) (extra : nat) :
  forall pos s cap,
    star_greedy (rmatch r) k (length s + extra) pos s cap
    = rmatch (Star r) pos s cap k
    /\ star_lazy (rmatch r) k (length s + extra) pos s cap
       = rmatch (LazyStar r) pos s cap k.
Proof.
  intros pos s cap. cbn [rmatch].
  induction extra as [|extra [IHg IHl]].
  - now rewrite Nat.add_0_r.
  - rewrite Nat.add_succ_r. split.
    + rewrite star_greedy_bound by lia. exact IHg.
    + rewrite star_lazy_bound by lia. exact IHl.
Qed.

(** *** Code units that a transformation keeps *)

(** What the string operations of the source return is made of code units
    of their arguments: a property of all the code units of the arguments
    holds of all the code units of the result. *)
Section Kept.

Variable P : code_unit -> Prop.

Lemma kept_firstn (n : nat) (s : jsstring) :
  Forall P s -> Forall P (firstn n s).
Proof.
  intros H. rewrite <- (firstn_skipn n s) in H.
  apply Forall_app in H. tauto.
Qed.

Lemma kept_skipn (n : nat) (s : jsstring) :
  Forall P s -> Forall P (skipn n s).
Proof.
  intros H. rewrite <- (firstn_skipn n s) in H.
  apply Forall_app in H. tauto.
Qed.

Ltac found := do 3 eexists; repeat split; eassumption.




Lemma get_substitution_kept (matched before after templ : jsstring) :
  Forall P matched -> Forall P before -> Forall P after -> Forall P templ ->
  Forall P (get_substitution matched before after templ).
Proof.
  intros Hm Hb Ha.
  assert (Hgen : forall n templ, (length templ <= n)%nat -> Forall P templ ->
                   Forall P (get_substitution matched before after templ)).
  { induction n as [|n IH]; intros t Hlen Ht.
    - destruct t; [constructor | simpl in Hlen; lia].
    - destruct t as [|c t]; [constructor|].
      assert (Hc : P c) by now inversion Ht.
      assert (Ht' : Forall P t) by now inversion Ht.
      assert (Hrec : Forall P (get_substitution matched before after t))
        by (apply IH; [simpl in Hlen; lia | assumption]).
      cbn [get_substitution]. destruct (N.eqb_spec c 36) as [->|Hne].
      + destruct t as [|d t']; [now constructor|].
        assert (Ht'' : Forall P t') by now inversion Ht'.
        assert (Hrec' : Forall P (get_substitution matched before after t'))
          by (apply IH; [simpl in Hlen; lia | assumption]).
        destruct (d =? 36); [now constructor|].
        destruct (d =? 38); [now apply Forall_app|].
        destruct (d =? 96); [now apply Forall_app|].
        destruct (d =? 39); [now apply Forall_app|].
        now constructor.
      + now constructor. }
  intros Ht. exact (Hgen (length templ) templ (le_n _) Ht).
Qed.

Lemma replace_str_kept (r : regex) (repl : jsstring) :
  Forall P repl ->
  forall s skip before_rev,
    Forall P s -> Forall P before_rev ->
    Forall P (replace_str_go r repl skip before_rev s).
Proof.
  intros Hrepl. induction s as [|c s IH]; intros skip before_rev Hs Hb.
  - simpl. destruct skip; [|constructor].
    destruct (exec r []); [|constructor].
    apply get_substitution_kept;
      [constructor | now apply Forall_rev | constructor | assumption].
  - assert (Hs' : Forall P s) by now inversion Hs.
    assert (Hc : P c) by now inversion Hs.
    assert (Hb' : Forall P (c :: before_rev)) by now constructor.
    cbn [replace_str_go]. destruct skip as [|skip]; [|now apply IH].
    destruct (exec r (c :: s)) as [[[|n] cap]|].
    + apply Forall_app. split.
      * apply get_substitution_kept;
          [constructor | now apply Forall_rev | assumption | assumption].
      * constructor; [assumption | now apply IH].
    + apply Forall_app. split.
      * apply get_substitution_kept;
          [now apply kept_firstn | now apply Forall_rev
           | now apply kept_skipn | assumption].
      * now apply IH.
    + constructor; [assumption | now apply IH].
Qed.

Lemma split_kept (sep : jsstring) :
  forall s skip, Forall P s -> Forall (Forall P) (split_go sep skip s).
Proof.
  induction s as [|c s IH]; intros skip Hs.
  - repeat constructor.
  - assert (Hs' : Forall P s) by now inversion Hs.
    assert (Hc : P c) by now inversion Hs.
    cbn [split_go]. destruct skip as [|skip]; [|now apply IH].
    destruct (starts_with sep (c :: s)).
    + constructor; [constructor | now apply IH].
    + pose proof (IH O Hs') as Hrec.
      destruct (split_go sep O s) as [|piece pieces].
      * constructor; [|constructor].
        constructor; [assumption | constructor].
      * inversion Hrec; subst. constructor; [|assumption].
        constructor; assumption.
Qed.

Lemma drop_space_kept (s : jsstring) :
  Forall P s -> Forall P (drop_space s).
Proof.
  induction 1 as [|c s Hc Hs IH]; simpl; [constructor|].
  destruct (is_space c); [assumption | now constructor].
Qed.

Lemma trim_kept (s : jsstring) : Forall P s -> Forall P (trim s).
Proof.
  intros H. unfold trim.
  apply Forall_rev, drop_space_kept, Forall_rev, drop_space_kept, H.
Qed.

End Kept.

(** *** C1: the cartesian product of selector lists *)

Lemma pairs_pushed {A B : Type} (a : A) (br : list B) (res : list (A * B)) :
  fold_left (fun res b => res ++ [(a, b)]) br res = res ++ map (pair a) br.
Proof.
  revert res. induction br as [|b br IH]; intros res; simpl.
  - now rewrite app_nil_r.
  - rewrite IH, <- app_assoc. reflexivity.
Qed.

Lemma arrayDiallel_from {A B : Type} (ar : list A) (br : list B)
    (res : list (A * B)) :
  fold_left (fun res a => fold_left (fun res b => res ++ [(a, b)]) br res)
    ar res
  = res ++ list_prod ar br.
Proof.
  revert res. induction ar as [|a ar IH]; intros res; simpl.
  - now rewrite app_nil_r.
  - rewrite IH, pairs_pushed, <- app_assoc. reflexivity.
Qed.

(** The loops of [arrayDiallel] build the cartesian product, in the order of
    the first list and then of the second. *)
Lemma arrayDiallel_list_prod {A B : Type} (ar : list A) (br : list B) :
  arrayDiallel ar br = list_prod ar br.
Proof. unfold arrayDiallel. now rewrite arrayDiallel_from. Qed.

Lemma starts_with_comma (c : code_unit) (s : jsstring) :
  starts_with [44] (c :: s) = (44 =? c).
Proof. simpl. apply andb_true_r. Qed.

Lemma split_comma_pieces (s : jsstring) :
  Forall (Forall not_comma) (split [44] s).
Proof.
  unfold split. induction s as [|c s IH]; [repeat constructor|].
  cbn [split_go]. rewrite starts_with_comma.
  destruct (N.eqb_spec 44 c) as [<-|Hne].
  - constructor; [constructor | exact IH].
  - destruct (split_go [44] O s) as [|piece pieces].
    + repeat constructor. intros E. now apply Hne.
    + inversion IH; subst. constructor; [|assumption].
      constructor; [|assumption]. intros E. now apply Hne.
Qed.

Lemma split_nonempty (sep s : jsstring) : split sep s <> [].
Proof.
  unfold split. generalize O as skip.
  induction s as [|c s IH]; intros skip; [discriminate|].
  cbn [split_go]. destruct skip; [|apply IH].
  destruct (starts_with sep (c :: s)); [discriminate|].
  destruct (split_go sep O s); discriminate.
Qed.

Lemma split_comma_piece (x : jsstring) :
  Forall not_comma x ->
  split [44] x = [x]
  /\ forall rest, split [44] (x ++ 44 :: rest) = x :: split [44] rest.
Proof.
  unfold split. induction 1 as [|c x Hc _ [IH1 IH2]].
  - split; [reflexivity|]. intros rest. reflexivity.
  - assert (Hne : (44 =? c) = false)
      by (apply N.eqb_neq; intros E; now apply Hc).
    split.
    + cbn [split_go]. now rewrite starts_with_comma, Hne, IH1.
    + intros rest. cbn [app split_go].
      now rewrite starts_with_comma, Hne, IH2.
Qed.

(** Joining with commas and splitting at commas gives the list back, when
    no element has a comma. *)
Lemma split_join_comma (l : list jsstring) :
  l <> [] -> Forall (Forall not_comma) l -> split [44] (join [44] l) = l.
Proof.
  intros Hne H. induction H as [|x l Hx Hl IH]; [contradiction|].
  destruct l as [|y l].
  - simpl. apply (split_comma_piece x Hx).
  - change (join [44] (x :: y :: l)) with (x ++ 44 :: join [44] (y :: l)).
    rewrite (proj2 (split_comma_piece x Hx)). f_equal.
    apply IH. discriminate.
Qed.

(** A composed selector has no comma when the two selectors have none. *)
Lemma concatPathSegment_no_comma (path seg : jsstring) :
  Forall not_comma path -> Forall not_comma seg ->
  Forall not_comma (concatPathSegment path seg).
Proof.
  intros Hpath Hseg. unfold concatPathSegment.
  destruct (includes (js "&") seg).
  - apply trim_kept. unfold replace_str.
    apply replace_str_kept; [assumption | assumption | constructor].
  - destruct (test re_word_at_end path && test_at_start re_selector_start seg).
    + apply Forall_app. split; [assumption|].
      apply Forall_app. split; [|assumption].
      repeat constructor. discriminate.
    + apply Forall_app. split; assumption.
Qed.

(** C1. Composing a comma-separated selector list [inputSeg] under a
    comma-separated list [srcPath] gives the full cartesian product: every
    alternative of the outer list is composed with every alternative of the
    inner list on its own, in that order, and the results are joined with
    commas; the alternatives of the result are these compositions and no
    other, as many as the product of the two lengths.  Flattening
    [.x,.y{ .a,.b{color:red;} }] under [.s] gives the four paths
    [.s .x .a], [.s .x .b], [.s .y .a], [.s .y .b] with the one
    declaration. *)
Theorem C1_cartesian_selector_expansion (srcPath inputSeg : jsstring) :
  let outer := split (js ",") srcPath in
  let inner := split (js ",") inputSeg in
  let composed :=
    map (fun z => concatPathSegment (fst z) (snd z)) (list_prod outer inner) in
  concatPathSegmentEx srcPath inputSeg = join (js ",") composed
  /\ split (js ",") (concatPathSegmentEx srcPath inputSeg) = composed
  /\ length composed = (length outer * length inner)%nat
  /\ (forall a b, In a outer -> In b inner ->
        In (concatPathSegment a b) composed)
  /\ extractNestedCss (js ".x,.y{ .a,.b{color:red;} }") (js ".s")
     = Ok (js ".s .x .a,.s .x .b,.s .y .a,.s .y .b{color:red;}")
  /\ split (js ",") (js ".s .x .a,.s .x .b,.s .y .a,.s .y .b")
     = [js ".s .x .a"; js ".s .x .b"; js ".s .y .a"; js ".s .y .b"].
Proof.
  intros outer inner composed.
  assert (Hjoin : concatPathSegmentEx srcPath inputSeg
                  = join (js ",") composed).
  { unfold concatPathSegmentEx. now rewrite arrayDiallel_list_prod. }
  assert (Hlen : length composed = (length outer * length inner)%nat).
  { unfold composed. rewrite length_map. apply length_prod. }
  split; [exact Hjoin|]. split; [|split; [exact Hlen|split; [|split]]].
  - rewrite Hjoin. change (js ",") with [44]. apply split_join_comma.
    + intros E. rewrite E in Hlen. simpl in Hlen. symmetry in Hlen.
      apply Nat.eq_mul_0 in Hlen as [H|H];
        apply length_zero_iff_nil in H;
        exact (split_nonempty _ _ H).
    + unfold composed. apply Forall_forall. intros p Hp.
      apply in_map_iff in Hp as [[a b] [<- Hab]].
      apply in_prod_iff in Hab as [Ha Hb]. simpl.
      pose proof (split_comma_pieces srcPath) as Ho.
      pose proof (split_comma_pieces inputSeg) as Hi.
      rewrite Forall_forall in Ho, Hi.
      apply concatPathSegment_no_comma; [now apply Ho | now apply Hi].
  - intros a b Ha Hb. unfold composed.
    change (concatPathSegment a b)
      with ((fun z => concatPathSegment (fst z) (snd z)) (a, b)).
    apply in_map. now apply in_prod.
  - vm_compute. reflexivity.
  - vm_compute. reflexivity.
Qed.

(** *** C2: the parent reference [&] *)

Lemma get_substitution_plain (matched before after templ : jsstring) :
  no_dollar templ = true ->
  get_substitution matched before after templ = templ.
Proof.
  induction templ as [|c t IH]; simpl; [reflexivity|].
  intros H. apply andb_prop in H as [Hc Ht].
  apply negb_true_iff in Hc. rewrite Hc. f_equal. now apply IH.
Qed.

Lemma exec_re_amp (c : code_unit) (s : jsstring) :
  exec re_amp (c :: s) = if 38 =? c then Some (1%nat, None) else None.
Proof. reflexivity. Qed.

Lemma replace_amp_plain (path seg before_rev : jsstring) :
  no_dollar path = true ->
  replace_str_go re_amp path O before_rev seg = replace_amp_exact path seg.
Proof.
  intros Hp. revert before_rev.
  induction seg as [|c seg IH]; intros before_rev; [reflexivity|].
  cbn [replace_str_go]. rewrite exec_re_amp.
  unfold replace_amp_exact. cbn [flat_map].
  rewrite (N.eqb_sym c 38).
  destruct (38 =? c).
  - rewrite get_substitution_plain by assumption.
    f_equal. apply IH.
  - cbn [app]. f_equal. apply IH.
Qed.

(** For a parent path without a dollar sign the code does what the
    specification says: every [&] of the segment becomes the path, and the
    result is trimmed. *)
Lemma concatPathSegment_amp_plain (path seg : jsstring) :
  includes (js "&") seg = true ->
  no_dollar path = true ->
  concatPathSegment path seg = trim (replace_amp_exact path seg).
Proof.
  intros Hinc Hp. unfold concatPathSegment. rewrite Hinc.
  unfold replace_str. now rewrite replace_amp_plain.
Qed.

(** A segment without [&] is joined to the path, with a space or without. *)
Lemma concatPathSegment_no_amp (path seg : jsstring) :
  includes (js "&") seg = false ->
  concatPathSegment path seg = path ++ js " " ++ seg
  \/ concatPathSegment path seg = path ++ seg.
Proof.
  intros Hinc. unfold concatPathSegment. rewrite Hinc.
  destruct (test re_word_at_end path && test_at_start re_selector_start seg);
    [now left | now right].
Qed.

(** C2. [.btn{ &:hover{color:blue;} }] gives the selector [.btn:hover], as
    the claim says.  But the parent path is handed to [replace] as a
    replacement string, in which [$'], [$`], [$&] and [$$] are patterns: for
    the parent path [.s a[data-v='$']] and the segment [&:hover] the code
    returns [.s a[data-v=':hover]:hover], where exact replacement of [&] by
    the path gives [.s a[data-v='$']:hover]. *)
Theorem C2_parent_reference_is_a_replacement_pattern :
  concatPathSegment (js ".btn") (js "&:hover") = js ".btn:hover"
  /\ concatPathSegment (js ".s a[data-v='$']") (js "&:hover")
     = js ".s a[data-v=':hover]:hover"
  /\ trim (replace_amp_exact (js ".s a[data-v='$']") (js "&:hover"))
     = js ".s a[data-v='$']:hover"
  /\ extractNestedCss (js "a[data-v='$']{&:hover{color:red;}}") (js ".s")
     = Ok (js ".s a[data-v=':hover]:hover{color:red;}").
Proof.
  split; [|split; [|split]]; vm_compute; reflexivity.
Qed.

(** *** C4: merging conditional group rules *)

Lemma indexOf_seen (pre rest : list jsstring) (x : jsstring) :
  In x pre ->
  exists i, indexOf jsstring_eqb (pre ++ rest) x = Some i /\ (i < length pre)%nat.
Proof.
  induction pre as [|y pre IH]; intros Hin; [contradiction|].
  simpl. destruct (jsstring_eqb y x) eqn:E.
  - exists O. split; [reflexivity | lia].
  - destruct Hin as [->|Hin]; [now rewrite jsstring_eqb_refl in E|].
    destruct (IH Hin) as [i [-> Hi]]. exists (S i). split; [reflexivity | lia].
Qed.

Lemma indexOf_first (pre rest : list jsstring) (x : jsstring) :
  ~ In x pre ->
  indexOf jsstring_eqb (pre ++ x :: rest) x = Some (length pre).
Proof.
  induction pre as [|y pre IH]; intros Hnin; simpl.
  - now rewrite jsstring_eqb_refl.
  - destruct (jsstring_eqb y x) eqn:E.
    + apply jsstring_eqb_eq in E. subst y. exfalso. apply Hnin. now left.
    + rewrite IH; [reflexivity|]. intros H. apply Hnin. now right.
Qed.

Lemma existsb_seen (x : jsstring) (seen : list jsstring) :
  existsb (jsstring_eqb x) seen = true <-> In x seen.
Proof.
  rewrite existsb_exists. split.
  - intros [y [Hy E]]. apply jsstring_eqb_eq in E. now subst y.
  - intros H. exists x. split; [assumption | apply jsstring_eqb_refl].
Qed.

Lemma unique_from (pre seen rest : list jsstring) :
  (forall x, In x seen <-> In x pre) ->
  filter_indexed
    (fun it index =>
       match indexOf jsstring_eqb (pre ++ rest) it with
       | Some i => Nat.eqb i index
       | None => false
       end)
    (length pre) rest
  = first_occurrences_from seen rest.
Proof.
  revert pre seen. induction rest as [|x rest IH]; intros pre seen Hseen;
    [reflexivity|].
  cbn [filter_indexed first_occurrences_from].
  assert (Hshift : pre ++ x :: rest = (pre ++ [x]) ++ rest)
    by now rewrite <- app_assoc.
  assert (Hlen : S (length pre) = length (pre ++ [x]))
    by (rewrite length_app; simpl; lia).
  destruct (existsb (jsstring_eqb x) seen) eqn:E.
  - apply existsb_seen in E. apply Hseen in E.
    destruct (indexOf_seen pre (x :: rest) x E) as [i [-> Hi]].
    replace (Nat.eqb i (length pre)) with false
      by (symmetry; apply Nat.eqb_neq; lia).
    rewrite Hshift, Hlen. apply IH.
    intros y. rewrite in_app_iff, <- Hseen. simpl.
    split; [tauto|]. intros [H|[<-|[]]]; [assumption | now apply Hseen].
  - assert (Hnin : ~ In x pre).
    { intros H. apply Hseen in H. apply existsb_seen in H. congruence. }
    rewrite indexOf_first by assumption. rewrite Nat.eqb_refl.
    f_equal. rewrite Hshift, Hlen. apply IH.
    intros y. rewrite in_app_iff, <- Hseen. simpl. tauto.
Qed.

(** [uniqueArrayItems] keeps the first occurrence of every item, in order. *)
Lemma uniqueArrayItems_first_occurrences (items : list jsstring) :
  uniqueArrayItems jsstring_eqb items = first_occurrences items.
Proof.
  unfold uniqueArrayItems, first_occurrences.
  apply (unique_from [] [] items). intros x. tauto.
Qed.

Lemma first_occurrences_from_spec (seen l : list jsstring) :
  NoDup (first_occurrences_from seen l)
  /\ forall x, In x (first_occurrences_from seen l) <-> In x l /\ ~ In x seen.
Proof.
  revert seen. induction l as [|y l IH]; intros seen; simpl.
  - split; [constructor | intros x; tauto].
  - destruct (existsb (jsstring_eqb y) seen) eqn:E.
    + destruct (IH seen) as [Hnd Hin]. split; [assumption|].
      apply existsb_seen in E.
      intros x. rewrite Hin. split; [tauto|].
      intros [[<-|H] Hn]; [contradiction | tauto].
    + destruct (IH (y :: seen)) as [Hnd Hin].
      assert (Hy : ~ In y seen).
      { intros H. apply existsb_seen in H. congruence. }
      split.
      * constructor; [|assumption]. rewrite Hin. simpl. tauto.
      * intros x. simpl. rewrite Hin. simpl.
        destruct (list_eq_dec N.eq_dec y x) as [<-|Hne]; tauto.
Qed.

Lemma strip_group_keyword (p : jsstring * jsstring) :
  group_keyword (fst p) ->
  remove_at_start re_group_rule_space (spec_text p) = snd p.
Proof.
  destruct p as [kw conds]. unfold spec_text. simpl fst. simpl snd.
  intros [-> | ->]; reflexivity.
Qed.

Lemma keyword_before_space (kw conds : jsstring) :
  group_keyword kw ->
  hd [] (split (js " ") (kw ++ js " " ++ conds)) = kw.
Proof. intros [-> | ->]; reflexivity. Qed.

Lemma conditions_of_specs (specs : list (jsstring * jsstring)) :
  Forall (fun p => group_keyword (fst p)) specs ->
  flat_map
    (fun mq =>
       map trim (split (js "and") (remove_at_start re_group_rule_space mq)))
    (map spec_text specs)
  = conditions specs.
Proof.
  induction 1 as [|p specs Hp _ IH]; [reflexivity|].
  cbn [map flat_map conditions]. rewrite strip_group_keyword by assumption.
  f_equal. apply IH.
Qed.

Lemma combineMediaQueries_cons (first : jsstring) (rest : list jsstring) :
  combineMediaQueries (first :: rest)
  = hd [] (split (js " ") first) ++ js " "
      ++ join (js " and ")
           (uniqueArrayItems jsstring_eqb
              (flat_map
                 (fun mq =>
                    map trim
                      (split (js "and")
                         (remove_at_start re_group_rule_space mq)))
                 (first :: rest))).
Proof. reflexivity. Qed.

(** For group-rule specs each of which is an at-rule keyword ([@media] or
    [@container]), one space and condition text, the merge is what it is
    meant to be: the keyword is stripped from each, the condition text is
    split on [and] and each condition trimmed, duplicates are removed
    keeping the order of first occurrence, the conditions are rejoined with
    [and] and the keyword of the first spec is put in front. *)
Lemma combineMediaQueries_keyword_and_space (keyword conds : jsstring)
    (more : list (jsstring * jsstring)) :
  group_keyword keyword ->
  Forall (fun p => group_keyword (fst p)) more ->
  let specs := (keyword, conds) :: more in
  let merged := first_occurrences (conditions specs) in
  combineMediaQueries (map spec_text specs)
  = keyword ++ js " " ++ join (js " and ") merged
  /\ NoDup merged
  /\ (forall c, In c merged <-> In c (conditions specs))
  /\ combineMediaQueries
       [js "@media (min-width:600px) and (color)";
        js "@media (color) and (min-width:600px)"]
     = js "@media (min-width:600px) and (color)".
Proof.
  intros Hkw Hmore specs merged.
  assert (Hspecs : Forall (fun p => group_keyword (fst p)) specs)
    by (constructor; assumption).
  split; [|split; [|split]].
  - change (map spec_text specs)
      with (spec_text (keyword, conds) :: map spec_text more).
    rewrite combineMediaQueries_cons.
    change (spec_text (keyword, conds) :: map spec_text more)
      with (map spec_text specs).
    rewrite conditions_of_specs by assumption.
    rewrite uniqueArrayItems_first_occurrences.
    unfold spec_text at 1. cbn [fst snd].
    now rewrite keyword_before_space.
  - apply (first_occurrences_from_spec [] (conditions specs)).
  - intros c. unfold merged, first_occurrences.
    destruct (first_occurrences_from_spec [] (conditions specs)) as [_ H].
    rewrite H. simpl. tauto.
  - vm_compute. reflexivity.
Qed.

(** The split is at every occurrence of the three code units [and], also
    inside a word: the pieces of [(orientation:landscape)] are
    [(orientation:l] and [scape)]. *)
Lemma combineMediaQueries_and_inside_a_word :
  conditions [(js "@media", js "(orientation:landscape)")]
  = [js "(orientation:l"; js "scape)"]
  /\ combineMediaQueries [js "@media (orientation:landscape)"]
     = js "@media (orientation:l and scape)".
Proof. split; vm_compute; reflexivity. Qed.

Lemma combineMediaQueries_keyword_and_space_example :
  combineMediaQueries
    (map spec_text
       [(js "@media", js "(min-width:600px) and (color)");
        (js "@media", js "(color) and (min-width:600px)")])
  = js "@media" ++ js " "
      ++ join (js " and ")
           (first_occurrences
              (conditions
                 [(js "@media", js "(min-width:600px) and (color)");
                  (js "@media", js "(color) and (min-width:600px)")])).
Proof.
  apply (@combineMediaQueries_keyword_and_space (js "@media")
           (js "(min-width:600px) and (color)")
           [(js "@media", js "(color) and (min-width:600px)")]).
  - left. reflexivity.
  - constructor; [left; reflexivity | constructor].
Qed.

(** C4. [prepareCssSlot] takes every narrower that begins with [@media] or
    [@container] for a conditional group rule ([/^(@media|@container)/]),
    but [combineMediaQueries] strips the keyword only when white space
    follows it ([/^(@media|@container)\s/]) and takes the text before the
    first space of the first spec for the keyword.  The two specs of the
    claim, written with the space, merge as the claim says.  Written
    without the space, as in [@media(min-width:600px) and (color)], no
    keyword is stripped, [@media(min-width:600px)] is taken for the keyword
    of the first spec, and the conditions [@media(min-width:600px)] and
    [(min-width:600px)], and [@media(color)] and [(color)], are not found
    equal: the merged spec names the keyword three times and lists every
    condition twice. *)
Theorem C4_keyword_without_space_is_not_stripped :
  combineMediaQueries
    [js "@media (min-width:600px) and (color)";
     js "@media (color) and (min-width:600px)"]
  = js "@media (min-width:600px) and (color)"
  /\ test_at_start re_group_rule (js "@media(min-width:600px) and (color)")
     = true
  /\ remove_at_start re_group_rule_space
       (js "@media(min-width:600px) and (color)")
     = js "@media(min-width:600px) and (color)"
  /\ combineMediaQueries
       [js "@media(min-width:600px) and (color)";
        js "@media(color) and (min-width:600px)"]
     = js "@media(min-width:600px) @media(min-width:600px) and (color) and @media(color) and (min-width:600px)"
  /\ extractNestedCss
       (js "@media(min-width:600px) and (color){ @media(color) and (min-width:600px){ color:red; } }")
       (js ".s")
     = Ok (js "@media(min-width:600px) @media(min-width:600px) and (color) and @media(color) and (min-width:600px){"
             ++ [10] ++ js "  .s{color:red;}" ++ [10] ++ js "}")
  /\ extractNestedCss
       (js "@media (min-width:600px) and (color){ @media (color) and (min-width:600px){ color:red; } }")
       (js ".s")
     = Ok (js "@media (min-width:600px) and (color){"
             ++ [10] ++ js "  .s{color:red;}" ++ [10] ++ js "}").
Proof.
  split; [|split; [|split; [|split; [|split]]]]; vm_compute; reflexivity.
Qed.

(** *** C5: a keyframe narrower is the whole group rule spec *)

Lemma findIndex_first {T : Type} (p : T -> bool) (outer inner : list T)
    (x : T) :
  Forall (fun it => p it = false) outer ->
  p x = true ->
  findIndex p (outer ++ x :: inner) = Some (length outer).
Proof.
  intros Houter Hx. induction Houter as [|y outer Hy _ IH]; simpl.
  - now rewrite Hx.
  - now rewrite Hy, IH.
Qed.

Lemma findIndex_none {T : Type} (p : T -> bool) (l : list T) :
  Forall (fun it => p it = false) l -> findIndex p l = None.
Proof.
  induction 1 as [|y l Hy _ IH]; simpl; [reflexivity|].
  now rewrite Hy, IH.
Qed.

Lemma skipn_past {T : Type} (outer inner : list T) (x : T) :
  skipn (length outer + 1) (outer ++ x :: inner) = inner.
Proof. induction outer as [|y outer IH]; simpl; [reflexivity | exact IH]. Qed.

Lemma resolve_keyframe (outer inner : list jsstring) (keyframe : jsstring) :
  Forall (fun it => is_keyframe it = false) outer ->
  is_keyframe keyframe = true ->
  resolve (outer ++ keyframe :: inner) = (combineSelectorPaths inner, keyframe).
Proof.
  intros Houter Hkf. unfold resolve.
  rewrite (findIndex_first (starts_with (js "@keyframes")) outer inner
             keyframe Houter Hkf).
  now rewrite nth_middle, skipn_past.
Qed.

(** C5. When some narrower of the stack begins with [@keyframes], the first
    such narrower is the whole group rule spec, and the selector path is
    composed from the narrowers nested inside it alone: whatever stands
    outside it, selectors or [@media]/[@container] narrowers, has no part in
    the key.  The merge of conditional groups is what a stack without a
    keyframe narrower gets.  A keyframe block nested in a selector inside a
    media query is rendered under its own name, with the selector [from]. *)
Theorem C5_keyframe_takes_precedence (outer inner : list jsstring)
    (keyframe : jsstring) (slots : obj CssSlot) :
  Forall (fun it => is_keyframe it = false) outer ->
  is_keyframe keyframe = true ->
  resolve (outer ++ keyframe :: inner) = (combineSelectorPaths inner, keyframe)
  /\ fst (prepareCssSlot (outer ++ keyframe :: inner) slots)
     = keyframe ++ template_text (combineSelectorPaths inner)
  /\ resolve (outer ++ keyframe :: inner) = resolve (keyframe :: inner)
  /\ resolve outer
     = (combineSelectorPaths
          (filter (fun it => negb (test_at_start re_group_rule it)) outer),
        combineMediaQueries
          (filter (fun it => test_at_start re_group_rule it) outer))
  /\ extractNestedCss
       (js "@media (min-width:600px){ .box{ @keyframes spin{ from{opacity:0;} } } }")
       (js ".s")
     = Ok (js "@keyframes s_spin{" ++ [10] ++ js "  from{opacity:0;}"
             ++ [10] ++ js "}").
Proof.
  intros Houter Hkf.
  pose proof (resolve_keyframe outer inner keyframe Houter Hkf) as Hres.
  split; [exact Hres|]. split; [|split; [|split]].
  - unfold prepareCssSlot. rewrite Hres.
    destruct (get slots (keyframe ++ template_text (combineSelectorPaths inner)));
      reflexivity.
  - rewrite Hres. symmetry.
    apply (resolve_keyframe [] inner keyframe); [constructor | assumption].
  - unfold resolve.
    now rewrite (findIndex_none (starts_with (js "@keyframes")) outer Houter).
  - vm_compute. reflexivity.
Qed.

Lemma C5_keyframe_takes_precedence_witness :
  resolve ([js ".s"; js "@media (min-width:600px)"; js ".box"]
             ++ js "@keyframes spin" :: [js "from"])
  = (combineSelectorPaths [js "from"], js "@keyframes spin").
Proof.
  apply (@C5_keyframe_takes_precedence
           [js ".s"; js "@media (min-width:600px)"; js ".box"]
           [js "from"] (js "@keyframes spin") []).
  - repeat constructor.
  - reflexivity.
Defined.

(** *** C7: what an interpolated value contributes *)

Section InterpolatorProperties.

Variable inherited_text : jsstring -> jsstring.
Variable map : option (obj jsstring).



Lemma contribution_throws (v : value) :
  toString_throws v = true ->
  contribution inherited_text map v = TypeError.
Proof.
  destruct v as [s|n|b| | |[text|]]; try discriminate. reflexivity.
Qed.



End InterpolatorProperties.




(** *** Records and the scan *)

Section ObjectLemmas.

Context {V : Type}.

Lemma get_own_set_same (o : obj V) (k : jsstring) (v : V) :
  get_own (set o k v) k = Some v.
Proof.
  induction o as [|[k' v'] o IH]; simpl.
  - now rewrite jsstring_eqb_refl.
  - destruct (jsstring_eqb k' k) eqn:E; simpl; rewrite E; [reflexivity | exact IH].
Qed.

Lemma set_set (o : obj V) (k : jsstring) (v v' : V) :
  set (set o k v) k v' = set o k v'.
Proof.
  induction o as [|[k' v0] o IH]; simpl.
  - now rewrite jsstring_eqb_refl.
  - destruct (jsstring_eqb k' k) eqn:E; simpl; rewrite E; [reflexivity|].
    now rewrite IH.
Qed.

Lemma set_same (o : obj V) (k : jsstring) (v : V) :
  get_own o k = Some v -> set o k v = o.
Proof.
  induction o as [|[k' v0] o IH]; simpl; [discriminate|].
  destruct (jsstring_eqb k' k) eqn:E.
  - intros H. injection H as ->. reflexivity.
  - intros H. now rewrite IH.
Qed.

Lemma get_own_in (o : obj V) (k : jsstring) (v : V) :
  get_own o k = Some v -> In (k, v) o.
Proof.
  induction o as [|[k' v0] o IH]; simpl; [discriminate|].
  destruct (jsstring_eqb k' k) eqn:E.
  - intros H. injection H as ->. apply jsstring_eqb_eq in E. subst k'. now left.
  - intros H. right. now apply IH.
Qed.

Lemma set_forall (P : jsstring * V -> Prop) (o : obj V) (k : jsstring) (v : V) :
  Forall P o -> (forall k', k' = k -> P (k', v)) -> Forall P (set o k v).
Proof.
  intros Ho Hv. induction Ho as [|[k' v0] o Hkv Ho IH]; simpl.
  - constructor; [now apply Hv | constructor].
  - destruct (jsstring_eqb k' k) eqn:E.
    + constructor; [|assumption]. apply Hv. now apply jsstring_eqb_eq.
    + constructor; assumption.
Qed.

Lemma entries_in (o : obj V) (kv : jsstring * V) :
  In kv (entries o) -> In kv o.
Proof.
  unfold entries. rewrite in_app_iff. intros [H|H].
  - apply in_map_iff in H as [[n kv'] [E Hin]]. simpl in E. subst kv'.
    revert n Hin. induction o as [|kv0 o IH]; intros n Hin; [contradiction|].
    simpl in Hin. destruct (array_index (fst kv0)) as [m|].
    + assert (Hins : forall l, In (n, kv) (insert_by_index m kv0 l) ->
                       kv = kv0 \/ In (n, kv) l).
      { induction l as [|[m' kv'] l IHl]; simpl.
        - intros [E|[]]. left. congruence.
        - destruct (m <? m'); simpl.
          + intros [E|[E|H]]; [left; congruence | right; now left
                                | right; now right].
          + intros [E|H]; [right; now left|].
            destruct (IHl H) as [E|H']; [now left | right; now right]. }
      destruct (Hins _ Hin) as [E|H']; [left; congruence | right; eauto].
    + right. eauto.
  - apply filter_In in H. tauto.
Qed.

Lemma entries_single (k : jsstring) (v : V) : entries [(k, v)] = [(k, v)].
Proof.
  unfold entries. simpl. destruct (array_index k); reflexivity.
Qed.

End ObjectLemmas.

Lemma findIndex_some {T : Type} (p : T -> bool) (l : list T) (i : nat) (d : T) :
  findIndex p l = Some i -> p (nth i l d) = true.
Proof.
  revert i. induction l as [|x l IH]; intros i; simpl; [discriminate|].
  destruct (p x) eqn:E.
  - intros H. injection H as <-. exact E.
  - destruct (findIndex p l) as [j|]; [|discriminate].
    intros H. injection H as <-. now apply IH.
Qed.

Lemma group_rule_begins_with_at (it : jsstring) :
  test_at_start re_group_rule it = true -> exists x, it = 64 :: x.
Proof.
  destruct it as [|c it]; [discriminate|].
  destruct (N.eqb_spec 64 c) as [<-|Hne]; [now exists it|].
  unfold test_at_start, exec. cbn -[N.eqb].
  apply N.eqb_neq in Hne. rewrite Hne. discriminate.
Qed.

Lemma split_first_piece (sep : jsstring) (c : code_unit) (s : jsstring) :
  starts_with sep (c :: s) = false ->
  exists piece, hd [] (split sep (c :: s)) = c :: piece.
Proof.
  intros H. unfold split. cbn [split_go]. rewrite H.
  destruct (split_go sep O s) as [|piece pieces]; simpl; eauto.
Qed.

Lemma combineMediaQueries_shape (specs : list jsstring) :
  Forall (fun it => test_at_start re_group_rule it = true) specs ->
  group_spec_shape (combineMediaQueries specs).
Proof.
  intros H. destruct H as [|first rest Hfirst _]; [now left|].
  right. rewrite combineMediaQueries_cons.
  destruct (group_rule_begins_with_at first Hfirst) as [x ->].
  destruct (split_first_piece (js " ") 64 x eq_refl) as [piece Hpiece].
  unfold jsstring, code_unit in *. rewrite Hpiece.
  simpl. eauto.
Qed.

(** The group rule spec of any stack is empty or begins with [@]. *)
Lemma resolve_shape (stack : list jsstring) :
  group_spec_shape (snd (resolve stack)).
Proof.
  unfold resolve.
  destruct (findIndex (starts_with (js "@keyframes")) stack) as [i|] eqn:E.
  - simpl. apply (findIndex_some _ _ _ []) in E.
    apply starts_with_split in E as [rest Hrest]. right.
    exists (tl (js "@keyframes") ++ rest).
    unfold jsstring, code_unit in *. rewrite Hrest. reflexivity.
  - simpl. apply combineMediaQueries_shape.
    apply Forall_forall. intros it Hin. apply filter_In in Hin. tauto.
Qed.

Lemma prepareCssSlot_unfold (stack : list jsstring) (slots : obj CssSlot) :
  let sp := fst (resolve stack) in
  let g := snd (resolve stack) in
  let key := g ++ template_text sp in
  prepareCssSlot stack slots
  = (key, match get slots key with
          | Absent => set slots key (mkCssSlot sp g [])
          | _ => slots
          end).
Proof.
  unfold prepareCssSlot. destruct (resolve stack) as [sp g]. simpl.
  destruct (get slots (g ++ template_text sp)); reflexivity.
Qed.

Lemma prepareCssSlot_keyed (stack : list jsstring) (slots : obj CssSlot) :
  Forall slot_keyed slots ->
  Forall slot_keyed (snd (prepareCssSlot stack slots)).
Proof.
  intros H. rewrite prepareCssSlot_unfold. simpl.
  destruct (get slots _); try assumption.
  apply set_forall; [assumption|].
  intros k' ->. split; [reflexivity | apply resolve_shape].
Qed.

Lemma prepareCssSlot_empty (stack : list jsstring) (slots : obj CssSlot) :
  Forall slot_empty slots ->
  Forall slot_empty (snd (prepareCssSlot stack slots)).
Proof.
  intros H. rewrite prepareCssSlot_unfold. simpl.
  destruct (get slots _); try assumption.
  apply set_forall; [assumption|]. intros k' _. reflexivity.
Qed.

(** After [prepareCssSlot] the key names an own slot, unless it is the name
    of an inherited member. *)
Lemma prepareCssSlot_own (stack : list jsstring) (slots : obj CssSlot) :
  let key := fst (prepareCssSlot stack slots) in
  is_inherited key = false ->
  exists slot, get_own (snd (prepareCssSlot stack slots)) key = Some slot.
Proof.
  rewrite prepareCssSlot_unfold. simpl. intros Hinh.
  unfold get. destruct (get_own slots _) as [slot|] eqn:E.
  - exists slot. exact E.
  - rewrite Hinh. eexists. apply get_own_set_same.
Qed.

Lemma brace_line_false (line : jsstring) :
  is_brace_line line = false ->
  ends_with (js "{") line = false /\ ends_with (js "}") line = false.
Proof. unfold is_brace_line. apply orb_false_iff. Qed.

(** Declaration lines are pushed, in order, on the slot of the current key. *)
Lemma scan_declarations (decls : list jsstring) :
  Forall (fun line => is_brace_line line = false) decls ->
  forall (st : scan_state) (slot : CssSlot),
    get_own (cssSlots st) (slotKey st) = Some slot ->
    scan st decls
    = Ok (mkState (narrowers st) (slotKey st)
            (set (cssSlots st) (slotKey st) (with_lines slot decls))).
Proof.
  induction 1 as [|d decls Hd _ IH]; intros st slot Hslot.
  - simpl. unfold with_lines. rewrite app_nil_r.
    destruct slot as [sp g lines]. simpl.
    rewrite (set_same _ _ _ Hslot). now destruct st.
  - destruct (brace_line_false d Hd) as [Ho Hc].
    cbn [scan]. unfold scan_line. rewrite Ho, Hc.
    unfold get. rewrite Hslot. cbn [bind].
    rewrite (IH _ (with_lines slot [d])) by (simpl; apply get_own_set_same).
    simpl. rewrite set_set. unfold with_lines. simpl.
    now rewrite <- app_assoc.
Qed.

Lemma prune_empty (slots : obj CssSlot) :
  Forall slot_empty slots -> prune slots = [].
Proof.
  induction 1 as [|kv slots Hkv _ IH]; [reflexivity|].
  unfold prune. simpl. unfold slot_empty in Hkv. rewrite Hkv. exact IH.
Qed.

Lemma prune_set_single (slots : obj CssSlot) (k : jsstring) (v0 v : CssSlot) :
  Forall slot_empty slots ->
  get_own slots k = Some v0 ->
  cssLines v <> [] ->
  prune (set slots k v) = [(k, v)].
Proof.
  intros Hempty Hget Hv. induction Hempty as [|[k' v'] slots Hkv Hrest IH].
  - discriminate.
  - simpl in Hget. simpl. destruct (jsstring_eqb k' k) eqn:E.
    + apply jsstring_eqb_eq in E. subst k'.
      unfold prune. cbn [filter snd].
      destruct (cssLines v) eqn:El; [contradiction|]. simpl.
      f_equal. now apply prune_empty.
    + unfold prune. cbn [filter snd]. unfold slot_empty in Hkv. simpl in Hkv.
      rewrite Hkv. simpl. now apply IH.
Qed.

(** One slot outside any group rule is rendered as one block. *)
Lemma render_single (slot : CssSlot) (topClassName : jsstring) :
  groupRuleSpec slot = [] ->
  bind (render_text [slot]) (fun cssText =>
    Ok (rename_keyframes topClassName (collectKeyframeNames [slot]) cssText))
  = Ok (template_text (selectorPath slot) ++ js "{"
          ++ join (js " ") (cssLines slot) ++ js "}").
Proof.
  destruct slot as [sp g lines]. simpl. intros ->. reflexivity.
Qed.

Lemma flatten_lines_unfold (srcLines : list jsstring) (top : jsstring) :
  flatten_lines srcLines top
  = bind (scan (mkState [top] (fst (prepareCssSlot [top] []))
                  (snd (prepareCssSlot [top] []))) srcLines)
      (fun st =>
         bind (render_text (values (prune (cssSlots st)))) (fun cssText =>
           Ok (rename_keyframes (slice_from_1 top)
                 (collectKeyframeNames (values (prune (cssSlots st))))
                 cssText))).
Proof.
  unfold flatten_lines, scan_slots.
  destruct (prepareCssSlot [top] []) as [key0 slots0]. simpl.
  destruct (scan _ srcLines); reflexivity.
Qed.

Lemma scan_line_open (st : scan_state) (line : jsstring) :
  ends_with (js "{") line = true ->
  scan_line st line
  = Ok (mkState (narrowers st ++ [slice_drop_last line])
          (fst (prepareCssSlot (narrowers st ++ [slice_drop_last line])
                  (cssSlots st)))
          (snd (prepareCssSlot (narrowers st ++ [slice_drop_last line])
                  (cssSlots st)))).
Proof.
  intros H. unfold scan_line. rewrite H.
  destruct (prepareCssSlot _ (cssSlots st)); reflexivity.
Qed.

Lemma scan_line_close (st : scan_state) (line : jsstring) :
  ends_with (js "{") line = false ->
  ends_with (js "}") line = true ->
  scan_line st line
  = Ok (mkState (removelast (narrowers st))
          (fst (prepareCssSlot (removelast (narrowers st)) (cssSlots st)))
          (snd (prepareCssSlot (removelast (narrowers st)) (cssSlots st)))).
Proof.
  intros Ho Hc. unfold scan_line. rewrite Ho, Hc.
  destruct (prepareCssSlot _ (cssSlots st)); reflexivity.
Qed.

(** Lines that open or close a block add no declaration and do not throw. *)
Lemma scan_brace_lines (srcLines : list jsstring) :
  Forall (fun line => is_brace_line line = true) srcLines ->
  forall st : scan_state,
    Forall slot_empty (cssSlots st) ->
    exists st', scan st srcLines = Ok st' /\ Forall slot_empty (cssSlots st').
Proof.
  induction 1 as [|line srcLines Hline _ IH]; intros st Hst.
  - exists st. split; [reflexivity | assumption].
  - cbn [scan]. unfold is_brace_line in Hline.
    destruct (ends_with (js "{") line) eqn:Ho.
    + rewrite (scan_line_open st line Ho). cbn [bind].
      apply IH. simpl. now apply prepareCssSlot_empty.
    + simpl in Hline. rewrite (scan_line_close st line Ho Hline). cbn [bind].
      apply IH. simpl. now apply prepareCssSlot_empty.
Qed.

Lemma pruned_slots_have_lines (slots : obj CssSlot) :
  Forall (fun slot => cssLines slot <> []) (values (prune slots)).
Proof.
  apply Forall_forall. intros slot Hin.
  unfold values in Hin. apply in_map_iff in Hin as [[k v] [E Hin]].
  simpl in E. subst v. apply entries_in in Hin.
  unfold prune in Hin. apply filter_In in Hin as [_ H]. simpl in H.
  destruct (cssLines slot); [discriminate | discriminate].
Qed.

(** *** C6: slots without declarations are not rendered *)

(** C6. Every slot that reaches the rendering has at least one declaration
    line: the slots whose list is empty have been deleted before.  When no
    line of the input is a declaration, nothing is left and the output is
    the empty text, as for [.empty{ .inner{} }] under [.s]. *)
Theorem C6_empty_slots_are_pruned (srcLines : list jsstring) (top : jsstring) :
  (forall listSlots,
      scan_slots srcLines top = Ok listSlots ->
      Forall (fun slot => cssLines slot <> []) listSlots)
  /\ (Forall (fun line => is_brace_line line = true) srcLines ->
      flatten_lines srcLines top = Ok [])
  /\ extractNestedCss (js ".empty{ .inner{} }") (js ".s") = Ok [].
Proof.
  split; [|split].
  - intros listSlots. unfold scan_slots.
    destruct (prepareCssSlot [top] []) as [key0 slots0].
    destruct (scan _ srcLines) as [st|]; [|discriminate].
    simpl. intros H. injection H as <-. apply pruned_slots_have_lines.
  - intros Hlines. rewrite flatten_lines_unfold.
    destruct (scan_brace_lines srcLines Hlines
                (mkState [top] (fst (prepareCssSlot [top] []))
                   (snd (prepareCssSlot [top] []))))
      as [st' [-> Hempty]].
    + simpl. apply prepareCssSlot_empty. constructor.
    + cbn [bind]. rewrite (prune_empty _ Hempty). reflexivity.
  - vm_compute. reflexivity.
Qed.

Lemma C6_empty_slots_are_pruned_witness :
  flatten_lines [js ".empty{"; js ".inner{"; js "}"; js "}"] (js ".s") = Ok [].
Proof.
  apply (proj1 (proj2 (C6_empty_slots_are_pruned
                        [js ".empty{"; js ".inner{"; js "}"; js "}"]
                        (js ".s")))).
  repeat constructor.
Defined.

(** *** C10: a closing brace too many *)

Lemma undefined_key_slot (slots : obj CssSlot) (slot : CssSlot) :
  Forall slot_keyed slots ->
  get_own slots (js "undefined") = Some slot ->
  groupRuleSpec slot = []
  /\ template_text (selectorPath slot) = js "undefined".
Proof.
  intros Hkeyed Hget. apply get_own_in in Hget.
  rewrite Forall_forall in Hkeyed. destruct (Hkeyed _ Hget) as [Hkey Hshape].
  cbn [fst snd] in Hkey, Hshape.
  destruct Hshape as [Hg | [x Hg]]; rewrite Hg in Hkey.
  - split; [assumption | now symmetry].
  - discriminate.
Qed.

Lemma empty_slot_in (slots : obj CssSlot) (k : jsstring) (slot : CssSlot) :
  Forall slot_empty slots -> get_own slots k = Some slot -> cssLines slot = [].
Proof.
  intros Hempty Hget. apply get_own_in in Hget.
  rewrite Forall_forall in Hempty. exact (Hempty _ Hget).
Qed.

(** From a state with all slots empty, declaration lines end in the one
    slot of the current key, and that slot alone is rendered. *)
Lemma render_after_declarations (st : scan_state) (slot : CssSlot)
    (decls : list jsstring) (topClassName : jsstring) :
  Forall slot_empty (cssSlots st) ->
  get_own (cssSlots st) (slotKey st) = Some slot ->
  groupRuleSpec slot = [] ->
  decls <> [] ->
  Forall (fun line => is_brace_line line = false) decls ->
  bind (scan st decls)
    (fun st' =>
       bind (render_text (values (prune (cssSlots st')))) (fun cssText =>
         Ok (rename_keyframes topClassName
               (collectKeyframeNames (values (prune (cssSlots st'))))
               cssText)))
  = Ok (template_text (selectorPath slot) ++ js "{"
          ++ join (js " ") decls ++ js "}").
Proof.
  intros Hempty Hget Hg Hne Hdecls.
  rewrite (scan_declarations decls Hdecls st slot Hget). cbn [bind cssSlots].
  rewrite (prune_set_single (cssSlots st) (slotKey st) slot
             (with_lines slot decls) Hempty Hget).
  - unfold values. rewrite entries_single. cbn [List.map snd].
    rewrite render_single by exact Hg.
    simpl. now rewrite (empty_slot_in _ _ _ Hempty Hget).
  - simpl. rewrite (empty_slot_in _ _ _ Hempty Hget). exact Hne.
Qed.

(** C10. A closing line met while the stack holds the top selector alone
    pops that selector: the stack is empty, the selector path is
    [undefined] and the key is the text [undefined].  The declaration lines
    that follow are rendered in a block whose selector is [undefined],
    whatever the top selector; [}color:red;] under [.s] gives
    [undefined{color:red;}]. *)
Theorem C10_unmatched_close_pops_the_scope (top : jsstring)
    (decls : list jsstring) :
  decls <> [] ->
  Forall (fun line => is_brace_line line = false) decls ->
  (forall key slots,
      exists slots',
        scan_line (mkState [top] key slots) (js "}")
        = Ok (mkState [] (js "undefined") slots'))
  /\ resolve [] = (Undefined, [])
  /\ flatten_lines (js "}" :: decls) top
     = Ok (js "undefined{" ++ join (js " ") decls ++ js "}")
  /\ extractNestedCss (js "}color:red;") (js ".s")
     = Ok (js "undefined{color:red;}").
Proof.
  intros Hne Hdecls. split; [|split; [|split]].
  - intros key slots. eexists.
    rewrite (scan_line_close _ (js "}") eq_refl eq_refl).
    cbn [narrowers cssSlots removelast].
    rewrite (prepareCssSlot_unfold [] slots). reflexivity.
  - reflexivity.
  - rewrite flatten_lines_unfold. cbn [scan].
    rewrite (scan_line_close _ (js "}") eq_refl eq_refl). cbn [bind].
    set (slots0 := snd (prepareCssSlot [top] [])).
    assert (Hk0 : Forall slot_keyed slots0)
      by (apply prepareCssSlot_keyed; constructor).
    assert (He0 : Forall slot_empty slots0)
      by (apply prepareCssSlot_empty; constructor).
    cbn [narrowers cssSlots removelast].
    pose proof (prepareCssSlot_keyed [] slots0 Hk0) as Hk1.
    pose proof (prepareCssSlot_empty [] slots0 He0) as He1.
    assert (Hkey : fst (prepareCssSlot [] slots0) = js "undefined")
      by (rewrite prepareCssSlot_unfold; reflexivity).
    destruct (prepareCssSlot_own [] slots0) as [slot Hslot];
      [now rewrite Hkey|].
    rewrite Hkey in *.
    destruct (undefined_key_slot _ slot Hk1 Hslot) as [Hg Hpath].
    rewrite (render_after_declarations
               (mkState [] (js "undefined") (snd (prepareCssSlot [] slots0)))
               slot decls (slice_from_1 top) He1 Hslot Hg Hne Hdecls).
    now rewrite Hpath.
  - vm_compute. reflexivity.
Qed.

Lemma C10_unmatched_close_pops_the_scope_witness :
  flatten_lines (js "}" :: [js "color:red;"]) (js ".s")
  = Ok (js "undefined{" ++ join (js " ") [js "color:red;"] ++ js "}").
Proof.
  apply (proj1 (proj2 (proj2 (C10_unmatched_close_pops_the_scope (js ".s")
                                 [js "color:red;"]
                                 ltac:(discriminate)
                                 ltac:(repeat constructor))))).
Defined.

(** *** C9: input that is flat already *)









(** *** C3: keyframe names *)

Lemma replaceAll_go_before (pat repl s : jsstring) :
  no_dollar repl = true ->
  forall skip b b',
    replaceAll_go pat repl skip b s = replaceAll_go pat repl skip b' s.
Proof.
  intros Hrepl.
  induction s as [|c s IH]; intros skip b b'; cbn [replaceAll_go].
  - destruct pat; [|reflexivity].
    now rewrite !get_substitution_plain by exact Hrepl.
  - destruct skip as [|skip]; [|apply IH].
    destruct (starts_with pat (c :: s)).
    + destruct pat as [|p pat'];
        rewrite !get_substitution_plain by exact Hrepl;
        f_equal; [f_equal|]; apply IH.
    + f_equal. apply IH.
Qed.

Lemma replaceAll_go_skip (pat repl x rest : jsstring) :
  forall b,
    replaceAll_go pat repl (length x) b (x ++ rest)
    = replaceAll_go pat repl O (rev x ++ b) rest.
Proof.
  induction x as [|c x IH]; intros b; [reflexivity|].
  cbn [length app replaceAll_go]. rewrite IH.
  cbn [rev]. now rewrite <- app_assoc.
Qed.

Lemma includes_cons (pat : jsstring) (c : code_unit) (s : jsstring) :
  includes pat (c :: s) = starts_with pat (c :: s) || includes pat s.
Proof. reflexivity. Qed.

(** A text in which the pattern does not occur is left as it is. *)
Lemma replaceAll_absent (pat repl s : jsstring) :
  pat <> [] -> includes pat s = false -> replaceAll s pat repl = s.
Proof.
  intros Hpat. unfold replaceAll. generalize (@nil code_unit) as b.
  induction s as [|c s IH]; intros b H.
  - simpl. destruct pat; [contradiction | reflexivity].
  - rewrite includes_cons in H. apply orb_false_iff in H as [Hhere Hlater].
    cbn [replaceAll_go]. rewrite Hhere. f_equal. now apply IH.
Qed.

Lemma replaceAll_hit (p : code_unit) (pat' repl rest b : jsstring) :
  no_dollar repl = true ->
  replaceAll_go (p :: pat') repl O b ((p :: pat') ++ rest)
  = repl ++ replaceAll_go (p :: pat') repl O [] rest.
Proof.
  intros Hrepl. pose proof (starts_with_app (p :: pat') rest) as Hstart.
  cbn [app replaceAll_go]. cbn [app] in Hstart. rewrite Hstart.
  rewrite get_substitution_plain by exact Hrepl. f_equal.
  rewrite replaceAll_go_skip. now apply replaceAll_go_before.
Qed.

Lemma starts_with_long (p x y : jsstring) :
  starts_with p (x ++ y) = true -> (length p <= length x)%nat ->
  starts_with p x = true.
Proof.
  revert x. induction p as [|c p IH]; intros x H Hlen; [reflexivity|].
  destruct x as [|d x]; [simpl in Hlen; lia|].
  simpl in *. apply andb_prop in H as [Hc Hp]. rewrite Hc. simpl.
  apply IH; [assumption | lia].
Qed.

(** The first occurrence of the pattern is replaced, and the rest of the
    text is treated in the same way. *)
Lemma replaceAll_first (pat repl a rest : jsstring) :
  no_dollar repl = true ->
  pat <> [] ->
  includes pat (a ++ removelast pat) = false ->
  replaceAll (a ++ pat ++ rest) pat repl
  = a ++ repl ++ replaceAll rest pat repl.
Proof.
  intros Hrepl Hpat. unfold replaceAll. generalize (@nil code_unit) as b.
  induction a as [|c a IH]; intros b H.
  - destruct pat as [|p pat']; [contradiction|].
    rewrite !app_nil_l. rewrite replaceAll_hit by assumption.
    f_equal. now apply replaceAll_go_before.
  - cbn [app] in H. rewrite includes_cons in H.
    apply orb_false_iff in H as [Hhere Hlater].
    cbn [app replaceAll_go].
    assert (Hno : starts_with pat (c :: a ++ pat ++ rest) = false).
    { destruct (starts_with pat (c :: a ++ pat ++ rest)) eqn:E; [|reflexivity].
      rewrite <- Hhere. symmetry.
      apply (starts_with_long pat (c :: a ++ removelast pat)
               ([last pat 0] ++ rest)).
      - assert (Heq : removelast pat ++ [last pat 0] ++ rest = pat ++ rest).
        { rewrite app_assoc. f_equal. symmetry.
          now apply app_removelast_last. }
        rewrite <- app_comm_cons, <- app_assoc, Heq. exact E.
      - assert (Hlen : length pat = S (length (removelast pat))).
        { pose proof (f_equal (@length code_unit)
                        (app_removelast_last 0 Hpat)) as Hl.
          rewrite length_app in Hl. simpl in Hl.
          unfold jsstring, code_unit in *. lia. }
        cbn [length]. rewrite length_app.
        unfold jsstring, code_unit in *. lia. }
    rewrite Hno. f_equal. rewrite (IH (c :: b) Hlater).
    do 2 f_equal. now apply replaceAll_go_before.
Qed.

(** C3. The code prefixes the collected keyframe names one after the other,
    each by a [replaceAll] on the whole text produced so far.  For the one
    name [spin] under [.s] the declaration and the reference both read
    [s_spin], as the claim says.  With the keyframes [fade] and [fade-in]
    under [.s], the [replaceAll] for [fade] also hits the text [fade-in],
    which the [replaceAll] for [fade-in] then hits again inside
    [s_fade-in]: the declaration and the reference of [fade-in] read
    [s_s_fade-in], and neither [@keyframes s_fade-in] nor
    [animation-name:s_fade-in], which the claim promises, is in the
    output. *)
Theorem C3_name_inside_a_renamed_name :
  extractNestedCss
    (js "animation-name: spin; @keyframes spin{ from{ opacity:0; } to{ opacity:1; } }")
    (js ".s")
  = Ok (js ".s{animation-name:s_spin;}" ++ [10]
          ++ js "@keyframes s_spin{" ++ [10]
          ++ js "  from{opacity:0;}" ++ [10]
          ++ js "  to{opacity:1;}" ++ [10] ++ js "}")
  /\ collectKeyframeNames fade_slots = [js "fade"; js "fade-in"]
  /\ extractNestedCss
       (js "@keyframes fade{from{opacity:0;}} @keyframes fade-in{from{opacity:1;}} animation-name:fade-in;")
       (js ".s")
     = Ok fade_output
  /\ includes (js "@keyframes s_fade{") fade_output = true
  /\ includes (js "@keyframes s_fade-in{") fade_output = false
  /\ includes (js "animation-name:s_fade-in;") fade_output = false
  /\ includes (js "@keyframes s_s_fade-in{") fade_output = true
  /\ includes (js "animation-name:s_s_fade-in;") fade_output = true.
Proof.
  split; [|split; [|split; [|split; [|split; [|split; [|split]]]]]];
    vm_compute; reflexivity.
Qed.

(** *** C8: exceptions *)

(** C8. The scan throws on [}toString{color:red;}]: the closing line empties
    the stack, the opening line makes [toString] the key, which is the name
    of a member every object inherits, so that no slot is created for it;
    the declaration line then pushes on the [cssLines] of that member, which
    is [undefined].  The unmatched closing line alone does not throw. *)
Theorem C8_inherited_member_name_throws :
  extractNestedCss (js "}toString{color:red;}") (js ".s") = TypeError
  /\ transformCssBodyTextToNormalizedLines (js "}toString{color:red;}")
     = [js "}"; js "toString{"; js "color:red;"; js "}"]
  /\ fst (prepareCssSlot [js "toString"] []) = js "toString"
  /\ snd (prepareCssSlot [js "toString"] []) = []
  /\ get (@nil (jsstring * CssSlot)) (js "toString") = Inherited
  /\ extractNestedCss (js "}") (js ".s") = Ok [].
Proof.
  split; [|split; [|split; [|split; [|split]]]]; vm_compute; reflexivity.
Qed.

(** Where a flatten call can throw: nowhere but on a declaration line read
    while the current key has no slot of its own, which, a slot being
    created for every key but the inherited names, means that the key is
    the name of an inherited member. *)

Lemma scan_line_throws (st : scan_state) (line : jsstring) :
  scan_line st line = TypeError
  <-> is_brace_line line = false
      /\ get_own (cssSlots st) (slotKey st) = None.
Proof.
  unfold scan_line, is_brace_line.
  destruct (ends_with (js "{") line).
  - destruct (prepareCssSlot _ (cssSlots st)). simpl.
    split; [discriminate | intros [H _]; discriminate].
  - destruct (ends_with (js "}") line).
    + destruct (prepareCssSlot _ (cssSlots st)). simpl.
      split; [discriminate | intros [H _]; discriminate].
    + simpl. unfold get.
      destruct (get_own (cssSlots st) (slotKey st)) as [slot|].
      * split; [discriminate | intros [_ H]; discriminate].
      * destruct (is_inherited (slotKey st)); split; auto.
Qed.

Lemma shape_not_inherited (g : jsstring) :
  group_spec_shape g -> is_inherited g = false.
Proof. intros [-> | [x ->]]; reflexivity. Qed.

Lemma groupArrayItems_total (items : list CssSlot) :
  Forall (fun slot => group_spec_shape (groupRuleSpec slot)) items ->
  forall res : obj (list CssSlot),
    Forall (fun kv => snd kv <> []) res ->
    exists groups,
      fold_left
        (fun (acc : result (obj (list CssSlot))) item =>
           bind acc (fun res =>
             let key := groupRuleSpec item in
             match get res key with
             | Own group => Ok (set res key (group ++ [item]))
             | Absent => Ok (set res key [item])
             | Inherited => TypeError
             end))
        items (Ok res)
      = Ok groups
      /\ Forall (fun kv => snd kv <> []) groups.
Proof.
  induction 1 as [|item items Hitem _ IH]; intros res Hres.
  - exists res. split; [reflexivity | assumption].
  - cbn [fold_left bind]. unfold get.
    destruct (get_own res (groupRuleSpec item)) as [group|].
    + apply IH. apply set_forall; [assumption|].
      intros k' _. simpl. now destruct group.
    + rewrite (shape_not_inherited _ Hitem).
      apply IH. apply set_forall; [assumption|].
      intros k' _. discriminate.
Qed.

Lemma stringify_total (groups : list (list CssSlot)) :
  Forall (fun group => group <> []) groups ->
  exists blocks, map_result stringifyCssSlots groups = Ok blocks.
Proof.
  induction 1 as [|group groups Hgroup _ [blocks IH]].
  - now exists [].
  - destruct group as [|slot0 group]; [contradiction|].
    cbn [map_result]. rewrite IH. unfold stringifyCssSlots.
    destruct (groupRuleSpec slot0); simpl; eauto.
Qed.

(** The rendering of slots whose group rule specs are empty or begin with
    [@] does not throw. *)
Lemma render_text_total (listSlots : list CssSlot) :
  Forall (fun slot => group_spec_shape (groupRuleSpec slot)) listSlots ->
  exists cssText, render_text listSlots = Ok cssText.
Proof.
  intros H. unfold render_text.
  assert (Hgrouped : exists groups,
             groupArrayItems listSlots groupRuleSpec = Ok groups
             /\ Forall (fun kv => snd kv <> []) groups)
    by exact (groupArrayItems_total listSlots H [] (Forall_nil _)).
  destruct Hgrouped as [groups [-> Hgroups]].
  cbn [bind].
  destruct (stringify_total (values groups)) as [blocks ->].
  - apply Forall_forall. intros group Hin.
    unfold values in Hin. apply in_map_iff in Hin as [[k g] [E Hin]].
    simpl in E. subst g. apply entries_in in Hin.
    rewrite Forall_forall in Hgroups. exact (Hgroups _ Hin).
  - simpl. eauto.
Qed.

Lemma scan_line_keyed (st st' : scan_state) (line : jsstring) :
  Forall slot_keyed (cssSlots st) ->
  scan_line st line = Ok st' ->
  Forall slot_keyed (cssSlots st').
Proof.
  intros Hst. unfold scan_line.
  destruct (ends_with (js "{") line).
  - pose proof (prepareCssSlot_keyed
                  (narrowers st ++ [slice_drop_last line]) _ Hst) as Hk.
    destruct (prepareCssSlot _ (cssSlots st)). simpl in Hk.
    intros H. injection H as <-. exact Hk.
  - destruct (ends_with (js "}") line).
    + pose proof (prepareCssSlot_keyed (removelast (narrowers st)) _ Hst) as Hk.
      destruct (prepareCssSlot _ (cssSlots st)). simpl in Hk.
      intros H. injection H as <-. exact Hk.
    + unfold get.
      destruct (get_own (cssSlots st) (slotKey st)) as [slot|] eqn:E.
      * intros H. injection H as <-. simpl.
        apply set_forall; [assumption|]. intros k' ->.
        apply get_own_in in E. rewrite Forall_forall in Hst.
        exact (Hst _ E).
      * destruct (is_inherited (slotKey st)); discriminate.
Qed.

Lemma scan_keyed (srcLines : list jsstring) :
  forall st st',
    Forall slot_keyed (cssSlots st) ->
    scan st srcLines = Ok st' ->
    Forall slot_keyed (cssSlots st').
Proof.
  induction srcLines as [|line srcLines IH]; intros st st' Hst H.
  - injection H as <-. exact Hst.
  - cbn [scan] in H. destruct (scan_line st line) as [st1|] eqn:E;
      [|discriminate].
    exact (IH st1 st' (scan_line_keyed st st1 line Hst E) H).
Qed.

(** A flatten call that throws has thrown in the scan. *)
Lemma flatten_throws_in_scan (srcLines : list jsstring) (top : jsstring) :
  flatten_lines srcLines top = TypeError ->
  scan (mkState [top] (fst (prepareCssSlot [top] []))
          (snd (prepareCssSlot [top] []))) srcLines
  = TypeError.
Proof.
  rewrite flatten_lines_unfold.
  destruct (scan _ srcLines) as [st|] eqn:E; [|reflexivity].
  cbn [bind]. intros H. exfalso.
  assert (Hk : Forall slot_keyed (cssSlots st)).
  { apply (scan_keyed srcLines _ st) in E; [exact E|].
    apply prepareCssSlot_keyed. constructor. }
  destruct (render_text_total (values (prune (cssSlots st)))) as [t Ht].
  - apply Forall_forall. intros slot Hin.
    unfold values in Hin. apply in_map_iff in Hin as [[k v] [Ev Hin]].
    simpl in Ev. subst v. apply entries_in in Hin.
    unfold prune in Hin. apply filter_In in Hin as [Hin _].
    rewrite Forall_forall in Hk. exact (proj2 (Hk _ Hin)).
  - rewrite Ht in H. discriminate.
Qed.

(* ================================================================== *)
(** ** Further properties of the code *)
(* ================================================================== *)

(** *** The interpolation does not throw *)

Lemma contribution_total (inherited_text : jsstring -> jsstring)
    (map : option (obj jsstring)) (v : value) :
  toString_throws v = false ->
  exists added, contribution inherited_text map v = Ok added.
Proof.
  unfold contribution.
  destruct v as [s|n|b| | |[text|]]; simpl; eauto; try discriminate.
  - destruct (prior_source inherited_text map s); [eauto|].
    destruct s; eauto.
  - destruct b; eauto.
Qed.

Lemma interpolate_loop_total (inherited_text : jsstring -> jsstring)
    (map : option (obj jsstring)) (template : list jsstring)
    (values : list value) :
  Forall (fun v => toString_throws v = false) values ->
  forall i text,
  exists pieces,
    length pieces = length values
    /\ interpolate_loop inherited_text template map i values text
       = Ok (text
               ++ interleave
                    (List.map (template_at template)
                       (seq i (S (length values))))
                    pieces).
Proof.
  induction 1 as [|v values Hv _ IH]; intros i text.
  - exists []. split; reflexivity.
  - destruct (contribution_total inherited_text map v Hv) as [added Hadded].
    destruct (IH (S i) ((text ++ template_at template i) ++ added))
      as [pieces [Hlen Hloop]].
    exists (added :: pieces). split; [simpl; now rewrite Hlen|].
    cbn [interpolate_loop]. rewrite Hadded. cbn [bind]. rewrite Hloop.
    cbn [length seq List.map interleave].
    now rewrite <- !app_assoc.
Qed.

Lemma interpolate_loop_throws (inherited_text : jsstring -> jsstring)
    (map : option (obj jsstring)) (template : list jsstring)
    (values : list value) :
  Exists (fun v => toString_throws v = true) values ->
  forall i text,
    interpolate_loop inherited_text template map i values text = TypeError.
Proof.
  induction values as [|v values IH]; intros Hex i text;
    [inversion Hex|].
  cbn [interpolate_loop].
  destruct (toString_throws v) eqn:Hv.
  - now rewrite (contribution_throws inherited_text map v Hv).
  - destruct (contribution_total inherited_text map v Hv) as [added ->].
    cbn [bind]. apply IH.
    inversion Hex as [? ? H|? ? H]; subst; [congruence | exact H].
Qed.

(** The interpolation throws in one place only, the call of [toString] on
    an object that has none to call or whose [toString] throws.  For every
    template, every record of sources and every list of values without such
    an object ([null] and [undefined] may be among them) it returns a text:
    before the whitespace is normalized, the chunks [template[0]] to
    [template[values.length]], a chunk that the template does not have
    reading [undefined], with one piece after each but the last.  With such
    an object among the values it throws. *)
Theorem extractCssTemplate_throws_only_in_toString
    (inherited_text : jsstring -> jsstring) (map : option (obj jsstring))
    (template : list jsstring) (values : list value) :
  (Forall (fun v => toString_throws v = false) values ->
   exists pieces,
     length pieces = length values
     /\ extractCssTemplate inherited_text template values map
        = Ok (replace_str re_double_semicolon (js ";")
                (replace_fn re_around_special first_capture
                   (replace_str re_newline_run []
                      (interleave
                         (List.map (template_at template)
                            (seq 0 (S (length values))))
                         pieces)))))
  /\ (Exists (fun v => toString_throws v = true) values ->
      extractCssTemplate inherited_text template values map = TypeError).
Proof.
  split.
  - intros Hvalues.
    destruct (interpolate_loop_total inherited_text map template values
                Hvalues O []) as [pieces [Hlen Hloop]].
    exists pieces. split; [exact Hlen|].
    unfold extractCssTemplate. rewrite Hloop. reflexivity.
  - intros Hex. unfold extractCssTemplate.
    now rewrite (interpolate_loop_throws inherited_text map template values
                   Hex).
Qed.

Lemma extractCssTemplate_throws_only_in_toString_witness :
  (exists pieces,
     length pieces = 3%nat
     /\ extractCssTemplate (fun _ => []) [js "a{"; js ";"]
          [VNull; VUndefined; plain_object] None
        = Ok (replace_str re_double_semicolon (js ";")
                (replace_fn re_around_special first_capture
                   (replace_str re_newline_run []
                      (interleave
                         (List.map (template_at [js "a{"; js ";"])
                            (seq 0 4))
                         pieces)))))
  /\ extractCssTemplate (fun _ => []) [js "a{"; js ";"; js "}"]
       [VString (js "x:y"); VObject TypeError] None
     = TypeError.
Proof.
  split.
  - apply (proj1 (extractCssTemplate_throws_only_in_toString (fun _ => [])
                    None [js "a{"; js ";"]
                    [VNull; VUndefined; plain_object])).
    repeat constructor.
  - apply (proj2 (extractCssTemplate_throws_only_in_toString (fun _ => [])
                    None [js "a{"; js ";"; js "}"]
                    [VString (js "x:y"); VObject TypeError])).
    right. left. reflexivity.
Defined.

(** *** helpers.ts *)

Lemma nth_error_list_prod {A B : Type} (ar : list A) (br : list B) :
  forall i j a b,
    nth_error ar i = Some a ->
    nth_error br j = Some b ->
    nth_error (list_prod ar br) (i * length br + j) = Some (a, b).
Proof.
  induction ar as [|x ar IH]; intros i j a b Ha Hb.
  - destruct i; discriminate.
  - assert (Hj : (j < length br)%nat)
      by (apply nth_error_Some; congruence).
    cbn [list_prod]. destruct i as [|i].
    + injection Ha as ->. simpl.
      rewrite nth_error_app1 by (rewrite length_map; exact Hj).
      now apply map_nth_error.
    + simpl in Ha.
      rewrite nth_error_app2 by (rewrite length_map; simpl; lia).
      rewrite length_map.
      replace (S i * length br + j - length br)%nat
        with (i * length br + j)%nat by (simpl; lia).
      now apply IH.
Qed.

(** [arrayDiallel(ar, br)] has [ar.length * br.length] pairs, in the order
    of [ar] and, for one element of [ar], in the order of [br]: the pair of
    [ar[i]] and [br[j]] stands at index [i * br.length + j]. *)
Theorem arrayDiallel_row_major {A B : Type} (ar : list A) (br : list B)
    (i j : nat) (a : A) (b : B) :
  nth_error ar i = Some a ->
  nth_error br j = Some b ->
  nth_error (arrayDiallel ar br) (i * length br + j) = Some (a, b)
  /\ length (arrayDiallel ar br) = (length ar * length br)%nat.
Proof.
  intros Ha Hb. rewrite arrayDiallel_list_prod. split.
  - now apply nth_error_list_prod.
  - apply length_prod.
Qed.

Lemma arrayDiallel_row_major_witness :
  nth_error (arrayDiallel [js ".x"; js ".y"] [js ".a"; js ".b"; js ".c"])
    (1 * length [js ".a"; js ".b"; js ".c"] + 2)
  = Some (js ".y", js ".c").
Proof.
  apply (proj1 (arrayDiallel_row_major [js ".x"; js ".y"]
                  [js ".a"; js ".b"; js ".c"] 1 2 (js ".y") (js ".c")
                  eq_refl eq_refl)).
Defined.

Lemma first_occurrences_fixed (seen l : list jsstring) :
  NoDup l -> (forall x, In x l -> ~ In x seen) ->
  first_occurrences_from seen l = l.
Proof.
  intros Hnd. revert seen. induction Hnd as [|x l Hx Hnd IH]; intros seen Hs;
    [reflexivity|].
  cbn [first_occurrences_from].
  destruct (existsb (jsstring_eqb x) seen) eqn:E.
  - apply existsb_seen in E. exfalso. apply (Hs x); [now left | assumption].
  - f_equal. apply IH. intros y Hy [<-|Hin]; [contradiction|].
    apply (Hs y); [now right | assumption].
Qed.

(** [uniqueArrayItems] on strings: the result has no duplicates and the
    same members, a list without duplicates is returned as it is, and a
    second application changes nothing. *)
Theorem uniqueArrayItems_idempotent (items : list jsstring) :
  NoDup (uniqueArrayItems jsstring_eqb items)
  /\ (forall x, In x (uniqueArrayItems jsstring_eqb items) <-> In x items)
  /\ (NoDup items -> uniqueArrayItems jsstring_eqb items = items)
  /\ uniqueArrayItems jsstring_eqb (uniqueArrayItems jsstring_eqb items)
     = uniqueArrayItems jsstring_eqb items.
Proof.
  rewrite !uniqueArrayItems_first_occurrences.
  destruct (first_occurrences_from_spec [] items) as [Hnd Hin].
  assert (Hfix : forall l, NoDup l -> first_occurrences l = l).
  { intros l Hl. apply first_occurrences_fixed; [assumption|].
    intros x _ []. }
  split; [exact Hnd|]. split; [|split].
  - intros x. unfold first_occurrences. rewrite Hin. simpl. tauto.
  - apply Hfix.
  - apply Hfix. exact Hnd.
Qed.

Lemma get_own_set_other {V : Type} (o : obj V) (k k' : jsstring) (v : V) :
  k <> k' -> get_own (set o k v) k' = get_own o k'.
Proof.
  intros Hne. induction o as [|[k0 v0] o IH]; simpl.
  - destruct (jsstring_eqb k k') eqn:E; [|reflexivity].
    apply jsstring_eqb_eq in E. contradiction.
  - destruct (jsstring_eqb k0 k) eqn:E; simpl.
    + apply jsstring_eqb_eq in E. subst k0.
      destruct (jsstring_eqb k k') eqn:E'; [|reflexivity].
      apply jsstring_eqb_eq in E'. contradiction.
    + now rewrite IH.
Qed.

Lemma groupArrayItems_fold {T : Type} (items : list T)
    (keyFn : T -> jsstring) :
  groupArrayItems items keyFn = fold_left (group_step keyFn) items (Ok []).
Proof. reflexivity. Qed.

Lemma group_step_throws {T : Type} (keyFn : T -> jsstring) (items : list T) :
  fold_left (group_step keyFn) items TypeError = TypeError.
Proof. induction items as [|item items IH]; [reflexivity | exact IH]. Qed.

Lemma items_of_key_app {T : Type} (keyFn : T -> jsstring) (k : jsstring)
    (done : list T) (item : T) :
  items_of_key keyFn k (done ++ [item])
  = items_of_key keyFn k done
      ++ (if jsstring_eqb (keyFn item) k then [item] else []).
Proof. unfold items_of_key. now rewrite filter_app. Qed.

Section Grouping.

Context {T : Type}.
Variable keyFn : T -> jsstring.

Lemma grouped_step (res : obj (list T)) (done : list T) (item : T) :
  grouped keyFn res done ->
  is_inherited (keyFn item) = false ->
  exists res',
    group_step keyFn (Ok res) item = Ok res'
    /\ grouped keyFn res' (done ++ [item]).
Proof.
  intros Hg Hinh. unfold group_step. cbn [bind]. unfold get.
  pose proof (Hg (keyFn item)) as Hown.
  assert (Hnew : forall v,
             v = items_of_key keyFn (keyFn item) done ++ [item] ->
             grouped keyFn (set res (keyFn item) v) (done ++ [item])).
  { intros v -> k. rewrite items_of_key_app.
    destruct (jsstring_eqb (keyFn item) k) eqn:E.
    - apply jsstring_eqb_eq in E. subst k. rewrite get_own_set_same.
      now destruct (items_of_key keyFn (keyFn item) done).
    - apply jsstring_eqb_neq in E.
      rewrite get_own_set_other by exact E. now rewrite app_nil_r. }
  destruct (get_own res (keyFn item)) as [group|].
  - eexists. split; [reflexivity|]. apply Hnew.
    destruct (items_of_key keyFn (keyFn item) done); [discriminate|].
    simpl in Hown. now injection Hown as ->.
  - rewrite Hinh. eexists. split; [reflexivity|]. apply Hnew.
    now destruct (items_of_key keyFn (keyFn item) done).
Qed.

Lemma grouped_fold (items : list T) :
  Forall (fun item => is_inherited (keyFn item) = false) items ->
  forall res done,
    grouped keyFn res done ->
    exists groups,
      fold_left (group_step keyFn) items (Ok res) = Ok groups
      /\ grouped keyFn groups (done ++ items).
Proof.
  induction 1 as [|item items Hitem _ IH]; intros res done Hg.
  - exists res. split; [reflexivity | now rewrite app_nil_r].
  - destruct (grouped_step res done item Hg Hitem) as [res' [Hstep Hg']].
    cbn [fold_left]. rewrite Hstep.
    destruct (IH res' (done ++ [item]) Hg') as [groups [Hfold Hgroups]].
    exists groups. split; [exact Hfold|]. now rewrite <- app_assoc in Hgroups.
Qed.

Lemma grouped_fold_throws (items : list T) :
  Exists (fun item => is_inherited (keyFn item) = true) items ->
  forall res done,
    grouped keyFn res done ->
    Forall (fun item => is_inherited (keyFn item) = false) done ->
    fold_left (group_step keyFn) items (Ok res) = TypeError.
Proof.
  intros Hex. induction items as [|item items IH]; intros res done Hg Hdone.
  - inversion Hex.
  - cbn [fold_left].
    destruct (is_inherited (keyFn item)) eqn:Hinh.
    + assert (Hnone : get_own res (keyFn item) = None).
      { rewrite (Hg (keyFn item)).
        destruct (items_of_key keyFn (keyFn item) done) as [|x l] eqn:E;
          [reflexivity|].
        assert (Hx : In x (items_of_key keyFn (keyFn item) done))
          by (rewrite E; now left).
        apply filter_In in Hx as [Hx Hk]. apply jsstring_eqb_eq in Hk.
        rewrite Forall_forall in Hdone. specialize (Hdone x Hx).
        congruence. }
      assert (Hstep : group_step keyFn (Ok res) item = TypeError).
      { unfold group_step. cbn [bind]. unfold get.
        now rewrite Hnone, Hinh. }
      rewrite Hstep. apply group_step_throws.
    + destruct (grouped_step res done item Hg Hinh) as [res' [Hstep Hg']].
      rewrite Hstep. apply (IH ltac:(inversion Hex; [congruence | assumption])
                              res' (done ++ [item]) Hg').
      apply Forall_app. split; [assumption | now constructor].
Qed.

End Grouping.

(** [groupArrayItems] puts under every key the items of that key, in their
    order, and gives no property to a key without item; it throws exactly
    when the key of some item is the name of a member that every object
    inherits ([res[key].push] is then not a function). *)
Theorem groupArrayItems_partition {T : Type} (items : list T)
    (keyFn : T -> jsstring) :
  (Forall (fun item => is_inherited (keyFn item) = false) items ->
   exists groups,
     groupArrayItems items keyFn = Ok groups
     /\ forall k,
          get_own groups k = group_of (items_of_key keyFn k items))
  /\ (Exists (fun item => is_inherited (keyFn item) = true) items ->
      groupArrayItems items keyFn = TypeError).
Proof.
  rewrite groupArrayItems_fold. split.
  - intros H.
    destruct (grouped_fold keyFn items H [] []) as [groups [Hfold Hg]];
      [intros k; reflexivity|].
    exists groups. split; assumption.
  - intros H. apply (grouped_fold_throws keyFn items H [] []);
      [intros k; reflexivity | constructor].
Qed.

Lemma groupArrayItems_partition_witness :
  groupArrayItems [js "constructor"] (fun item => item) = TypeError.
Proof.
  apply (proj2 (groupArrayItems_partition [js "constructor"]
                  (fun item => item))).
  constructor. reflexivity.
Defined.

(** *** crc32 *)

Lemma crcTable_made : crcTable = makeCRCTable.
Proof. vm_compute. reflexivity. Qed.

Lemma hex_digit_is_hex (d : N) :
  d < 16 -> is_hex (hex_digit d) = true /\ hex_digit_value (hex_digit d) = d.
Proof.
  intros Hd. unfold hex_digit, is_hex, hex_digit_value, is_digit.
  destruct (N.ltb_spec d 10).
  - replace (48 <=? 48 + d) with true by (symmetry; apply N.leb_le; lia).
    replace (48 + d <=? 57) with true by (symmetry; apply N.leb_le; lia).
    cbn [andb orb]. split; [reflexivity | lia].
  - replace (87 + d <=? 57) with false by (symmetry; apply N.leb_gt; lia).
    rewrite andb_false_r.
    replace (97 <=? 87 + d) with true by (symmetry; apply N.leb_le; lia).
    replace (87 + d <=? 102) with true by (symmetry; apply N.leb_le; lia).
    cbn [andb orb]. split; [reflexivity | lia].
Qed.

Lemma hex_value_app (digits : jsstring) (c : code_unit) :
  hex_value (digits ++ [c]) = 16 * hex_value digits + hex_digit_value c.
Proof. unfold hex_value. now rewrite fold_left_app. Qed.

(** With as much fuel as the number has bits, [to_hex_go] writes all the
    digits of the number: they read the number back. *)
Lemma to_hex_go_digits (fuel : nat) :
  forall n acc,
    n < 2 ^ N.of_nat fuel ->
    exists digits,
      to_hex_go fuel n acc = digits ++ acc
      /\ hex_value digits = n
      /\ Forall (fun c => is_hex c = true) digits
      /\ forall k, n < 16 ^ N.of_nat k -> (length digits <= k)%nat.
Proof.
  induction fuel as [|fuel IH]; intros n acc Hn.
  - exists []. simpl in Hn. assert (n = 0) by lia. subst n.
    repeat split; [constructor | intros; simpl; lia].
  - cbn [to_hex_go]. destruct (N.eqb_spec n 0) as [->|Hne].
    + exists []. repeat split; [constructor | intros; simpl; lia].
    + assert (Hdiv : n / 16 < 2 ^ N.of_nat fuel).
      { apply N.Div0.div_lt_upper_bound.
        rewrite Nat2N.inj_succ, N.pow_succ_r' in Hn. lia. }
      destruct (IH (n / 16) (hex_digit (n mod 16) :: acc) Hdiv)
        as [digits [Hgo [Hval [Hhex Hlen]]]].
      assert (Hmod : n mod 16 < 16) by (apply N.mod_lt; lia).
      destruct (hex_digit_is_hex (n mod 16) Hmod) as [Hd Hdv].
      exists (digits ++ [hex_digit (n mod 16)]).
      split; [now rewrite Hgo, <- app_assoc|]. split; [|split].
      * rewrite hex_value_app, Hval, Hdv.
        symmetry. apply N.div_mod. lia.
      * apply Forall_app. split; [assumption | now constructor].
      * intros k Hk. rewrite length_app. simpl.
        destruct k as [|k]; [simpl in Hk; lia|].
        assert (length digits <= k)%nat; [|lia].
        apply Hlen. apply N.Div0.div_lt_upper_bound.
        now rewrite Nat2N.inj_succ, N.pow_succ_r' in Hk.
Qed.

Lemma hex_value_zeros (k : nat) (s : jsstring) :
  hex_value (@repeat N 48 k ++ s) = hex_value s.
Proof.
  unfold hex_value. rewrite fold_left_app. f_equal.
  induction k as [|k IH]; [reflexivity | exact IH].
Qed.

Lemma crc_value_range (str : jsstring) :
  (0 <= crc_value str < 4294967296)%Z.
Proof.
  unfold crc_value, js_ushr, to_uint32. rewrite Z.shiftr_0_r.
  apply Z.mod_pos_bound. lia.
Qed.

Lemma crc32_digits (str : jsstring) :
  length (crc32 str) = 8%nat
  /\ Forall (fun c => is_hex c = true) (crc32 str)
  /\ Z.of_N (hex_value (crc32 str)) = crc_value str.
Proof.
  pose proof (crc_value_range str) as Hrange.
  unfold crc32. set (n := Z.to_N (crc_value str)).
  assert (Hn : n < 16 ^ N.of_nat 8) by (unfold n; simpl; lia).
  assert (Hdigits : exists digits,
             toString16 n = digits
             /\ hex_value digits = n
             /\ Forall (fun c => is_hex c = true) digits
             /\ (length digits <= 8)%nat).
  { unfold toString16. destruct (N.eqb_spec n 0) as [->|Hne].
    - exists (js "0"). repeat split; [repeat constructor | simpl; lia].
    - destruct (to_hex_go_digits (N.to_nat (N.size n)) n [])
        as [digits [Hgo [Hval [Hhex Hlen]]]].
      + rewrite N2Nat.id. apply N.size_gt.
      + exists digits. rewrite Hgo, app_nil_r.
        repeat split; auto. }
  destruct Hdigits as [digits [-> [Hval [Hhex Hlen]]]].
  unfold padStart8. split; [|split].
  - rewrite length_app, repeat_length. unfold jsstring, code_unit in *. lia.
  - apply Forall_app. split; [|assumption].
    apply Forall_forall. intros c Hc. apply repeat_spec in Hc. now subst c.
  - rewrite hex_value_zeros, Hval. unfold n. lia.
Qed.

(** [crc32] returns eight hexadecimal digits in lower case, whatever the
    string, and these digits write the 32-bit value that the loop has
    computed. *)
Theorem crc32_eight_hex_digits (str : jsstring) :
  length (crc32 str) = 8%nat
  /\ Forall (fun c => is_hex c = true) (crc32 str)
  /\ Z.of_N (hex_value (crc32 str)) = crc_value str.
Proof. exact (crc32_digits str). Qed.

Lemma to_int32_mod256 (z : Z) : (to_int32 z mod 256 = z mod 256)%Z.
Proof.
  unfold to_int32, to_uint32.
  assert (H : ((z mod 4294967296) mod 256 = z mod 256)%Z).
  { apply Z.mod_mod_divide. exists 16777216%Z. reflexivity. }
  destruct (z mod 4294967296 <? 2147483648)%Z; [exact H|].
  rewrite <- H.
  replace (z mod 4294967296 - 4294967296)%Z
    with (z mod 4294967296 + (-16777216) * 256)%Z by lia.
  apply Z.mod_add. lia.
Qed.

Lemma land_255 (z : Z) : Z.land z 255 = (z mod 256)%Z.
Proof. change 255%Z with (Z.ones 8). now rewrite Z.land_ones by lia. Qed.

Lemma js_and_255 (z : Z) : js_and z 255 = (z mod 256)%Z.
Proof.
  unfold js_and. change (to_int32 255) with 255%Z.
  rewrite land_255, to_int32_mod256.
  pose proof (Z.mod_pos_bound z 256 ltac:(lia)) as Hr.
  unfold to_int32, to_uint32. rewrite (Z.mod_small (z mod 256)) by lia.
  destruct (Z.ltb_spec (z mod 256) 2147483648); [reflexivity | lia].
Qed.

Lemma lxor_mod256 (a b : Z) :
  (Z.lxor a b mod 256 = Z.lxor (a mod 256) (b mod 256))%Z.
Proof.
  rewrite <- !land_255. apply Z.bits_inj'. intros i Hi.
  rewrite !Z.land_spec, !Z.lxor_spec, !Z.land_spec.
  destruct (Z.testbit a i), (Z.testbit b i), (Z.testbit 255 i); reflexivity.
Qed.

Lemma js_xor_mod256 (a b : Z) :
  (js_xor a b mod 256 = Z.lxor (a mod 256) (b mod 256))%Z.
Proof.
  unfold js_xor. now rewrite to_int32_mod256, lxor_mod256, !to_int32_mod256.
Qed.

Lemma crc_step_low_byte (crc : Z) (code : code_unit) :
  crc_step crc (low_byte code) = crc_step crc code.
Proof.
  unfold crc_step. rewrite !js_and_255, !js_xor_mod256.
  do 4 f_equal. unfold low_byte.
  change 255 with (N.ones 8). rewrite N.land_ones.
  rewrite N2Z.inj_mod. change (Z.of_N (2 ^ 8)) with 256%Z.
  apply Z.mod_mod. lia.
Qed.

Lemma crc32_low_bytes (str : jsstring) :
  crc32 (map low_byte str) = crc32 str.
Proof.
  unfold crc32, crc_value. do 5 f_equal.
  generalize (js_xor 0 (-1)) as crc.
  induction str as [|code str IH]; intros crc; [reflexivity|].
  cbn [map fold_left]. rewrite crc_step_low_byte. apply IH.
Qed.

(** [crc32] reads the low eight bits of every code unit only
    ([(crc ^ str.charCodeAt(i)) & 0xff]): two strings whose code units have
    the same low bytes, such as U+00E9 and U+01E9, have the same hash. *)
Theorem crc32_reads_low_bytes (str : jsstring) :
  crc32 (map low_byte str) = crc32 str.
Proof. exact (crc32_low_bytes str). Qed.

(** *** Balanced input under a class selector does not throw *)

Lemma get_substitution_keeps_dot (matched before after templ : jsstring) :
  In 46 templ -> In 46 (get_substitution matched before after templ).
Proof.
  assert (Hgen : forall n templ, (length templ <= n)%nat -> In 46 templ ->
                   In 46 (get_substitution matched before after templ)).
  { induction n as [|n IH]; intros t Hlen Hin.
    - destruct t; [contradiction | simpl in Hlen; lia].
    - destruct t as [|c t]; [contradiction|].
      cbn [get_substitution].
      destruct (N.eqb_spec c 36) as [->|Hne].
      + destruct Hin as [E|Hin]; [discriminate|].
        destruct t as [|d t']; [contradiction|].
        assert (Hrec : In 46 t' ->
                       In 46 (get_substitution matched before after t'))
          by (apply IH; simpl in *; lia).
        assert (Hrect : In 46 (get_substitution matched before after (d :: t')))
          by (apply IH; [simpl in *; lia | assumption]).
        destruct (N.eqb_spec d 36) as [->|H36];
          [destruct Hin as [E|Hin]; [discriminate | right; auto]|].
        destruct (N.eqb_spec d 38) as [->|H38];
          [destruct Hin as [E|Hin];
           [discriminate | apply in_or_app; right; auto]|].
        destruct (N.eqb_spec d 96) as [->|H96];
          [destruct Hin as [E|Hin];
           [discriminate | apply in_or_app; right; auto]|].
        destruct (N.eqb_spec d 39) as [->|H39];
          [destruct Hin as [E|Hin];
           [discriminate | apply in_or_app; right; auto]|].
        right. exact Hrect.
      + destruct Hin as [E|Hin]; [now left|].
        right. apply IH; [simpl in Hlen; lia | assumption]. }
  intros H. exact (Hgen (length templ) templ (le_n _) H).
Qed.

Lemma includes_amp (seg : jsstring) :
  includes (js "&") seg = true -> In 38 seg.
Proof.
  induction seg as [|c seg IH]; [discriminate|].
  change (includes (js "&") (c :: seg))
    with (((38 =? c) && true) || includes (js "&") seg).
  rewrite andb_true_r. intros H. apply orb_prop in H as [H|H].
  - left. apply N.eqb_eq in H. now symmetry.
  - right. now apply IH.
Qed.

Lemma replace_amp_keeps_dot (path seg : jsstring) :
  In 46 path -> In 38 seg ->
  forall before_rev, In 46 (replace_str_go re_amp path O before_rev seg).
Proof.
  intros Hpath. induction seg as [|c seg IH]; intros Hamp before_rev;
    [contradiction|].
  cbn [replace_str_go]. rewrite exec_re_amp.
  destruct (N.eqb_spec 38 c) as [<-|Hne].
  - apply in_or_app. left. now apply get_substitution_keeps_dot.
  - right. apply IH. destruct Hamp as [E|H]; [congruence | exact H].
Qed.

Lemma drop_space_keeps (c : code_unit) (s : jsstring) :
  is_space c = false -> In c s -> In c (drop_space s).
Proof.
  intros Hc. induction s as [|d s IH]; [contradiction|].
  intros [->|Hin]; simpl.
  - rewrite Hc. now left.
  - destruct (is_space d); [now apply IH | now right].
Qed.

Lemma trim_keeps (c : code_unit) (s : jsstring) :
  is_space c = false -> In c s -> In c (trim s).
Proof.
  intros Hc Hin. unfold trim. apply in_rev. rewrite rev_involutive.
  apply drop_space_keeps; [assumption|]. apply -> in_rev.
  now apply drop_space_keeps.
Qed.

(** The dots of the parent path are in the composed selector. *)
Lemma concatPathSegment_keeps_dot (path seg : jsstring) :
  In 46 path -> In 46 (concatPathSegment path seg).
Proof.
  intros Hpath. unfold concatPathSegment.
  destruct (includes (js "&") seg) eqn:Hamp.
  - apply trim_keeps; [reflexivity|]. unfold replace_str.
    apply replace_amp_keeps_dot; [assumption | now apply includes_amp].
  - destruct (test re_word_at_end path && test_at_start re_selector_start seg);
      apply in_or_app; now left.
Qed.

Lemma split_concatPathSegmentEx (srcPath inputSeg : jsstring) :
  split [44] (concatPathSegmentEx srcPath inputSeg)
  = map (fun z => concatPathSegment (fst z) (snd z))
      (list_prod (split [44] srcPath) (split [44] inputSeg)).
Proof.
  unfold concatPathSegmentEx. rewrite arrayDiallel_list_prod.
  change (js ",") with [44]. apply split_join_comma.
  - intros E. apply (f_equal (@length jsstring)) in E.
    rewrite length_map, length_prod in E. simpl in E.
    apply Nat.eq_mul_0 in E as [H|H];
      apply length_zero_iff_nil in H; exact (split_nonempty _ _ H).
  - apply Forall_forall. intros p Hp.
    apply in_map_iff in Hp as [[a b] [<- Hab]].
    apply in_prod_iff in Hab as [Ha Hb]. simpl.
    pose proof (split_comma_pieces srcPath) as Ho.
    pose proof (split_comma_pieces inputSeg) as Hi.
    rewrite Forall_forall in Ho, Hi.
    apply concatPathSegment_no_comma; [now apply Ho | now apply Hi].
Qed.

Lemma dotted_concatPathSegmentEx (path seg : jsstring) :
  dotted path -> dotted (concatPathSegmentEx path seg).
Proof.
  unfold dotted. intros Hpath. rewrite split_concatPathSegmentEx.
  apply Forall_forall. intros p Hp.
  apply in_map_iff in Hp as [[a b] [<- Hab]].
  apply in_prod_iff in Hab as [Ha _]. simpl.
  rewrite Forall_forall in Hpath.
  apply concatPathSegment_keeps_dot. now apply Hpath.
Qed.

Lemma dotted_fold (tails : list jsstring) :
  forall head, dotted head -> dotted (fold_left concatPathSegmentEx tails head).
Proof.
  induction tails as [|seg tails IH]; intros head Hhead; [exact Hhead|].
  apply IH. now apply dotted_concatPathSegmentEx.
Qed.

Lemma dotted_has_dot (path : jsstring) : dotted path -> In 46 path.
Proof.
  unfold dotted. intros H.
  destruct (in_dec N.eq_dec 46 path) as [Hin|Hnin]; [exact Hin|].
  exfalso.
  assert (Hall : Forall (fun c => c <> 46) path).
  { apply Forall_forall. intros c Hc E. subst c. contradiction. }
  pose proof (split_kept (fun c => c <> 46) [44] path O Hall) as Hpieces.
  change (split_go [44] O path) with (split [44] path) in Hpieces.
  destruct (split [44] path) as [|piece pieces] eqn:E;
    [exact (split_nonempty _ _ E)|].
  inversion H as [|? ? Hdot _]; subst.
  inversion Hpieces as [|? ? Hnone _]; subst.
  rewrite Forall_forall in Hnone. exact (Hnone 46 Hdot eq_refl).
Qed.

Lemma class_selector_dotted (scope : jsstring) :
  Forall not_comma scope -> dotted (46 :: scope).
Proof.
  intros H. unfold dotted.
  rewrite (proj1 (split_comma_piece (46 :: scope)
                    ltac:(constructor; [discriminate | exact H]))).
  constructor; [now left | constructor].
Qed.

Lemma inherited_names_have_no_dot :
  Forall (fun name => forallb (fun c => negb (c =? 46)) name = true)
    object_prototype_keys.
Proof. repeat constructor. Qed.

Lemma dot_not_inherited (key : jsstring) :
  In 46 key -> is_inherited key = false.
Proof.
  intros Hdot. destruct (is_inherited key) eqn:E; [|reflexivity].
  exfalso. unfold is_inherited in E.
  apply existsb_exists in E as [name [Hname Hk]].
  apply jsstring_eqb_eq in Hk. subst name.
  pose proof inherited_names_have_no_dot as Hall.
  rewrite Forall_forall in Hall. specialize (Hall key Hname).
  rewrite forallb_forall in Hall. specialize (Hall 46 Hdot). discriminate.
Qed.

(** Under a stack that begins with a class selector, the key is not the
    name of an inherited member. *)
Lemma key_not_inherited (scope : jsstring) (rest : list jsstring)
    (slots : obj CssSlot) :
  dotted (46 :: scope) ->
  is_inherited (fst (prepareCssSlot ((46 :: scope) :: rest) slots)) = false.
Proof.
  intros Hdotted. rewrite prepareCssSlot_unfold. cbn [fst].
  pose proof (resolve_shape ((46 :: scope) :: rest)) as Hshape.
  destruct Hshape as [Hg | [x Hg]]; rewrite Hg; [|reflexivity].
  cbn [app]. apply dot_not_inherited.
  unfold resolve in *.
  destruct (findIndex (starts_with (js "@keyframes")) ((46 :: scope) :: rest))
    as [i|] eqn:Ei.
  - exfalso. cbn [snd] in Hg.
    apply (findIndex_some _ _ _ []) in Ei.
    unfold jsstring, code_unit in *. rewrite Hg in Ei. discriminate.
  - cbn [fst].
    change (filter (fun it => negb (test_at_start re_group_rule it))
              ((46 :: scope) :: rest))
      with ((46 :: scope)
              :: filter (fun it => negb (test_at_start re_group_rule it)) rest).
    set (tails := filter (fun it => negb (test_at_start re_group_rule it)) rest).
    assert (Hpath : combineSelectorPaths ((46 :: scope) :: tails)
                    = Str (fold_left concatPathSegmentEx tails (46 :: scope)))
      by (destruct tails; reflexivity).
    rewrite Hpath. cbn [template_text].
    apply dotted_has_dot, dotted_fold, Hdotted.
Qed.

Lemma removelast_cons {T : Type} (x y : T) (l : list T) :
  removelast (x :: y :: l) = x :: removelast (y :: l).
Proof. reflexivity. Qed.

Lemma removelast_length {T : Type} (y : T) (l : list T) :
  length (removelast (y :: l)) = length l.
Proof.
  revert y. induction l as [|z l IH]; intros y; [reflexivity|].
  rewrite removelast_cons. simpl. f_equal. apply IH.
Qed.

(** The scan of balanced lines from a stack that begins with a class
    selector, the current key having a slot of its own, ends well. *)
Lemma scan_balanced (scope : jsstring) (srcLines : list jsstring) :
  dotted (46 :: scope) ->
  forall rest key slots,
    balanced_from (length rest) srcLines = true ->
    (exists slot, get_own slots key = Some slot) ->
    exists st,
      scan (mkState ((46 :: scope) :: rest) key slots) srcLines = Ok st.
Proof.
  intros Hdotted. induction srcLines as [|line srcLines IH];
    intros rest key slots Hbal Hown.
  - eexists. reflexivity.
  - cbn [scan]. cbn [balanced_from] in Hbal.
    destruct (ends_with (js "{") line) eqn:Ho.
    + rewrite (scan_line_open _ line Ho). cbn [bind narrowers cssSlots].
      change (((46 :: scope) :: rest) ++ [slice_drop_last line])
        with ((46 :: scope) :: (rest ++ [slice_drop_last line])).
      apply IH.
      * rewrite length_app. simpl. now rewrite Nat.add_1_r.
      * apply prepareCssSlot_own. now apply key_not_inherited.
    + destruct (ends_with (js "}") line) eqn:Hc.
      * rewrite (scan_line_close _ line Ho Hc). cbn [bind narrowers cssSlots].
        destruct rest as [|y rest]; [discriminate|].
        rewrite removelast_cons. apply IH.
        -- cbn [length] in Hbal.
           pose proof (removelast_length y rest) as E.
           unfold jsstring, code_unit in *. rewrite E. exact Hbal.
        -- apply prepareCssSlot_own. now apply key_not_inherited.
      * destruct Hown as [slot Hslot].
        unfold scan_line. rewrite Ho, Hc. cbn [cssSlots slotKey].
        unfold get. rewrite Hslot. cbn [bind]. apply IH; [exact Hbal|].
        eexists. apply get_own_set_same.
Qed.

Lemma flatten_balanced_scan (scope cssBodyText : jsstring) :
  Forall not_comma scope ->
  balanced_from 0
    (transformCssBodyTextToNormalizedLines cssBodyText) = true ->
  exists cssText, extractNestedCss cssBodyText (46 :: scope) = Ok cssText.
Proof.
  intros Hscope Hbal. unfold extractNestedCss.
  set (srcLines := transformCssBodyTextToNormalizedLines cssBodyText) in *.
  destruct (flatten_lines srcLines (46 :: scope)) as [cssText|] eqn:E;
    [now exists cssText|].
  exfalso. apply flatten_throws_in_scan in E.
  pose proof (class_selector_dotted scope Hscope) as Hdotted.
  destruct (scan_balanced scope srcLines Hdotted []
              (fst (prepareCssSlot [46 :: scope] []))
              (snd (prepareCssSlot [46 :: scope] [])) Hbal) as [st Hst].
  - apply prepareCssSlot_own. now apply key_not_inherited.
  - unfold jsstring, code_unit in *. congruence.
Qed.

(** Under a scope that is one class selector, lines that never close more
    blocks than they have opened are flattened without an exception,
    whatever selectors, group rules and declarations they hold. *)
Theorem flatten_balanced_never_throws (scope cssBodyText : jsstring) :
  Forall not_comma scope ->
  balanced_from 0
    (transformCssBodyTextToNormalizedLines cssBodyText) = true ->
  exists cssText, extractNestedCss cssBodyText (46 :: scope) = Ok cssText.
Proof. exact (flatten_balanced_scan scope cssBodyText). Qed.

Lemma flatten_balanced_never_throws_witness :
  exists cssText,
    extractNestedCss
      (js "toString{color:red; @media (color){ &:hover{margin:0;} } }")
      (46 :: js "s")
    = Ok cssText.
Proof.
  apply (flatten_balanced_never_throws (js "s")
           (js "toString{color:red; @media (color){ &:hover{margin:0;} } }")).
  - repeat (constructor; [discriminate|]). constructor.
  - vm_compute. reflexivity.
Defined.

(** *** The class names and the page texts of resin_css.ts *)

Import ResinCss.

Lemma class_name_not_inherited (hash : jsstring) :
  is_inherited (js "cs_" ++ hash) = false.
Proof. reflexivity. Qed.


Lemma get_own_set_kept {V : Type} (o : obj V) (k k' : jsstring) (v : V) :
  (exists x, get_own o k' = Some x) ->
  exists x, get_own (set o k v) k' = Some x.
Proof.
  intros [x Hx]. destruct (jsstring_eqb k k') eqn:E.
  - apply jsstring_eqb_eq in E. subst k'. eexists. apply get_own_set_same.
  - exists x. rewrite get_own_set_other; [exact Hx|].
    intros ->. now rewrite jsstring_eqb_refl in E.
Qed.

Lemma push_keeps (className0 cssText0 : jsstring) (pages : obj jsstring)
    (k : jsstring) :
  (exists x, get_own pages k = Some x) ->
  exists x, get_own (pushCssTextToEmitterForSsr className0 cssText0 pages) k
            = Some x.
Proof.
  intros H. unfold pushCssTextToEmitterForSsr.
  destruct (get pages className0) as [[|c t]| |]; try exact H;
    now apply get_own_set_kept.
Qed.

Lemma push_has (hash cssText0 : jsstring) (pages : obj jsstring) :
  exists x,
    get_own (pushCssTextToEmitterForSsr (js "cs_" ++ hash) cssText0 pages)
      (js "cs_" ++ hash)
    = Some x.
Proof.
  unfold pushCssTextToEmitterForSsr, get.
  rewrite class_name_not_inherited.
  destruct (get_own pages (js "cs_" ++ hash)) as [[|c t]|] eqn:E.
  - eexists. apply get_own_set_same.
  - eexists. exact E.
  - eexists. apply get_own_set_same.
Qed.

Lemma ball_ok_push (className0 cssText0 : jsstring) (pages : obj jsstring)
    (ball : CssBall) :
  ball_ok pages ball ->
  ball_ok (pushCssTextToEmitterForSsr className0 cssText0 pages) ball.
Proof.
  intros [Hname [Htext Hpage]]. split; [exact Hname | split; [exact Htext|]].
  now apply push_keeps.
Qed.

(** What a call of [createCssBallCached] that misses the cache does. *)
Lemma createCssBallCached_miss (st : module_state) (src : jsstring) :
  find (fun ball => jsstring_eqb (sourceCssText ball) src) (cssBalls st)
  = None ->
  createCssBallCached st src
  = bind (extractNestedCss (source_mod src)
            (js "." ++ js "cs_" ++ crc32 (source_mod src)))
      (fun cssText0 =>
         Ok (js "cs_" ++ crc32 (source_mod src),
             mkModuleState
               (cssBalls st
                  ++ [mkCssBall (js "cs_" ++ crc32 (source_mod src)) src
                        cssText0])
               (set (classNameToSourceCssTextMap st)
                  (js "cs_" ++ crc32 (source_mod src)) src)
               (pushCssTextToEmitterForSsr
                  (js "cs_" ++ crc32 (source_mod src)) cssText0
                  (pageCssTexts st)))).
Proof. intros H. unfold createCssBallCached. now rewrite H. Qed.

Lemma createCssBallCached_consistent (st st' : module_state)
    (src name : jsstring) :
  consistent st ->
  createCssBallCached st src = Ok (name, st') ->
  consistent st'
  /\ name = js "cs_" ++ crc32 (source_mod src)
  /\ exists ball, In ball (cssBalls st') /\ className ball = name.
Proof.
  intros Hst Hcall.
  destruct (find (fun ball => jsstring_eqb (sourceCssText ball) src)
              (cssBalls st)) as [ball|] eqn:Hfind.
  - unfold createCssBallCached in Hcall. rewrite Hfind in Hcall.
    injection Hcall as <- <-.
    apply find_some in Hfind as [Hin Hsrc].
    apply jsstring_eqb_eq in Hsrc.
    unfold consistent in Hst. rewrite Forall_forall in Hst.
    destruct (Hst ball Hin) as [Hname _].
    split; [now apply Forall_forall | split].
    + now rewrite <- Hsrc.
    + now exists ball.
  - rewrite (createCssBallCached_miss st src Hfind) in Hcall.
    destruct (extractNestedCss (source_mod src) _) as [cssText0|] eqn:Hflat;
      [|discriminate].
    cbn [bind] in Hcall. injection Hcall as <- <-.
    split; [|split; [reflexivity|]].
    + unfold consistent. cbn [cssBalls pageCssTexts].
      apply Forall_app. split.
      * eapply Forall_impl; [|exact Hst].
        intros ball. apply ball_ok_push.
      * constructor; [|constructor].
        split; [reflexivity | split; [exact Hflat|]]. apply push_has.
    + eexists. split; [apply in_or_app; right; now left | reflexivity].
Qed.

Lemma reachable_consistent (st : module_state) : reachable st -> consistent st.
Proof.
  induction 1 as [|st st' src name _ IH Hcall]; [constructor|].
  exact (proj1 (createCssBallCached_consistent st st' src name IH Hcall)).
Qed.


Lemma find_after {T : Type} (p : T -> bool) (l l' : list T) :
  find p l = None -> find p (l ++ l') = find p l'.
Proof.
  induction l as [|x l IH]; [reflexivity|]. simpl.
  destruct (p x); [discriminate | exact IH].
Qed.



(** A source that has been given once is found again: the second call
    returns the same class name and changes nothing. *)
Theorem createCssBallCached_cached (st st' : module_state)
    (src name : jsstring) :
  createCssBallCached st src = Ok (name, st') ->
  createCssBallCached st' src = Ok (name, st').
Proof.
  intros Hcall.
  destruct (find (fun ball => jsstring_eqb (sourceCssText ball) src)
              (cssBalls st)) as [ball|] eqn:Hfind.
  - unfold createCssBallCached in Hcall. rewrite Hfind in Hcall.
    injection Hcall as <- <-.
    unfold createCssBallCached. now rewrite Hfind.
  - rewrite (createCssBallCached_miss st src Hfind) in Hcall.
    destruct (extractNestedCss (source_mod src) _) as [cssText0|];
      [|discriminate].
    cbn [bind] in Hcall. injection Hcall as <- <-.
    unfold createCssBallCached. cbn [cssBalls].
    rewrite (find_after _ _ _ Hfind). cbn [find sourceCssText].
    now rewrite jsstring_eqb_refl.
Qed.

Lemma createCssBallCached_cached_witness :
  exists name st',
    createCssBallCached initial_state (js "a{color:red;}") = Ok (name, st')
    /\ createCssBallCached st' (js "a{color:red;}") = Ok (name, st').
Proof.
  do 2 eexists. split; [vm_compute; reflexivity|].
  apply (createCssBallCached_cached initial_state). vm_compute. reflexivity.
Defined.



(** Two sources that, once their comma-newline pairs are read as commas
    (the text that [createCssBallCached] hashes), have code units with the
    same low bytes, one after the other, are given the same class name;
    and when the page of the server has a text that is not empty under this
    name already, the call for the second source leaves the page as it is:
    the text of the second source is not in the page. *)
Theorem low_byte_collision_keeps_first_text (st st1 st2 : module_state)
    (src1 src2 name1 name2 : jsstring) (c : code_unit) (text : jsstring) :
  reachable st ->
  createCssBallCached st src1 = Ok (name1, st1) ->
  createCssBallCached st1 src2 = Ok (name2, st2) ->
  map low_byte (source_mod src1) = map low_byte (source_mod src2) ->
  get_own (pageCssTexts st1) name1 = Some (c :: text) ->
  name2 = name1
  /\ pageCssTexts st2 = pageCssTexts st1
  /\ getPageCssFullTextForSsr st2 = getPageCssFullTextForSsr st1.
Proof.
  intros Hreach Hcall1 Hcall2 Hlow Hpage.
  pose proof (reachable_consistent st Hreach) as Hst.
  destruct (createCssBallCached_consistent st st1 src1 name1 Hst Hcall1)
    as [Hst1 [Hname1 _]].
  destruct (createCssBallCached_consistent st1 st2 src2 name2 Hst1 Hcall2)
    as [_ [Hname2 _]].
  assert (Hsame : name2 = name1).
  { rewrite Hname1, Hname2.
    rewrite <- (crc32_low_bytes (source_mod src1)),
            <- (crc32_low_bytes (source_mod src2)).
    now rewrite Hlow. }
  split; [exact Hsame|].
  assert (Hpages : pageCssTexts st2 = pageCssTexts st1).
  { destruct (find (fun ball => jsstring_eqb (sourceCssText ball) src2)
                (cssBalls st1)) as [ball|] eqn:Hfind.
    - unfold createCssBallCached in Hcall2. rewrite Hfind in Hcall2.
      now injection Hcall2 as _ <-.
    - rewrite (createCssBallCached_miss st1 src2 Hfind) in Hcall2.
      destruct (extractNestedCss (source_mod src2) _) as [cssText0|];
        [|discriminate].
      cbn [bind] in Hcall2. injection Hcall2 as _ <-.
      cbn [pageCssTexts].
      assert (E : pushCssTextToEmitterForSsr name1 cssText0 (pageCssTexts st1)
                  = pageCssTexts st1)
        by (unfold pushCssTextToEmitterForSsr, get; now rewrite Hpage).
      rewrite <- Hsame, Hname2 in E. exact E. }
  split; [exact Hpages|].
  unfold getPageCssFullTextForSsr. now rewrite Hpages.
Qed.

Lemma low_byte_collision_keeps_first_text_witness :
  exists name st1 st2,
    createCssBallCached initial_state (js "content:'a';") = Ok (name, st1)
    /\ createCssBallCached st1 (js "content:'" ++ [353] ++ js "';")
       = Ok (name, st2)
    /\ getPageCssFullTextForSsr st2 = getPageCssFullTextForSsr st1.
Proof.
  do 3 eexists. split; [vm_compute; reflexivity|].
  split; [vm_compute; reflexivity|].
  match goal with
  | |- getPageCssFullTextForSsr ?st2 = getPageCssFullTextForSsr ?st1 =>
      pose proof (fun name1 name2 c text =>
                    low_byte_collision_keeps_first_text initial_state st1 st2
                      (js "content:'a';") (js "content:'" ++ [353] ++ js "';")
                      name1 name2 c text reachable_initial) as Hthm
  end.
  eapply Hthm; vm_compute; reflexivity.
Defined.

(** *** Splitting at one code unit *)

Lemma split_unit_cons (sep c : code_unit) (s : jsstring) :
  split [sep] (c :: s)
  = if sep =? c then [] :: split [sep] s
    else match split [sep] s with
         | piece :: pieces => (c :: piece) :: pieces
         | [] => [[c]]
         end.
Proof.
  unfold split. cbn [split_go starts_with]. now rewrite andb_true_r.
Qed.

Lemma split_unit_pieces (sep : code_unit) (s : jsstring) :
  Forall (Forall (fun c => c <> sep)) (split [sep] s).
Proof.
  induction s as [|c s IH]; [repeat constructor|].
  rewrite split_unit_cons.
  destruct (N.eqb_spec sep c) as [<-|Hne].
  - constructor; [constructor | exact IH].
  - destruct (split [sep] s) as [|piece pieces].
    + repeat constructor. intros E. now apply Hne.
    + inversion IH; subst. constructor; [|assumption].
      constructor; [|assumption]. intros E. now apply Hne.
Qed.

Lemma split_unit_piece (sep : code_unit) (x : jsstring) :
  Forall (fun c => c <> sep) x ->
  split [sep] x = [x]
  /\ forall rest, split [sep] (x ++ sep :: rest) = x :: split [sep] rest.
Proof.
  induction 1 as [|c x Hc _ [IH1 IH2]].
  - split; [reflexivity|]. intros rest. cbn [app].
    now rewrite split_unit_cons, N.eqb_refl.
  - assert (Hne : (sep =? c) = false)
      by (apply N.eqb_neq; intros E; now apply Hc).
    split.
    + now rewrite split_unit_cons, Hne, IH1.
    + intros rest. cbn [app]. now rewrite split_unit_cons, Hne, IH2.
Qed.

Lemma split_join_unit (sep : code_unit) (l : list jsstring) :
  l <> [] -> Forall (Forall (fun c => c <> sep)) l ->
  split [sep] (join [sep] l) = l.
Proof.
  intros Hne H. induction H as [|x l Hx Hl IH]; [contradiction|].
  destruct l as [|y l].
  - simpl. apply (split_unit_piece sep x Hx).
  - change (join [sep] (x :: y :: l)) with (x ++ sep :: join [sep] (y :: l)).
    rewrite (proj2 (split_unit_piece sep x Hx)). f_equal.
    apply IH. discriminate.
Qed.

(** *** [cx] *)

Lemma cx_given_classes (args : list cx_arg) :
  map cx_text (filter cx_truthy args) = given_classes args.
Proof.
  induction args as [|a args IH]; [reflexivity|].
  destruct a as [[|c s]| | |]; cbn [filter cx_truthy map cx_text
    given_classes flat_map app]; fold (given_classes args);
    now rewrite ?IH.
Qed.

(** [cx] joins the class names among its arguments, the strings that are
    not empty, with one space each, in their order; [null], [undefined],
    [false] and the empty string leave no trace.  When no class name holds
    a space and there is one at least, splitting the result at the spaces
    gives the class names back. *)
Theorem cx_splits_back (args : list cx_arg) :
  Forall one_class args ->
  given_classes args <> [] ->
  cx args = join (js " ") (given_classes args)
  /\ split (js " ") (cx args) = given_classes args.
Proof.
  intros Hargs Hne. unfold cx. rewrite cx_given_classes.
  split; [reflexivity|].
  change (js " ") with [32]. apply split_join_unit; [exact Hne|].
  clear Hne. induction Hargs as [|a args Ha _ IH]; [constructor|].
  destruct a as [[|c s]| | |]; cbn [given_classes flat_map app];
    fold (given_classes args); try exact IH.
  constructor; [exact Ha | exact IH].
Qed.

Lemma cx_splits_back_witness :
  cx [CxString (js "btn"); CxFalse; CxNull; CxString []; CxUndefined;
      CxString (js "cs_0123abcd")]
  = js "btn cs_0123abcd"
  /\ split (js " ")
       (cx [CxString (js "btn"); CxFalse; CxNull; CxString []; CxUndefined;
            CxString (js "cs_0123abcd")])
     = [js "btn"; js "cs_0123abcd"].
Proof.
  apply (cx_splits_back
           [CxString (js "btn"); CxFalse; CxNull; CxString []; CxUndefined;
            CxString (js "cs_0123abcd")]).
  - repeat constructor; discriminate.
  - discriminate.
Defined.

(** *** The normalized lines *)

Lemma replace_terminator (s : jsstring) :
  replace_fn re_terminator (fun m _ => m ++ [10]) s
  = flat_map (fun c => if is_terminator c then [c; 10] else [c]) s.
Proof.
  unfold replace_fn. induction s as [|c s IH]; [reflexivity|].
  cbn [replace_go flat_map].
  change (exec re_terminator (c :: s))
    with (if is_terminator c then Some (1%nat, @None jsstring) else None).
  destruct (is_terminator c); cbn [firstn app]; now rewrite IH.
Qed.

Lemma terminator_not_newline (c : code_unit) :
  is_terminator c = true -> (10 =? c) = false.
Proof.
  intros H. destruct (N.eqb_spec 10 c) as [<-|]; [discriminate | reflexivity].
Qed.

Lemma split_terminated (s : jsstring) :
  Forall terminator_last
    (split [10]
       (flat_map (fun c => if is_terminator c then [c; 10] else [c]) s)).
Proof.
  induction s as [|c s IH]; [repeat constructor|].
  cbn [flat_map]. destruct (is_terminator c) eqn:Hc; cbn [app].
  - rewrite split_unit_cons, (terminator_not_newline c Hc).
    rewrite split_unit_cons, N.eqb_refl.
    constructor; [|exact IH]. split; [reflexivity | exact I].
  - rewrite split_unit_cons. destruct (10 =? c).
    + constructor; [exact I | exact IH].
    + match goal with
      | |- Forall _ (match ?x with _ => _ end) =>
          change (Forall terminator_last x) in IH;
          destruct x as [|piece pieces]
      end;
        [constructor; [split; [congruence | exact I] | constructor]|].
      inversion IH; subst. constructor; [|assumption].
      split; [congruence | assumption].
Qed.

Lemma terminator_last_infix (pre x post : jsstring) :
  terminator_last (pre ++ x ++ post) -> terminator_last x.
Proof.
  induction pre as [|c pre IH]; cbn [app terminator_last].
  - induction x as [|c x IHx]; cbn [app terminator_last]; [trivial|].
    intros [Hc Hrest]. split; [|now apply IHx].
    intros Ht. apply Hc in Ht. now apply app_eq_nil in Ht.
  - intros [_ H]. now apply IH.
Qed.

Lemma terminator_last_split (line front rest : jsstring) (c : code_unit) :
  terminator_last line -> line = front ++ c :: rest ->
  is_terminator c = true -> rest = [].
Proof.
  intros Hline ->. induction front as [|d front IH]; cbn [app] in Hline.
  - destruct Hline as [Hc _]. exact Hc.
  - destruct Hline as [_ H]. now apply IH.
Qed.

Lemma drop_space_suffix (s : jsstring) :
  exists pre, s = pre ++ drop_space s.
Proof.
  induction s as [|c s [pre IH]]; [now exists []|].
  cbn [drop_space]. destruct (is_space c).
  - exists (c :: pre). cbn [app]. now f_equal.
  - now exists [].
Qed.

Lemma drop_space_head (s rest : jsstring) (c : code_unit) :
  drop_space s = c :: rest -> is_space c = false.
Proof.
  induction s as [|d s IH]; cbn [drop_space]; [discriminate|].
  destruct (is_space d) eqn:Hd; [exact IH|].
  intros E. injection E as <- _. exact Hd.
Qed.

Lemma trim_before_spaces (s : jsstring) :
  exists post, drop_space s = trim s ++ post.
Proof.
  unfold trim. destruct (drop_space_suffix (rev (drop_space s))) as [q Hq].
  exists (rev q). rewrite <- rev_app_distr.
  unfold jsstring, code_unit in *. rewrite <- Hq. now rewrite rev_involutive.
Qed.

Lemma trim_infix (s : jsstring) :
  exists pre post, s = pre ++ trim s ++ post.
Proof.
  destruct (drop_space_suffix s) as [pre Hpre].
  destruct (trim_before_spaces s) as [post Hpost].
  exists pre, post. now rewrite <- Hpost.
Qed.

Lemma trim_first (s rest : jsstring) (c : code_unit) :
  trim s = c :: rest -> is_space c = false.
Proof.
  intros E. destruct (trim_before_spaces s) as [post Hpost].
  rewrite E in Hpost. cbn [app] in Hpost.
  exact (drop_space_head s _ c Hpost).
Qed.

Lemma trim_last (s front : jsstring) (c : code_unit) :
  trim s = front ++ [c] -> is_space c = false.
Proof.
  unfold trim. intros E. apply (f_equal (@rev code_unit)) in E.
  rewrite rev_involutive, rev_app_distr in E. cbn [rev app] in E.
  exact (drop_space_head _ _ c E).
Qed.

Lemma normalized_pieces (pieces : list jsstring) :
  Forall terminator_last pieces ->
  Forall (Forall (fun c => c <> 10)) pieces ->
  Forall normalized_line (filter is_nonempty (map trim pieces)).
Proof.
  induction pieces as [|piece pieces IH]; intros Hlast Hnl; [constructor|].
  inversion Hlast as [|? ? Hp Hps]; subst.
  inversion Hnl as [|? ? Hn Hns]; subst.
  cbn [map filter].
  destruct (trim piece) as [|c line] eqn:E; cbn [is_nonempty];
    [now apply IH|].
  constructor; [|now apply IH].
  rewrite <- E. split; [rewrite E; discriminate|]. split; [|split; [|split]].
  - intros Hin. pose proof (trim_kept (fun c => c <> 10) piece Hn) as Hk.
    rewrite Forall_forall in Hk. exact (Hk 10 Hin eq_refl).
  - intros d rest Hd. exact (trim_first piece rest d Hd).
  - intros front d Hd. exact (trim_last piece front d Hd).
  - intros front d rest Hd Ht.
    destruct (trim_infix piece) as [pre [post Hpiece]].
    rewrite Hpiece in Hp. apply terminator_last_infix in Hp.
    exact (terminator_last_split _ front rest d Hp Hd Ht).
Qed.

(** Every line that [transformCssBodyTextToNormalizedLines] returns is not
    empty, holds no newline, has no white space at either end, and holds a
    [;], a [{] or a [}] as its last code unit only: the tests of the scan on
    the end of a line see every brace of the text. *)
Theorem normalized_lines_shape (cssBodyText : jsstring) :
  Forall normalized_line (transformCssBodyTextToNormalizedLines cssBodyText).
Proof.
  unfold transformCssBodyTextToNormalizedLines.
  rewrite replace_terminator.
  apply normalized_pieces; [apply split_terminated | apply split_unit_pieces].
Qed.

(** *** The keyframe names *)

Lemma rmatch_Lit (lit : jsstring) :
  forall pos s cap (k : continuation),
    rmatch (Lit lit) pos s cap k
    = if starts_with lit s
      then k (pos + length lit)%nat (skipn (length lit) s) cap
      else None.
Proof.
  induction lit as [|x lit IH]; intros pos s cap k.
  - cbn. now rewrite Nat.add_0_r.
  - cbn [Lit rmatch Chr starts_with length].
    destruct s as [|y s]; [reflexivity|].
    destruct (x =? y); [|reflexivity]. cbn [andb skipn].
    rewrite IH. now rewrite Nat.add_succ_r.
Qed.

(** A greedy star over a class, before a continuation that always
    succeeds, reads the longest run of the class. *)
Lemma star_greedy_class (p : code_unit -> bool) (k : continuation) :
  (forall pos s cap, k pos s cap <> None) ->
  forall n pos s cap,
    (length s <= n)%nat ->
    star_greedy (rmatch (Class p)) k n pos s cap
    = k (pos + length (take_while p s))%nat
        (skipn (length (take_while p s)) s) cap.
Proof.
  intros Hk. induction n as [|n IH]; intros pos s cap Hlen.
  - destruct s; [|simpl in Hlen; lia]. cbn. now rewrite Nat.add_0_r.
  - cbn [star_greedy rmatch]. destruct s as [|c s].
    + cbn. now rewrite Nat.add_0_r.
    + cbn [take_while]. destruct (p c).
      * assert (Hlt : (pos <? S pos)%nat = true) by (apply Nat.ltb_lt; lia).
        rewrite Hlt, IH by (simpl in Hlen; lia).
        cbn [length skipn]. rewrite Nat.add_succ_r. cbn [Nat.add].
        destruct (k _ _ cap) eqn:E; [reflexivity|].
        exfalso. exact (Hk _ _ _ E).
      * cbn. now rewrite Nat.add_0_r.
Qed.

Lemma firstn_take_while (p : code_unit -> bool) (s : jsstring) :
  firstn (length (take_while p s)) s = take_while p s.
Proof.
  induction s as [|c s IH]; [reflexivity|]. cbn [take_while].
  destruct (p c); [|reflexivity]. cbn [length firstn]. now rewrite IH.
Qed.

Lemma rmatch_plus_class (p : code_unit -> bool) (k : continuation) :
  (forall pos s cap, k pos s cap <> None) ->
  forall pos s cap,
    rmatch (Plus (Class p)) pos s cap k
    = match take_while p s with
      | [] => None
      | _ :: _ =>
          k (pos + length (take_while p s))%nat
            (skipn (length (take_while p s)) s) cap
      end.
Proof.
  intros Hk pos s cap.
  change (rmatch (Plus (Class p)) pos s cap k)
    with (rmatch (Class p) pos s cap
            (fun pos' s' cap' =>
               star_greedy (rmatch (Class p)) k (length s') pos' s' cap')).
  destruct s as [|c s]; [reflexivity|].
  change (rmatch (Class p) pos (c :: s) cap
            (fun pos' s' cap' =>
               star_greedy (rmatch (Class p)) k (length s') pos' s' cap'))
    with (if p c
          then star_greedy (rmatch (Class p)) k (length s) (S pos) s cap
          else None).
  cbn [take_while]. destruct (p c); [|reflexivity].
  rewrite (star_greedy_class p k Hk) by lia.
  cbn [length skipn]. now rewrite Nat.add_succ_r.
Qed.

(** What [/^@keyframes ([\w-]+)/] captures. *)
Lemma capture_keyframes_name (spec : jsstring) :
  capture_at_start re_keyframes_name spec
  = if starts_with (js "@keyframes ") spec
    then match take_while is_name_unit (skipn 11 spec) with
         | [] => None
         | name => Some name
         end
    else None.
Proof.
  unfold capture_at_start, exec.
  change (rmatch re_keyframes_name 0 spec None
            (fun pos' _ cap => Some (pos', cap)))
    with (rmatch (Lit (js "@keyframes ")) 0 spec None
            (fun pos' s' _ =>
               rmatch (Plus (Class is_name_unit)) pos' s' None
                 (fun pos2 _ _ =>
                    Some (pos2, Some (firstn (pos2 - pos') s'))))).
  rewrite rmatch_Lit.
  destruct (starts_with (js "@keyframes ") spec); [|reflexivity].
  change (length (js "@keyframes ")) with 11%nat.
  set (s := skipn 11 spec).
  rewrite rmatch_plus_class by discriminate.
  destruct (take_while is_name_unit s) as [|c run] eqn:E; [reflexivity|].
  rewrite <- E.
  replace (0 + 11 + length (take_while is_name_unit s) - (0 + 11))%nat
    with (length (take_while is_name_unit s)) by lia.
  now rewrite firstn_take_while.
Qed.

Lemma take_while_all (p : code_unit -> bool) (s : jsstring) :
  exists rest, s = take_while p s ++ rest.
Proof.
  induction s as [|c s [rest IH]]; [now exists []|].
  cbn [take_while]. destruct (p c).
  - exists rest. cbn [app]. now f_equal.
  - now exists (c :: s).
Qed.

Lemma capture_declares (spec name : jsstring) :
  (capture_at_start re_keyframes_name spec = Some name /\ name <> [])
  <-> declares spec name.
Proof.
  rewrite capture_keyframes_name. unfold declares. split.
  - intros [Hcap Hne]. split; [exact Hne|].
    destruct (starts_with (js "@keyframes ") spec) eqn:Hs; [|discriminate].
    apply starts_with_split in Hs as [tail ->].
    change (skipn 11 (js "@keyframes " ++ tail)) with tail in Hcap.
    assert (Hname : take_while is_name_unit tail = name)
      by (destruct (take_while is_name_unit tail); congruence).
    destruct (take_while_all is_name_unit tail) as [rest Hrest].
    rewrite Hname in Hrest. exists rest. split; [now rewrite Hrest|].
    now rewrite <- Hrest.
  - intros [Hne [rest [-> Htake]]].
    rewrite starts_with_app.
    change (skipn 11 (js "@keyframes " ++ name ++ rest)) with (name ++ rest).
    rewrite Htake. split; [|exact Hne].
    destruct name; [contradiction | reflexivity].
Qed.

(** [collectKeyframeNames] returns, each once, the names that the group
    rule specs of the slots declare: the longest run of letters, digits,
    [_] and [-] after [@keyframes] and one space, when it is not empty. *)
Theorem collectKeyframeNames_declared (slots : list CssSlot) :
  NoDup (collectKeyframeNames slots)
  /\ forall name,
       In name (collectKeyframeNames slots)
       <-> exists slot, In slot slots /\ declares (groupRuleSpec slot) name.
Proof.
  unfold collectKeyframeNames. rewrite uniqueArrayItems_first_occurrences.
  unfold first_occurrences.
  destruct (first_occurrences_from_spec []
              (flat_map
                 (fun slot =>
                    match
                      capture_at_start re_keyframes_name (groupRuleSpec slot)
                    with
                    | Some name => if is_nonempty name then [name] else []
                    | None => []
                    end)
                 (filter
                    (fun slot =>
                       starts_with (js "@keyframes") (groupRuleSpec slot))
                    slots))) as [Hnd Hin].
  split; [exact Hnd|]. intros name. rewrite Hin. clear Hnd Hin.
  rewrite in_flat_map. split.
  - intros [[slot [Hslot Hname]] _]. exists slot.
    apply filter_In in Hslot as [Hslot _]. split; [exact Hslot|].
    apply capture_declares.
    destruct (capture_at_start re_keyframes_name (groupRuleSpec slot))
      as [found|]; [|contradiction].
    destruct found as [|c found]; [contradiction|].
    destruct Hname as [<-|[]]. split; [reflexivity | discriminate].
  - intros [slot [Hslot Hdecl]]. split; [|intros []].
    exists slot. split.
    + apply filter_In. split; [exact Hslot|].
      destruct Hdecl as [_ [rest [-> _]]]. reflexivity.
    + apply capture_declares in Hdecl as [-> Hne].
      destruct name; [contradiction | now left].
Qed.

(** *** The scope selector stays in every selector path *)

Lemma infix_refl (top : jsstring) : infix top top.
Proof. exists [], []. now rewrite app_nil_r. Qed.

Lemma infix_app_l (top pre s : jsstring) : infix top s -> infix top (pre ++ s).
Proof.
  intros [front [rest ->]]. exists (pre ++ front), rest. now rewrite app_assoc.
Qed.

Lemma infix_app_r (top s post : jsstring) : infix top s -> infix top (s ++ post).
Proof.
  intros [front [rest ->]]. exists front, (rest ++ post).
  now rewrite <- !app_assoc.
Qed.

Lemma infix_cons (top s : jsstring) (c : code_unit) :
  infix top s -> infix top (c :: s).
Proof. intros H. exact (infix_app_l top [c] s H). Qed.

Lemma get_substitution_plain_app (matched before after s rest : jsstring) :
  no_dollar s = true ->
  get_substitution matched before after (s ++ rest)
  = s ++ get_substitution matched before after rest.
Proof.
  induction s as [|c s IH]; [reflexivity|].
  intros H. cbn [no_dollar forallb] in H. apply andb_prop in H as [Hc Hs].
  apply negb_true_iff in Hc. cbn [app get_substitution]. rewrite Hc.
  f_equal. now apply IH.
Qed.

Section ScopeInPaths.

Variable scope : jsstring.
Hypothesis scope_units : Forall (fun c => is_name_unit c = true) scope.

Lemma name_unit_range (c : code_unit) :
  is_name_unit c = true -> 45 <= c <= 122.
Proof.
  unfold is_name_unit, is_word, is_upper, is_lower, is_digit.
  rewrite !orb_true_iff, !andb_true_iff, !N.leb_le, !N.eqb_eq. lia.
Qed.

Lemma name_unit_not_space (c : code_unit) :
  is_name_unit c = true -> is_space c = false.
Proof.
  intros H. apply name_unit_range in H. unfold is_space.
  rewrite !orb_false_iff, andb_false_iff, !N.eqb_neq, !N.leb_gt.
  repeat split; lia.
Qed.

Lemma scope_no_dollar : no_dollar (46 :: scope) = true.
Proof.
  unfold no_dollar. apply forallb_forall. intros c [<-|Hc]; [reflexivity|].
  rewrite Forall_forall in scope_units.
  apply scope_units, name_unit_range in Hc.
  apply negb_true_iff, N.eqb_neq. lia.
Qed.

Lemma scope_no_comma : Forall not_comma scope.
Proof.
  eapply Forall_impl; [|exact scope_units].
  intros c Hc E. apply name_unit_range in Hc. unfold not_comma in *. lia.
Qed.

Lemma scope_last :
  exists d t, rev (46 :: scope) = d :: t /\ is_space d = false.
Proof.
  assert (H : forall l : list N,
             Forall (fun c => is_name_unit c = true) l ->
             exists d t, rev l ++ [46] = d :: t /\ is_space d = false).
  { intros l Hl. destruct (rev l) as [|d t] eqn:E.
    - exists 46, []. split; reflexivity.
    - exists d, (t ++ [46]). split; [reflexivity|].
      apply name_unit_not_space. rewrite Forall_forall in Hl. apply Hl.
      apply (proj2 (in_rev l d)). rewrite E. now left. }
  exact (H scope scope_units).
Qed.

Lemma get_substitution_infix (matched before after : jsstring) :
  forall n front rest,
    (length front <= n)%nat ->
    infix (46 :: scope)
      (get_substitution matched before after (front ++ (46 :: scope) ++ rest)).
Proof.
  assert (Hbase : forall rest,
             infix (46 :: scope)
               (get_substitution matched before after ((46 :: scope) ++ rest))).
  { intros rest. rewrite get_substitution_plain_app by apply scope_no_dollar.
    apply infix_app_r, infix_refl. }
  induction n as [|n IH]; intros front rest Hlen.
  - destruct front; [apply Hbase | simpl in Hlen; lia].
  - destruct front as [|c front]; [apply Hbase|].
    cbn [app get_substitution].
    destruct (c =? 36).
    + destruct front as [|d front].
      * change ([] ++ (46 :: scope) ++ rest) with (46 :: scope ++ rest).
        cbv iota. change (46 =? 36) with false. change (46 =? 38) with false.
        change (46 =? 96) with false. change (46 =? 39) with false.
        cbv iota. apply infix_cons. apply Hbase.
      * cbn [app].
        assert (H2 : infix (46 :: scope)
                       (get_substitution matched before after
                          (front ++ (46 :: scope) ++ rest)))
          by (apply IH; simpl in *; lia).
        assert (H1 : infix (46 :: scope)
                       (get_substitution matched before after
                          ((d :: front) ++ (46 :: scope) ++ rest)))
          by (apply IH; simpl in *; lia).
        destruct (d =? 36); [now apply infix_cons|].
        destruct (d =? 38); [now apply infix_app_l|].
        destruct (d =? 96); [now apply infix_app_l|].
        destruct (d =? 39); [now apply infix_app_l|].
        apply infix_cons. exact H1.
    + apply infix_cons. apply IH. simpl in Hlen. lia.
Qed.

Lemma replace_amp_infix (path seg : jsstring) :
  infix (46 :: scope) path -> In 38 seg ->
  forall before_rev,
    infix (46 :: scope) (replace_str_go re_amp path O before_rev seg).
Proof.
  intros [front [rest ->]]. induction seg as [|c seg IH];
    intros Hamp before_rev; [contradiction|].
  cbn [replace_str_go]. rewrite exec_re_amp.
  destruct (N.eqb_spec 38 c) as [<-|Hne].
  - apply infix_app_r. apply (get_substitution_infix _ _ _ (length front)).
    apply le_n.
  - apply infix_cons. apply IH. destruct Hamp as [E|H]; [congruence | exact H].
Qed.

Lemma drop_space_app (a t : jsstring) (c : code_unit) :
  is_space c = false -> drop_space (a ++ c :: t) = drop_space a ++ c :: t.
Proof.
  intros Hc. induction a as [|d a IH]; cbn [app drop_space].
  - now rewrite Hc.
  - destruct (is_space d); [exact IH | reflexivity].
Qed.

Lemma trim_infix_scope (s : jsstring) :
  infix (46 :: scope) s -> infix (46 :: scope) (trim s).
Proof.
  intros [front [rest ->]]. unfold trim.
  destruct scope_last as [d [t [Hrev Hd]]].
  cbn [app]. rewrite (drop_space_app front (scope ++ rest) 46 eq_refl).
  change (46 :: scope ++ rest) with ((46 :: scope) ++ rest).
  rewrite !rev_app_distr. unfold jsstring, code_unit in *. rewrite Hrev.
  rewrite <- app_assoc. cbn [app].
  rewrite (drop_space_app (rev rest) _ d Hd).
  change (d :: t ++ rev (drop_space front))
    with ((d :: t) ++ rev (drop_space front)).
  rewrite <- Hrev. rewrite !rev_app_distr, !rev_involutive.
  exists (drop_space front), (rev (drop_space (rev rest))).
  now rewrite <- app_assoc.
Qed.

(** The composed selector holds the scope selector when the parent path
    does. *)
Lemma concatPathSegment_infix (path seg : jsstring) :
  infix (46 :: scope) path ->
  infix (46 :: scope) (concatPathSegment path seg).
Proof.
  intros Hpath. unfold concatPathSegment.
  destruct (includes (js "&") seg) eqn:Hamp.
  - apply trim_infix_scope. unfold replace_str.
    apply replace_amp_infix; [assumption | now apply includes_amp].
  - destruct (test re_word_at_end path && test_at_start re_selector_start seg);
      now apply infix_app_r.
Qed.

Lemma scoped_concatPathSegmentEx (path seg : jsstring) :
  scoped (46 :: scope) path ->
  scoped (46 :: scope) (concatPathSegmentEx path seg).
Proof.
  unfold scoped. intros Hpath. rewrite split_concatPathSegmentEx.
  apply Forall_forall. intros p Hp.
  apply in_map_iff in Hp as [[a b] [<- Hab]].
  apply in_prod_iff in Hab as [Ha _]. simpl.
  rewrite Forall_forall in Hpath.
  apply concatPathSegment_infix. now apply Hpath.
Qed.

Lemma scoped_fold (tails : list jsstring) :
  forall head,
    scoped (46 :: scope) head ->
    scoped (46 :: scope) (fold_left concatPathSegmentEx tails head).
Proof.
  induction tails as [|seg tails IH]; intros head Hhead; [exact Hhead|].
  apply IH. now apply scoped_concatPathSegmentEx.
Qed.

Lemma scope_scoped : scoped (46 :: scope) (46 :: scope).
Proof.
  unfold scoped.
  rewrite (proj1 (split_comma_piece (46 :: scope)
                    ltac:(constructor; [discriminate | exact scope_no_comma]))).
  constructor; [apply infix_refl | constructor].
Qed.

(** The slot that a stack under the scope selector resolves to. *)
Lemma resolve_scoped (rest lines : list jsstring) :
  slot_scoped (46 :: scope)
    (mkCssSlot (fst (resolve ((46 :: scope) :: rest)))
       (snd (resolve ((46 :: scope) :: rest))) lines).
Proof.
  unfold resolve, slot_scoped.
  destruct (findIndex (starts_with (js "@keyframes")) ((46 :: scope) :: rest))
    as [i|] eqn:Ei; cbn [fst snd selectorPath groupRuleSpec].
  - left. exact (findIndex_some _ _ _ [] Ei).
  - right.
    change (filter (fun it => negb (test_at_start re_group_rule it))
              ((46 :: scope) :: rest))
      with ((46 :: scope)
              :: filter (fun it => negb (test_at_start re_group_rule it)) rest).
    set (tails := filter (fun it => negb (test_at_start re_group_rule it)) rest).
    exists (fold_left concatPathSegmentEx tails (46 :: scope)).
    split; [destruct tails; reflexivity|].
    apply scoped_fold, scope_scoped.
Qed.

Lemma prepareCssSlot_scoped (rest : list jsstring) (slots : obj CssSlot) :
  Forall (fun kv => slot_scoped (46 :: scope) (snd kv)) slots ->
  Forall (fun kv => slot_scoped (46 :: scope) (snd kv))
    (snd (prepareCssSlot ((46 :: scope) :: rest) slots)).
Proof.
  intros Hslots. rewrite prepareCssSlot_unfold. cbn [snd].
  destruct (get slots _); try exact Hslots.
  apply set_forall; [exact Hslots|]. intros k' _. cbn [snd].
  apply resolve_scoped.
Qed.

Lemma scan_scoped (srcLines : list jsstring) :
  forall rest key slots st,
    balanced_from (length rest) srcLines = true ->
    scan (mkState ((46 :: scope) :: rest) key slots) srcLines = Ok st ->
    Forall (fun kv => slot_scoped (46 :: scope) (snd kv)) slots ->
    Forall (fun kv => slot_scoped (46 :: scope) (snd kv)) (cssSlots st).
Proof.
  induction srcLines as [|line srcLines IH];
    intros rest key slots st Hbal Hscan Hslots.
  - cbn [scan] in Hscan. injection Hscan as <-. exact Hslots.
  - cbn [scan] in Hscan. cbn [balanced_from] in Hbal.
    destruct (ends_with (js "{") line) eqn:Ho.
    + rewrite (scan_line_open _ line Ho) in Hscan.
      cbn [bind narrowers cssSlots] in Hscan.
      change (((46 :: scope) :: rest) ++ [slice_drop_last line])
        with ((46 :: scope) :: (rest ++ [slice_drop_last line])) in Hscan.
      eapply IH; [|exact Hscan|].
      * rewrite length_app. simpl. now rewrite Nat.add_1_r.
      * now apply prepareCssSlot_scoped.
    + destruct (ends_with (js "}") line) eqn:Hc.
      * rewrite (scan_line_close _ line Ho Hc) in Hscan.
        cbn [bind narrowers cssSlots] in Hscan.
        destruct rest as [|y rest]; [discriminate|].
        rewrite removelast_cons in Hscan.
        eapply IH; [|exact Hscan|].
        -- cbn [length] in Hbal.
           pose proof (removelast_length y rest) as E.
           unfold jsstring, code_unit in *. rewrite E. exact Hbal.
        -- now apply prepareCssSlot_scoped.
      * unfold scan_line in Hscan. rewrite Ho, Hc in Hscan.
        cbn [cssSlots slotKey narrowers] in Hscan. unfold get in Hscan.
        destruct (get_own slots key) as [slot|] eqn:Hslot.
        -- cbn [bind] in Hscan. eapply IH; [exact Hbal | exact Hscan|].
           apply set_forall; [exact Hslots|]. intros k' _. cbn [snd].
           apply get_own_in in Hslot.
           rewrite Forall_forall in Hslots. exact (Hslots _ Hslot).
        -- destruct (is_inherited key); discriminate.
Qed.

End ScopeInPaths.

Lemma scan_slots_unfold (srcLines : list jsstring) (top : jsstring) :
  scan_slots srcLines top
  = bind (scan (mkState [top] (fst (prepareCssSlot [top] []))
                  (snd (prepareCssSlot [top] []))) srcLines)
      (fun st => Ok (values (prune (cssSlots st)))).
Proof.
  unfold scan_slots. now destruct (prepareCssSlot [top] []).
Qed.

(** Under a scope that is one class selector made of letters, digits, [_]
    and [-], and for lines that never close more blocks than they have
    opened, every slot that is rendered belongs to a keyframes rule or has
    a selector path each alternative of which holds the scope selector: no
    rule of the text applies outside the class. *)
Theorem rendered_slots_are_scoped (scope cssBodyText : jsstring) :
  Forall (fun c => is_name_unit c = true) scope ->
  balanced_from 0
    (transformCssBodyTextToNormalizedLines cssBodyText) = true ->
  exists listSlots cssText,
    scan_slots (transformCssBodyTextToNormalizedLines cssBodyText)
      (46 :: scope) = Ok listSlots
    /\ Forall (slot_scoped (46 :: scope)) listSlots
    /\ render_text listSlots = Ok cssText
    /\ extractNestedCss cssBodyText (46 :: scope)
       = Ok (rename_keyframes scope (collectKeyframeNames listSlots) cssText).
Proof.
  intros Hscope Hbal.
  set (srcLines := transformCssBodyTextToNormalizedLines cssBodyText) in *.
  pose proof (scope_no_comma scope Hscope) as Hcomma.
  pose proof (class_selector_dotted scope Hcomma) as Hdotted.
  destruct (scan_balanced scope srcLines Hdotted []
              (fst (prepareCssSlot [46 :: scope] []))
              (snd (prepareCssSlot [46 :: scope] [])) Hbal) as [st Hst].
  { apply prepareCssSlot_own. now apply key_not_inherited. }
  assert (Hslots : scan_slots srcLines (46 :: scope)
                   = Ok (values (prune (cssSlots st)))).
  { rewrite scan_slots_unfold. unfold jsstring, code_unit in *.
    now rewrite Hst. }
  assert (Hall : Forall (slot_scoped (46 :: scope))
                   (values (prune (cssSlots st)))).
  { pose proof (scan_scoped scope Hscope srcLines [] _ _ st Hbal Hst
                  (prepareCssSlot_scoped scope Hscope [] [] (Forall_nil _)))
      as Hst_scoped.
    apply Forall_forall. intros slot Hin. unfold values in Hin.
    apply in_map_iff in Hin as [[k slot'] [E Hkv]]. cbn [snd] in E. subst.
    apply entries_in in Hkv. unfold prune in Hkv.
    apply filter_In in Hkv as [Hkv _].
    rewrite Forall_forall in Hst_scoped. exact (Hst_scoped _ Hkv). }
  destruct (flatten_balanced_scan scope cssBodyText Hcomma Hbal)
    as [out Hout].
  assert (Hflat : extractNestedCss cssBodyText (46 :: scope)
                  = bind (render_text (values (prune (cssSlots st))))
                      (fun cssText =>
                         Ok (rename_keyframes scope
                               (collectKeyframeNames
                                  (values (prune (cssSlots st))))
                               cssText))).
  { unfold extractNestedCss, flatten_lines. fold srcLines.
    unfold jsstring, code_unit in *. now rewrite Hslots. }
  rewrite Hflat in Hout.
  destruct (render_text (values (prune (cssSlots st)))) as [cssText|] eqn:Hr;
    [|discriminate].
  exists (values (prune (cssSlots st))), cssText.
  split; [exact Hslots|]. split; [exact Hall|]. split; [exact Hr|].
  exact Hflat.
Qed.

Lemma rendered_slots_are_scoped_witness :
  exists listSlots cssText,
    scan_slots
      (transformCssBodyTextToNormalizedLines
         (js "a,b{ &:hover,i{color:red;} } @media (color){ p{margin:0;} }"))
      (46 :: js "s") = Ok listSlots
    /\ Forall (slot_scoped (46 :: js "s")) listSlots
    /\ render_text listSlots = Ok cssText
    /\ extractNestedCss
         (js "a,b{ &:hover,i{color:red;} } @media (color){ p{margin:0;} }")
         (46 :: js "s")
       = Ok (rename_keyframes (js "s") (collectKeyframeNames listSlots)
               cssText).
Proof.
  apply (rendered_slots_are_scoped (js "s")
           (js "a,b{ &:hover,i{color:red;} } @media (color){ p{margin:0;} }")).
  - repeat (constructor; [reflexivity|]). constructor.
  - vm_compute. reflexivity.
Defined.

(** *** The parent reference, for a path without a dollar sign *)

(** When the parent path holds no dollar sign, [concatPathSegment] on a
    segment with [&] is the exact replacement of every [&] by the path,
    trimmed. *)
Theorem concatPathSegment_exact_without_dollar (path seg : jsstring) :
  includes (js "&") seg = true ->
  no_dollar path = true ->
  concatPathSegment path seg = trim (replace_amp_exact path seg).
Proof. exact (concatPathSegment_amp_plain path seg). Qed.

Lemma concatPathSegment_exact_without_dollar_witness :
  concatPathSegment (js ".card > a") (js " & + &:hover ")
  = trim (replace_amp_exact (js ".card > a") (js " & + &:hover ")).
Proof.
  apply (concatPathSegment_exact_without_dollar (js ".card > a")
           (js " & + &:hover ")); reflexivity.
Defined.

(** *** A class name as a value of a later template *)

Lemma createCssBallCached_map_ok (st st' : module_state)
    (src name : jsstring) :
  map_ok st ->
  createCssBallCached st src = Ok (name, st') ->
  map_ok st'.
Proof.
  intros Hst Hcall.
  destruct (find (fun ball => jsstring_eqb (sourceCssText ball) src)
              (cssBalls st)) as [found|] eqn:Hfind.
  - unfold createCssBallCached in Hcall. rewrite Hfind in Hcall.
    now injection Hcall as _ <-.
  - rewrite (createCssBallCached_miss st src Hfind) in Hcall.
    destruct (extractNestedCss (source_mod src) _) as [cssText0|];
      [|discriminate].
    cbn [bind] in Hcall. injection Hcall as _ <-.
    set (name0 := js "cs_" ++ crc32 (source_mod src)).
    intros ball Hball. cbn [cssBalls classNameToSourceCssTextMap] in *.
    destruct (jsstring_eqb name0 (className ball)) eqn:E.
    + apply jsstring_eqb_eq in E. rewrite <- E.
      exists src. split; [apply get_own_set_same|].
      exists (mkCssBall name0 src cssText0).
      split; [apply in_or_app; right; now left | split; reflexivity].
    + assert (Hne : name0 <> className ball)
        by (intros Heq; rewrite Heq, jsstring_eqb_refl in E; discriminate).
      apply in_app_or in Hball as [Hball|[<-|[]]];
        [|now rewrite jsstring_eqb_refl in E].
      destruct (Hst ball Hball) as [source [Hget [ball' [Hin' [Hn' Hs']]]]].
      exists source. split; [now rewrite get_own_set_other|].
      exists ball'. split; [apply in_or_app; now left | now split].
Qed.

Lemma reachable_map_ok (st : module_state) : reachable st -> map_ok st.
Proof.
  induction 1 as [|st st' src name _ IH Hcall]; [intros ball []|].
  exact (createCssBallCached_map_ok st st' src name IH Hcall).
Qed.

(** A class name that [createCssBallCached] has returned stands, in the
    record of the sources, for the source of a ball of that class name;
    when this source is not empty, [css] with the class name as the value
    of a template reads the source in its place. *)
Theorem css_reads_the_source_of_a_class
    (inherited_text : jsstring -> jsstring) (st st' : module_state)
    (src name : jsstring) :
  reachable st ->
  createCssBallCached st src = Ok (name, st') ->
  exists source,
    get_own (classNameToSourceCssTextMap st') name = Some source
    /\ (exists ball,
          In ball (cssBalls st')
          /\ className ball = name /\ sourceCssText ball = source)
    /\ (source <> [] ->
        forall before after,
          css inherited_text st' [before; after] [VString name]
          = createCssBallCached st'
              (replace_str re_double_semicolon (js ";")
                 (replace_fn re_around_special first_capture
                    (replace_str re_newline_run []
                       (before ++ source ++ after))))).
Proof.
  intros Hreach Hcall.
  pose proof (reachable_map_ok st'
                (@reachable_call st st' src name Hreach Hcall)) as Hmap.
  destruct (createCssBallCached_consistent st st' src name
              (reachable_consistent st Hreach) Hcall)
    as [_ [_ [ball [Hin Hball]]]].
  destruct (Hmap ball Hin) as [source [Hget [ball' [Hin' [Hn' Hs']]]]].
  rewrite Hball in Hget, Hn'.
  exists source. split; [exact Hget|]. split; [now exists ball'|].
  intros Hne before after. unfold css, extractCssTemplate.
  cbn [interpolate_loop]. unfold contribution, prior_source, get.
  rewrite Hget. destruct source as [|c source]; [contradiction|].
  cbn [bind template_at nth app]. now rewrite <- app_assoc.
Qed.

Lemma css_reads_the_source_of_a_class_witness :
  exists name st' source,
    createCssBallCached initial_state (js "color:red;") = Ok (name, st')
    /\ get_own (classNameToSourceCssTextMap st') name = Some source.
Proof.
  do 2 eexists.
  match goal with
  | |- exists source, _ = Ok (?name, ?st') /\ _ =>
      pose proof (css_reads_the_source_of_a_class (fun s => s) initial_state
                    st' (js "color:red;") name reachable_initial) as Hthm
  end.
  destruct Hthm as [source [Hget _]]; [vm_compute; reflexivity|].
  exists source. split; [vm_compute; reflexivity | exact Hget].
Defined.
